(** * Le Pire Cube: the simulation core of [cube.js]

    A shallow embedding of the geometry primitives, the solids and the
    colours, the collision test, the world generator, the player, the
    game update and the numbers that the renderer computes in [cube.js].

    JavaScript numbers are read as real numbers ([R]): the arithmetic
    operators, [Math.cos], [Math.sin], [Math.exp] and [x ** 0.5] are the
    functions of real analysis, comparisons are decided classically, and
    rounding, overflow and NaN are outside the model.  The constants
    [PI], [SQRT2] and [EPSILON] are the decimal literals of the source,
    not the irrational numbers they approximate.  Grid coordinates and
    loop counters, which the source only ever fills with integers, are
    [Z]; objects used as dictionaries are [gmap]s. *)

From Stdlib Require Import Reals Lra Lia ZArith Psatz Classical_Prop.
From stdpp Require Import gmap list sorting.

Open Scope R_scope.

(** ** Numbers *)

Module Num.

#[export] Instance Req_decision : EqDecision R := Req_dec_T.
#[export] Instance Rlt_decision : RelDecision Rlt := Rlt_dec.
#[export] Instance Rle_decision : RelDecision Rle := Rle_dec.
#[export] Instance Rgt_decision : RelDecision Rgt := Rgt_dec.
#[export] Instance Rge_decision : RelDecision Rge := Rge_dec.

(** The module-level constants of the source. *)
Definition PI : R := 3.141592653589793.
Definition SQRT2 : R := 1.414213562373095.
Definition SQRT3 : R := 1.732050807568877.
Definition EPSILON : R := 0.000001.

(** [x ** 0.5], read on the non-negative numbers it is applied to. *)
Definition pow_half (x : R) : R := sqrt x.

(** [Math.floor], as the integer it denotes. *)
Definition floor (x : R) : Z := Zfloor x.

(** [Math.trunc], used by the remainder operator. *)
Definition trunc (x : R) : Z :=
  if bool_decide (0 <= x) then Zfloor x else (- Zfloor (- x))%Z.

(** [x % m]: the remainder of the truncated division, with the sign of
    the dividend. *)
Definition fmod (x m : R) : R := x - m * IZR (trunc (x / m)).

(** [Math.atan2 (y, x)]. *)
Definition atan2 (y x : R) : R :=
  if bool_decide (0 < x) then atan (y / x)
  else if bool_decide (x < 0) then
    (if bool_decide (0 <= y) then atan (y / x) + Rtrigo1.PI
     else atan (y / x) - Rtrigo1.PI)
  else if bool_decide (0 < y) then Rtrigo1.PI / 2
  else if bool_decide (y < 0) then - (Rtrigo1.PI / 2)
  else 0.

(** [Math.min (...xs)] on a non-empty argument list. *)
Definition min_list (x : R) (xs : list R) : R := foldr Rmin x xs.

End Num.
Import Num.

(** ** Errors *)

Inductive Error : Type :=
  | ZeroVector      (* 'Zero vector cannot be normalized' *)
  | ShortPath.      (* 'A path is a least three points' *)

Inductive outcome (A : Type) : Type :=
  | Done (a : A)
  | Throw (e : Error).
Arguments Done {A} a.
Arguments Throw {A} e.

Definition obind {A B} (m : outcome A) (f : A -> outcome B) : outcome B :=
  match m with
  | Done a => f a
  | Throw e => Throw e
  end.

(** ** Three-dimensional vectors *)

Record Vect : Type := mkVect { vx : R; vy : R; vz : R }.

Module V.

Definition ZERO : Vect := mkVect 0 0 0.
Definition ONE : Vect := mkVect 1 1 1.

Definition dot (u v : Vect) : R := vx u * vx v + vy u * vy v + vz u * vz v.

Definition lengthSquared (v : Vect) : R := dot v v.

Definition length (v : Vect) : R := pow_half (lengthSquared v).

Definition add (u v : Vect) : Vect :=
  mkVect (vx u + vx v) (vy u + vy v) (vz u + vz v).

Definition multiply (v : Vect) (lambda : R) : Vect :=
  mkVect (vx v * lambda) (vy v * lambda) (vz v * lambda).

Definition substract (u v : Vect) : Vect := add u (multiply v (-1)).

Definition cross (u v : Vect) : Vect :=
  mkVect (vy u * vz v - vz u * vy v)
         (vz u * vx v - vx u * vz v)
         (vx u * vy v - vy u * vx v).

Definition normalize (v : Vect) : outcome Vect :=
  let l := length v in
  if bool_decide (l = 0) then Throw ZeroVector
  else Done (multiply v (1 / l)).

Definition rotateZ (v : Vect) (theta : R) : Vect :=
  mkVect (vx v * cos theta - vy v * sin theta)
         (vy v * cos theta + vx v * sin theta)
         (vz v).

Definition cloneX (v : Vect) : Vect := mkVect (vx v) 0 0.
Definition cloneY (v : Vect) : Vect := mkVect 0 (vy v) 0.
Definition cloneZ (v : Vect) : Vect := mkVect 0 0 (vz v).
Definition cloneXY (v : Vect) : Vect := mkVect (vx v) (vy v) 0.

Definition rotateX (v : Vect) (theta : R) : Vect :=
  mkVect (vx v)
         (vy v * cos theta - vz v * sin theta)
         (vz v * cos theta + vy v * sin theta).

Definition rotateY (v : Vect) (theta : R) : Vect :=
  mkVect (vx v * cos theta + vz v * sin theta)
         (vy v)
         (vz v * cos theta - vx v * sin theta).

Definition clone (v : Vect) : Vect := mkVect (vx v) (vy v) (vz v).
Definition cloneXZ (v : Vect) : Vect := mkVect (vx v) 0 (vz v).
Definition cloneYZ (v : Vect) : Vect := mkVect 0 (vy v) (vz v).

End V.

(** ** 3x3 matrices, given by their three columns *)

Module Matrix.

Record Matrix : Type := mk { u : Vect; v : Vect; w : Vect }.

Definition product (m : Matrix) (x : Vect) : Vect :=
  mkVect (vx (u m) * vx x + vx (v m) * vy x + vx (w m) * vz x)
         (vy (u m) * vx x + vy (v m) * vy x + vy (w m) * vz x)
         (vz (u m) * vx x + vz (v m) * vy x + vz (w m) * vz x).

Definition multiply (m : Matrix) (lambda : R) : Matrix :=
  mk (V.multiply (u m) lambda) (V.multiply (v m) lambda)
     (V.multiply (w m) lambda).

End Matrix.

(** ** Paths: arrays of coplanar vertices with their unit normal *)

Record Path : Type := mkPath { vertices : list Vect; normal : Vect }.

Module P.

(** [new Path (vects)]. *)
Definition new (vects : list Vect) : outcome Path :=
  match vects with
  | v0 :: v1 :: v2 :: rest =>
      obind (V.normalize (V.cross (V.substract v1 v0) (V.substract v2 v1)))
            (fun n => Done (mkPath (v0 :: v1 :: v2 :: rest) n))
  | _ => Throw ShortPath
  end.

(** [path._call (method, ...args)], for a method [f] of [Vect]. *)
Definition call (f : Vect -> Vect) (path : Path) : outcome Path :=
  new (map f (vertices path)).

Definition translate (path : Path) (v : Vect) : outcome Path :=
  call (fun u => V.add u v) path.

Definition rotateZ (path : Path) (theta : R) (origin : Vect) : outcome Path :=
  obind (translate path (V.multiply origin (-1))) (fun p1 =>
  obind (call (fun u => V.rotateZ u theta) p1) (fun p2 =>
  translate p2 origin)).

Definition rotateX (path : Path) (theta : R) (origin : Vect) : outcome Path :=
  obind (translate path (V.multiply origin (-1))) (fun p1 =>
  obind (call (fun u => V.rotateX u theta) p1) (fun p2 =>
  translate p2 origin)).

Definition rotateY (path : Path) (theta : R) (origin : Vect) : outcome Path :=
  obind (translate path (V.multiply origin (-1))) (fun p1 =>
  obind (call (fun u => V.rotateY u theta) p1) (fun p2 =>
  translate p2 origin)).

End P.

(** ** Solids: arrays of faces *)

(** [xs.map (f)] for an [f] that may throw: the first exception leaves
    the loop. *)
Fixpoint mapAll {A B} (f : A -> outcome B) (xs : list A) : outcome (list B) :=
  match xs with
  | [] => Done []
  | x :: xs' =>
      obind (f x) (fun y => obind (mapAll f xs') (fun ys => Done (y :: ys)))
  end.

Module Solid.

Record Solid : Type := mk { faces : list Path }.

(** [solid._call (method, ...args)], for a method [f] of [Path]. *)
Definition call (f : Path -> outcome Path) (s : Solid) : outcome Solid :=
  obind (mapAll f (faces s)) (fun fs => Done (mk fs)).

Definition translate (s : Solid) (v : Vect) : outcome Solid :=
  call (fun path => P.translate path v) s.

Definition rotateX (s : Solid) (theta : R) (origin : Vect) : outcome Solid :=
  call (fun path => P.rotateX path theta origin) s.

Definition rotateY (s : Solid) (theta : R) (origin : Vect) : outcome Solid :=
  call (fun path => P.rotateY path theta origin) s.

Definition rotateZ (s : Solid) (theta : R) (origin : Vect) : outcome Solid :=
  call (fun path => P.rotateZ path theta origin) s.

End Solid.

(** ** The prism spanned by a diagonal *)

Module Prism.

(** A [Prism] is a [Solid] that also remembers its diagonal. *)
Record Prism : Type := mk { solid : Solid.Solid; diagonal : Vect }.

(** [new Prism (diagonal)]. *)
Definition new (diagonal : Vect) : outcome Prism :=
  let x := V.cloneX diagonal in
  let y := V.cloneY diagonal in
  let z := V.cloneZ diagonal in
  let v0 := V.ZERO in
  let v1 := x in
  let v2 := V.add x y in
  let v3 := y in
  let v4 := z in
  let v5 := V.add z x in
  let v6 := V.add (V.add z x) y in
  let v7 := V.add z y in
  obind (mapAll P.new [ [v0; v3; v2; v1];
                      [v1; v2; v6; v5];
                      [v2; v3; v7; v6];
                      [v0; v1; v5; v4];
                      [v3; v0; v4; v7];
                      [v4; v5; v6; v7] ]) (fun fs =>
  Done (mk (Solid.mk fs) diagonal)).

End Prism.

(** ** Collisions *)

Module Collisions.

(** The body of the [for (const w of vects)] loop of
    [vectorSeesAllOthersOnTheSameHalfPlane], with the running [min] and
    [max]; [false] is the early [return false]. *)
Fixpoint seesLoop (n u : Vect) (ws : list Vect) (min max : R) : bool :=
  match ws with
  | [] => true
  | w :: ws' =>
      let d := V.dot n (V.cross u w) in
      let mm :=
        if bool_decide (d < min) then (d, max)
        else if bool_decide (d > max) then (min, d)
        else (min, max) in
      if bool_decide (mm.2 <> 0) && bool_decide (mm.1 <> 0) then false
      else seesLoop n u ws' mm.1 mm.2
  end.

Definition vectorSeesAllOthersOnTheSameHalfPlane
    (n : Vect) (vects : list Vect) (u : Vect) : bool :=
  seesLoop n u vects 0 0.

Definition isPointInPath (v : Vect) (path : Path) : outcome bool :=
  obind (P.translate path (V.multiply v (-1))) (fun tp =>
    let vects := vertices tp in
    Done (negb (existsb
      (vectorSeesAllOthersOnTheSameHalfPlane (normal path) vects) vects))).

End Collisions.

(** ** Colours: (r, g, b), each component floored by the constructor *)

Module Color.

Record Color : Type := mk { r : Z; g : Z; b : Z }.

(** [new Color (r, g, b)]. *)
Definition new (r g b : R) : Color := mk (floor r) (floor g) (floor b).

Definition gradient (c1 c2 : Color) (t : R) : Color :=
  new ((1 - t) * IZR (r c1) + t * IZR (r c2))
      ((1 - t) * IZR (g c1) + t * IZR (g c2))
      ((1 - t) * IZR (b c1) + t * IZR (b c2)).

Definition scale (c lightest darkest : Color) (brightness t : R) : Color :=
  let light := gradient c lightest brightness in
  let dark := gradient c darkest brightness in
  gradient light dark ((t + 1) / 2).

End Color.

(** ** Settings *)

(** The fields of [GameSettings] that the simulation reads. *)
Record GameSettings : Type := mkGameSettings {
  playerSize : R;
  playerInitialPosition : Vect;
  playerAcceleration : Vect;
  playerJumpVelocity : Vect;
  gameInitialPosition : R;
  gameInitialVelocity : R;
  gameAcceleration : R;
  gameTimeBetweenPowerUps : R;
  gameDeathZone : R;
  gameWalkZone : R;
  gameWidth : R;
  rendererTilesOnScreen : Z;
  rendererFallingAnimationDuration : R
}.

(** The values assigned by the constructor of [GameSettings]. *)
Definition defaultSettings : GameSettings := {|
  playerSize := 0.5;
  playerInitialPosition := mkVect 1.5 1.5 0;
  playerAcceleration := mkVect 0 0 (-30);
  playerJumpVelocity := mkVect 0 0 10;
  gameInitialPosition := -5 * SQRT2;
  gameInitialVelocity := 1.0 * SQRT2;
  gameAcceleration := 0.1 * SQRT2;
  gameTimeBetweenPowerUps := 10;
  gameDeathZone := 4;
  gameWalkZone := 200;
  gameWidth := 6;
  rendererTilesOnScreen := 15;
  rendererFallingAnimationDuration := 0.5
|}.

(** ** The player *)

Module Player.

Record Player : Type := mk {
  settings : GameSettings;
  side : R;
  s : Vect;
  position : Vect;
  velocity : Vect;
  acceleration : Vect;
  orientationAngularVelocity : R;
  rotationAngularVelocity : R;
  inAirVelocity : R;
  level : nat;
  levelSince : R;
  jumpVelocity : Vect;
  orientation : R;
  rotation : R;
  inRotation : bool;
  inRotationSince : R;
  inAir : bool;
  inAirSince : R
}.

(** Field assignments [this.f = v]. *)
Definition set_position (v : Vect) (p : Player) : Player :=
  mk (settings p) (side p) (s p) v (velocity p) (acceleration p)
     (orientationAngularVelocity p) (rotationAngularVelocity p) (inAirVelocity p)
     (level p) (levelSince p) (jumpVelocity p) (orientation p) (rotation p)
     (inRotation p) (inRotationSince p) (inAir p) (inAirSince p).
Definition set_velocity (v : Vect) (p : Player) : Player :=
  mk (settings p) (side p) (s p) (position p) v (acceleration p)
     (orientationAngularVelocity p) (rotationAngularVelocity p) (inAirVelocity p)
     (level p) (levelSince p) (jumpVelocity p) (orientation p) (rotation p)
     (inRotation p) (inRotationSince p) (inAir p) (inAirSince p).
Definition set_stats (oav rav iav : R) (p : Player) : Player :=
  mk (settings p) (side p) (s p) (position p) (velocity p) (acceleration p)
     oav rav iav
     (level p) (levelSince p) (jumpVelocity p) (orientation p) (rotation p)
     (inRotation p) (inRotationSince p) (inAir p) (inAirSince p).
Definition set_level (l : nat) (since : R) (p : Player) : Player :=
  mk (settings p) (side p) (s p) (position p) (velocity p) (acceleration p)
     (orientationAngularVelocity p) (rotationAngularVelocity p) (inAirVelocity p)
     l since (jumpVelocity p) (orientation p) (rotation p)
     (inRotation p) (inRotationSince p) (inAir p) (inAirSince p).
Definition set_orientation (theta : R) (p : Player) : Player :=
  mk (settings p) (side p) (s p) (position p) (velocity p) (acceleration p)
     (orientationAngularVelocity p) (rotationAngularVelocity p) (inAirVelocity p)
     (level p) (levelSince p) (jumpVelocity p) theta (rotation p)
     (inRotation p) (inRotationSince p) (inAir p) (inAirSince p).
Definition set_rotation (r : R) (p : Player) : Player :=
  mk (settings p) (side p) (s p) (position p) (velocity p) (acceleration p)
     (orientationAngularVelocity p) (rotationAngularVelocity p) (inAirVelocity p)
     (level p) (levelSince p) (jumpVelocity p) (orientation p) r
     (inRotation p) (inRotationSince p) (inAir p) (inAirSince p).
Definition set_inRotation (b : bool) (p : Player) : Player :=
  mk (settings p) (side p) (s p) (position p) (velocity p) (acceleration p)
     (orientationAngularVelocity p) (rotationAngularVelocity p) (inAirVelocity p)
     (level p) (levelSince p) (jumpVelocity p) (orientation p) (rotation p)
     b (inRotationSince p) (inAir p) (inAirSince p).
Definition set_inRotationSince (t : R) (p : Player) : Player :=
  mk (settings p) (side p) (s p) (position p) (velocity p) (acceleration p)
     (orientationAngularVelocity p) (rotationAngularVelocity p) (inAirVelocity p)
     (level p) (levelSince p) (jumpVelocity p) (orientation p) (rotation p)
     (inRotation p) t (inAir p) (inAirSince p).
Definition set_inAir (b : bool) (p : Player) : Player :=
  mk (settings p) (side p) (s p) (position p) (velocity p) (acceleration p)
     (orientationAngularVelocity p) (rotationAngularVelocity p) (inAirVelocity p)
     (level p) (levelSince p) (jumpVelocity p) (orientation p) (rotation p)
     (inRotation p) (inRotationSince p) b (inAirSince p).
Definition set_inAirSince (t : R) (p : Player) : Player :=
  mk (settings p) (side p) (s p) (position p) (velocity p) (acceleration p)
     (orientationAngularVelocity p) (rotationAngularVelocity p) (inAirVelocity p)
     (level p) (levelSince p) (jumpVelocity p) (orientation p) (rotation p)
     (inRotation p) (inRotationSince p) (inAir p) t.

(** [_updateStats ()]: the speeds that follow from the level. *)
Definition statsVelocity (st : GameSettings) (l : nat) : R :=
  gameTimeBetweenPowerUps st * gameAcceleration st * (INR l + 2)
  + gameInitialVelocity st.

Definition updateStats (p : Player) : Player :=
  let velocity := statsVelocity (settings p) (level p) in
  let rav := velocity / side p * PI / 2 in
  set_stats rav rav velocity p.

(** [new Player (settings)]. *)
Definition new (st : GameSettings) : Player :=
  updateStats
    (mk st (playerSize st) (V.multiply V.ONE (playerSize st))
        (playerInitialPosition st) V.ZERO (playerAcceleration st)
        0 0 0
        0%nat 0 (playerJumpVelocity st) 0 0 false 0 false 0).

Definition setInAir (t : R) (p : Player) : Player :=
  set_inAirSince t (set_inAir true p).

Definition jump (t : R) (p : Player) : Player :=
  let p := setInAir t p in
  set_velocity (jumpVelocity p) p.

Definition land (p : Player) : Player :=
  set_velocity V.ZERO (set_inAir false p).

Definition resetAltitude (p : Player) : Player :=
  set_position (V.cloneXY (position p)) p.

Definition updateAltitude (t : R) (p : Player) : Player :=
  let airTime := t - inAirSince p in
  set_position
    (mkVect (vx (position p)) (vy (position p))
            (airTime * airTime * vz (acceleration p) / 2
             + airTime * vz (velocity p))) p.

Definition flyTowards (direction : Vect) (dt : R) (p : Player) : Player :=
  set_position
    (V.add (position p) (V.multiply direction (inAirVelocity p * dt))) p.

Definition setOrientation (theta : R) (p : Player) : Player :=
  set_orientation theta p.

Definition beginRotation (t : R) (p : Player) : Player :=
  set_rotation 0 (set_inRotationSince t (set_inRotation true p)).

Definition updateRotation (t : R) (p : Player) : Player :=
  let p := set_inRotation true p in
  set_rotation ((t - inRotationSince p) * rotationAngularVelocity p) p.

Definition endRotation (p : Player) : Player :=
  let p := set_rotation 0 (set_inRotation false p) in
  set_position
    (V.add (position p)
           (V.rotateZ (mkVect (side p) 0 0) (orientation p))) p.

Definition eatPowerUp (t : R) (p : Player) : Player :=
  updateStats (set_level (S (level p)) t p).

Definition getCollisionPath (p : Player) : outcome Path :=
  let s := s p in
  if inRotation p then
    obind (P.new [ V.cloneX s;
                   V.add (V.multiply (V.cloneX s) (SQRT2 / 2))
                         (V.multiply (V.cloneY s) (1 / 2));
                   V.cloneXY s;
                   V.add (V.multiply (V.cloneX s) SQRT2)
                         (V.multiply (V.cloneY s) (1 / 2)) ]) (fun p0 =>
    obind (P.rotateZ p0 (orientation p) (V.multiply s (1 / 2))) (fun p1 =>
    P.translate p1
      (V.substract (position p) (V.multiply (V.cloneXY s) (1 / 2)))))
  else
    obind (P.new [ V.ZERO; V.cloneY s; V.cloneXY s; V.cloneX s ]) (fun p0 =>
    obind (P.rotateZ p0 (orientation p) (V.multiply s (1 / 2))) (fun p1 =>
    P.translate p1
      (V.substract (position p) (V.multiply (V.cloneXY s) (1 / 2))))).

End Player.
(** ** Cells and the world *)

(** [GameCell], [Tile extends GameCell] and [PowerUpTile extends Tile].
    A cell object lives in exactly one place, [tiles[y][x]] with [x] and [y]
    its own coordinates, so a reference to a cell is modelled by that
    place. *)
Inductive Cell : Type :=
  | GameCell
  | Tile
  | PowerUpTile (consumed : bool) (consumedSince : R).

(** [c instanceof Tile]. *)
Definition instanceofTile (c : Cell) : bool :=
  match c with
  | GameCell => false
  | Tile | PowerUpTile _ _ => true
  end.

(** [c instanceof PowerUpTile]. *)
Definition instanceofPowerUpTile (c : Cell) : bool :=
  match c with
  | PowerUpTile _ _ => true
  | _ => false
  end.

(** [this.tiles]: rows indexed by [y], each indexed by [x]. *)
Abbreviation World := (gmap Z (gmap Z Cell)).

(** [y in tiles && x in tiles[y]], with the cell found there. *)
Definition cellAt (tiles : World) (x y : Z) : option Cell :=
  match tiles !! y with
  | Some row => row !! x
  | None => None
  end.

(** [tiles[y][x] = c], for a row [y] that exists. *)
Definition setCell (tiles : World) (x y : Z) (c : Cell) : World :=
  match tiles !! y with
  | Some row => <[y := <[x := c]> row]> tiles
  | None => tiles
  end.

(** ** The world generator *)

Module WorldGenerator.

Record WorldGenerator : Type := mk {
  settings : GameSettings;
  seed : R
}.

Definition isTile (gen : WorldGenerator) (x y : Z) : bool :=
  let x := IZR x in
  let y := IZR y in
  if bool_decide (Rabs (x - y) >= gameWidth (settings gen)) then false
  else
    let z := ((1 + seed gen) * cos (7 * x) + sin (6 * x - y)
              + cos (seed gen * 19 * y)
              + (2 - seed gen) * sin (2 * x + 5 * y)) / 5
             - (y - x) ^ 2 / 25
             + exp (- (x + y) / gameWalkZone (settings gen)) in
    bool_decide (z >= 0).

(** The local function [n] of [isPowerUp]. *)
Definition n (st : GameSettings) (x : R) : R :=
  let a := gameAcceleration st in
  let v0 := gameInitialVelocity st in
  let t0 := gameTimeBetweenPowerUps st in
  (- v0 + pow_half (v0 * v0 + 2 * a * x)) / (a * t0).

Definition isPowerUp (gen : WorldGenerator) (x y : Z) : bool :=
  bool_decide (x = y) && bool_decide (1 <= x)%Z
  && bool_decide (floor (n (settings gen) (IZR x * SQRT2))
                  > floor (n (settings gen) ((IZR x - 1) * SQRT2)))%Z.

(** The three-way classification of [generateWorld]. *)
Definition classify (gen : WorldGenerator) (x y : Z) : Cell :=
  if isPowerUp gen x y then PowerUpTile false 0
  else if isTile gen x y then Tile
  else GameCell.

End WorldGenerator.

(** ** The game *)

Record GameInputs : Type := mkGameInputs {
  direction : Vect;
  jump : bool
}.

Module Game.

Record Game : Type := mk {
  settings : GameSettings;
  t : R;
  score : Z;
  gameOver : bool;
  gameOverAt : R;
  tiles : World;
  generator : WorldGenerator.WorldGenerator;
  player : Player.Player;
  viewportStart : Z;
  viewportEnd : Z;
  cameraPosition : R;
  jumpQueued : bool
}.

Definition set_t (x : R) (g : Game) : Game :=
  mk (settings g) x (score g) (gameOver g) (gameOverAt g) (tiles g)
     (generator g) (player g) (viewportStart g) (viewportEnd g)
     (cameraPosition g) (jumpQueued g).
Definition set_score (x : Z) (g : Game) : Game :=
  mk (settings g) (t g) x (gameOver g) (gameOverAt g) (tiles g)
     (generator g) (player g) (viewportStart g) (viewportEnd g)
     (cameraPosition g) (jumpQueued g).
Definition set_gameOver (b : bool) (at_ : R) (g : Game) : Game :=
  mk (settings g) (t g) (score g) b at_ (tiles g)
     (generator g) (player g) (viewportStart g) (viewportEnd g)
     (cameraPosition g) (jumpQueued g).
Definition set_tiles (w : World) (g : Game) : Game :=
  mk (settings g) (t g) (score g) (gameOver g) (gameOverAt g) w
     (generator g) (player g) (viewportStart g) (viewportEnd g)
     (cameraPosition g) (jumpQueued g).
Definition set_player (p : Player.Player) (g : Game) : Game :=
  mk (settings g) (t g) (score g) (gameOver g) (gameOverAt g) (tiles g)
     (generator g) p (viewportStart g) (viewportEnd g)
     (cameraPosition g) (jumpQueued g).
Definition set_viewport (vstart vend : Z) (g : Game) : Game :=
  mk (settings g) (t g) (score g) (gameOver g) (gameOverAt g) (tiles g)
     (generator g) (player g) vstart vend
     (cameraPosition g) (jumpQueued g).
Definition set_cameraPosition (x : R) (g : Game) : Game :=
  mk (settings g) (t g) (score g) (gameOver g) (gameOverAt g) (tiles g)
     (generator g) (player g) (viewportStart g) (viewportEnd g)
     x (jumpQueued g).
Definition set_jumpQueued (b : bool) (g : Game) : Game :=
  mk (settings g) (t g) (score g) (gameOver g) (gameOverAt g) (tiles g)
     (generator g) (player g) (viewportStart g) (viewportEnd g)
     (cameraPosition g) b.

(** *** [generateWorld (start, end)] *)

(** [for (let i = viewportStart; i < start; i++) delete tiles[i]]. *)
Definition evictRows (vstart start : Z) (tiles : World) : World :=
  foldl (fun w i => delete i w) tiles (seqZ vstart (start - vstart)).

(** The inner loop [for (let x = start; x <= end; x++)] on row [y]. *)
Definition generateRow (gen : WorldGenerator.WorldGenerator)
    (vend start end_ y : Z) (row : gmap Z Cell) : gmap Z Cell :=
  foldl (fun row x =>
           if bool_decide (x < vend)%Z && bool_decide (y < vend)%Z
              || bool_decide (is_Some (row !! x))
           then row
           else <[x := WorldGenerator.classify gen x y]> row)
        row (seqZ start (end_ - start + 1)).

(** The outer loop [for (let y = start; y <= end; y++)]. *)
Definition generateRows (gen : WorldGenerator.WorldGenerator)
    (vend start end_ : Z) (tiles : World) : World :=
  foldl (fun w y =>
           let row := default ∅ (w !! y) in
           <[y := generateRow gen vend start end_ y row]> w)
        tiles (seqZ start (end_ - start + 1)).

Definition generateWorld (start end_ : Z) (g : Game) : Game :=
  let start := Z.max 0 start in
  let w1 :=
    if bool_decide (start > viewportStart g)%Z
    then evictRows (viewportStart g) start (tiles g)
    else tiles g in
  let w2 :=
    if bool_decide (end_ > viewportEnd g)%Z
    then generateRows (generator g) (viewportEnd g) start end_ w1
    else w1 in
  set_viewport start end_ (set_tiles w2 g).

(** *** [new Game (settings, inputs)]

    [seed] is the value drawn by [Math.random ()] in the constructor of
    the generator. *)
Definition new (st : GameSettings) (seed : R) : Game :=
  generateWorld 0 (rendererTilesOnScreen st)
    (mk st 0 0%Z false 0
        {[ 1%Z := {[ 1%Z := Tile ]} ]}
        (WorldGenerator.mk st seed)
        (Player.new st)
        0%Z 0%Z (gameInitialPosition st) false).

End Game.
(** ** The simulation step *)

Module Sim.

Import Game.

(** *** [playerIsOnTheseTiles ()]

    The result lists the places of the cells, in the order of the
    source's [push]es. *)

Definition isTileAt (tiles : World) (x y : Z) : bool :=
  match cellAt tiles x y with
  | Some c => instanceofTile c
  | None => false
  end.

(** The bounding box and the tiles found by the first loop. *)
Record Scan : Type := mkScan {
  left : Z; right : Z; bottom : Z; top : Z;
  theseTiles : list (Z * Z)
}.

Definition scanVertex (tiles : World) (sc : Scan) (vertex : Vect) : Scan :=
  let x := floor (vx vertex) in
  let y := floor (vy vertex) in
  mkScan (Z.min (left sc) x) (Z.max (right sc) x)
         (Z.min (bottom sc) y) (Z.max (top sc) y)
         (if isTileAt tiles x y && bool_decide ((x, y) ∉ theseTiles sc)
          then theseTiles sc ++ [(x, y)]
          else theseTiles sc).

(** The corner of the unit cell at [(x, y)] chosen by the [reduce]. *)
Definition closestCorner (position : Vect) (x y : Z) : Vect :=
  let closer (u v : Vect) : Vect :=
    if bool_decide (V.lengthSquared (V.substract position u)
                    < V.lengthSquared (V.substract position v))
    then u else v in
  foldl closer (mkVect (IZR x) (IZR y) 0)
        [ mkVect (IZR x + 1) (IZR y) 0;
          mkVect (IZR x) (IZR y + 1) 0;
          mkVect (IZR x + 1) (IZR y + 1) 0 ].

(** One iteration of the body of the second, nested loop. *)
Definition scanCell (g : Game) (playerPath : Path)
    (acc : outcome (list (Z * Z))) (xy : Z * Z) : outcome (list (Z * Z)) :=
  obind acc (fun these =>
    let '(x, y) := xy in
    if isTileAt (tiles g) x y then
      let corner := closestCorner (Player.position (player g)) x y in
      if bool_decide ((x, y) ∉ these) then
        obind (Collisions.isPointInPath corner playerPath) (fun inside =>
          Done (if inside then these ++ [(x, y)] else these))
      else Done these
    else Done these).

(** The places visited by the nested loop, row by row. *)
Definition box (sc : Scan) : list (Z * Z) :=
  y ← seqZ (bottom sc) (top sc - bottom sc + 1);
  x ← seqZ (left sc) (right sc - left sc + 1);
  [(x, y)].

Definition playerIsOnTheseTiles (g : Game) : outcome (list (Z * Z)) :=
  obind (Player.getCollisionPath (player g)) (fun playerPath =>
    let v0 := hd V.ZERO (vertices playerPath) in
    let sc0 := mkScan (floor (vx v0)) (floor (vx v0))
                      (floor (vy v0)) (floor (vy v0)) [] in
    let sc := foldl (scanVertex (tiles g)) sc0 (vertices playerPath) in
    foldl (scanCell g playerPath) (Done (theseTiles sc)) (box sc)).

(** *** [getCameraPosition (t)] *)

Definition cameraLaw (st : GameSettings) (t : R) : R :=
  gameAcceleration st / 2 * t * t + gameInitialVelocity st * t
  + gameInitialPosition st.

Definition getCameraPosition (g : Game) (t : R) : R :=
  let st := settings g in
  if negb (gameOver g) || bool_decide (t <= gameOverAt g) then cameraLaw st t
  else
    let v := gameAcceleration st * gameOverAt g + gameInitialVelocity st in
    let a := if bool_decide (rendererFallingAnimationDuration st > 0)
             then - v / rendererFallingAnimationDuration st else 0 in
    let dt := Rmin (rendererFallingAnimationDuration st) (t - gameOverAt g) in
    cameraLaw st (gameOverAt g) + a / 2 * dt * dt + v * dt.

(** *** The state and exception monad of [update]

    A computation reads and writes the game; a [Throw] leaves the game
    as the assignments made before it left it. *)

Definition M (A : Type) : Type := Game -> outcome A * Game.

Definition ret {A} (a : A) : M A := fun g => (Done a, g).

Definition bind {A B} (m : M A) (f : A -> M B) : M B :=
  fun g => match m g with
           | (Done a, g') => f a g'
           | (Throw e, g') => (Throw e, g')
           end.

Definition lift {A} (o : outcome A) : M A := fun g => (o, g).
Definition gets {A} (f : Game -> A) : M A := fun g => (Done (f g), g).
Definition modify (f : Game -> Game) : M unit := fun g => (Done tt, f g).
Definition onPlayer (f : Player.Player -> Player.Player) : M unit :=
  modify (fun g => set_player (f (player g)) g).
Definition when (b : bool) (m : M unit) : M unit := if b then m else ret tt.

Notation "x <-- m ;; k" := (bind m (fun x => k))
  (at level 100, m at next level, right associativity, only parsing).
Notation "m >> k" := (bind m (fun _ => k))
  (at level 100, right associativity, only parsing).

(** *** [update (elapsedTime)], one call without its recursive tail *)

(** The values fixed by the block "Figure out next event". *)
Record Event : Type := mkEvent {
  dtRotation : R;
  dtFalling : R;
  dtOrientation : R;
  orientationClockwise : bool;
  angle : R;
  dt : R
}.

(** [let direction = inputs.direction; if (...) direction = ...]. *)
Definition readDirection (inputs : GameInputs) : outcome Vect :=
  if bool_decide (V.lengthSquared (direction inputs) > 0)
  then V.normalize (direction inputs)
  else Done (direction inputs).

(** "Checking orientation": the delay, the sense of rotation and whether
    the delay is pushed on [dts]. *)
Definition checkOrientation (p : Player.Player) (angle : R)
    : R * bool * bool :=
  if negb (Player.inRotation p)
     && bool_decide (Rabs (fmod (angle - Player.orientation p) (PI / 2))
                     > EPSILON)
  then
    let diff := fmod (Rabs (angle - Player.orientation p)) (PI / 2) in
    let cw0 := bool_decide (angle < Player.orientation p) in
    let dtClockwise := diff / Player.orientationAngularVelocity p in
    let dtCounterclockwise :=
      (PI / 2 - diff) / Player.orientationAngularVelocity p in
    if bool_decide (dtCounterclockwise < dtClockwise)
    then (dtCounterclockwise, negb cw0, true)
    else (dtClockwise, cw0, true)
  else (0, false, false).

Definition nextEvent (direction : Vect) (elapsedTime : R) (g : Game)
    : Event :=
  let p := player g in
  let dtRotation :=
    if Player.inRotation p
    then (PI / 2 - Player.rotation p) / Player.rotationAngularVelocity p
    else 0 in
  let dts1 := if Player.inRotation p then [dtRotation] else [] in
  let dtFalling :=
    if Player.inAir p
    then -2 * vz (Player.velocity p) / vz (Player.acceleration p)
         - (t g - Player.inAirSince p)
    else 0 in
  let dts2 :=
    if Player.inAir p && bool_decide (dtFalling > EPSILON)
    then [dtFalling] else [] in
  let moving := bool_decide (V.lengthSquared direction > 0) in
  let angle := if moving then atan2 (vy direction) (vx direction) else 0 in
  let '(dtOrientation, clockwise, pushed) :=
    if moving then checkOrientation p angle else (0, false, false) in
  let dts3 := if pushed then [dtOrientation] else [] in
  mkEvent dtRotation dtFalling dtOrientation clockwise angle
          (min_list elapsedTime (dts1 ++ dts2 ++ dts3)).

(** "Finishing rotation", "Reaching the ground", "Reaching correct
    orientation". *)
Definition resolveEvent (ev : Event) : M unit :=
  modify (fun g => set_t (t g + dt ev) g) >>
  now <-- gets t ;;
  p <-- gets player ;;
  (if bool_decide (dt ev = dtRotation ev) then onPlayer Player.endRotation
   else when (Player.inRotation p) (onPlayer (Player.updateRotation now))) >>
  p <-- gets player ;;
  (if bool_decide (dt ev = dtFalling ev) then onPlayer Player.resetAltitude
   else when (Player.inAir p) (onPlayer (Player.updateAltitude now))) >>
  when (bool_decide (dt ev = dtOrientation ev))
       (onPlayer (Player.setOrientation (angle ev))).

(** The body of [for (const tile of tiles)]. *)
Definition consume (now : R) (g : Game) (xy : Z * Z) : Game :=
  match cellAt (tiles g) xy.1 xy.2 with
  | Some (PowerUpTile false _) =>
      set_tiles (setCell (tiles g) xy.1 xy.2 (PowerUpTile true now))
                (set_player (Player.eatPowerUp now (player g)) g)
  | _ => g
  end.

(** "We have to check collisions now". *)
Definition checkCollisions : M unit :=
  p <-- gets player ;;
  when (bool_decide (vz (Player.position p) = 0))
    (these <-- (fun g => (playerIsOnTheseTiles g, g)) ;;
     match these with
     | _ :: _ =>
         onPlayer Player.land >>
         p <-- gets player ;;
         now <-- gets t ;;
         when (negb (Player.inRotation p))
              (modify (fun g => foldl (consume now) g these))
     | [] =>
         when (negb (Player.inAir p))
              (now <-- gets t ;; onPlayer (Player.setInAir now))
     end).

(** "Examining inputs". *)
Definition examineInputs (inputs : GameInputs) : M unit :=
  queued <-- gets jumpQueued ;;
  when (jump inputs || queued)
    (p <-- gets player ;;
     if negb (Player.inAir p) && negb (Player.inRotation p) then
       modify (set_jumpQueued false) >>
       now <-- gets t ;;
       onPlayer (Player.jump now)
     else when (negb (Player.inAir p)) (modify (set_jumpQueued true))).

(** "Changing orientation". *)
Definition changeOrientation (direction : Vect) (ev : Event) : M unit :=
  p <-- gets player ;;
  when (bool_decide (V.lengthSquared direction > 0)
        && negb (Player.inRotation p))
    ((if bool_decide (Rabs (fmod (angle ev - Player.orientation p) (PI / 2))
                      < EPSILON)
      then
        onPlayer (Player.setOrientation (angle ev)) >>
        p <-- gets player ;;
        now <-- gets t ;;
        when (negb (Player.inAir p)) (onPlayer (Player.beginRotation now))
      else
        let sign := if orientationClockwise ev then -1 else 1 in
        onPlayer (Player.setOrientation
                    (Player.orientation p
                     + sign * dt ev * Player.orientationAngularVelocity p))) >>
     p <-- gets player ;;
     when (bool_decide (vz (Player.position p) >= 0))
          (onPlayer (Player.flyTowards direction (dt ev)))).

(** The travel axis [new Vect (SQRT2 / 2, SQRT2 / 2, 0)]. *)
Definition axis : Vect := mkVect (SQRT2 / 2) (SQRT2 / 2) 0.

(** "Compute camera position", "Compute score" and "ded?". *)
Definition settle : M unit :=
  modify (fun g => set_cameraPosition (getCameraPosition g (t g)) g) >>
  p <-- gets player ;;
  st <-- gets settings ;;
  let distance := V.dot axis (Player.position p) in
  modify (fun g =>
    set_score
      (Z.max (score g)
             (floor (distance - V.dot axis (playerInitialPosition st)))) g) >>
  g <-- gets (fun g => g) ;;
  when (negb (gameOver g)
        && (bool_decide (distance < cameraPosition g - gameDeathZone st)
            || bool_decide (vz (Player.position p) < - EPSILON)))
       (modify (fun g => set_gameOver true (t g) g)).

(** The body of [update] up to the question "Do we need to compute
    another event?", in two halves: up to "Examining inputs", and from
    there on.  The result is [dt]. *)
Definition untilInputs (inputs : GameInputs) (elapsedTime : R)
    : M (Vect * Event) :=
  direction <-- lift (readDirection inputs) ;;
  ev <-- gets (nextEvent direction elapsedTime) ;;
  resolveEvent ev >>
  checkCollisions >>
  ret (direction, ev).

Definition fromInputs (inputs : GameInputs) (de : Vect * Event) : M R :=
  examineInputs inputs >>
  changeOrientation de.1 de.2 >>
  settle >>
  ret (dt de.2).

Definition step (inputs : GameInputs) (elapsedTime : R) : M R :=
  bind (untilInputs inputs elapsedTime) (fromInputs inputs).

(** [update (elapsedTime)].  The recursion of the source has no bound;
    [fuel] counts the calls allowed, and [None] is the answer of a chain
    of calls that needs more. *)
Fixpoint update (fuel : nat) (inputs : GameInputs) (elapsedTime : R)
    (g : Game) : option (outcome unit * Game) :=
  match fuel with
  | O => None
  | S fuel' =>
      match step inputs elapsedTime g with
      | (Done dt, g') =>
          if bool_decide (elapsedTime - dt > EPSILON)
          then update fuel' inputs (elapsedTime - dt) g'
          else Some (Done tt, g')
      | (Throw e, g') => Some (Throw e, g')
      end
  end.

End Sim.
(** ** Predicates used in the statements *)

Section WindowPredicates.

Import Game.

(** The places a call with far edge [vend] before it leaves alone. *)
Definition skipped (vend x y : Z) : Prop := (x < vend /\ y < vend)%Z.

(** Rows behind the new trailing edge are the ones deleted. *)
Definition evicted (g : Game) (start y : Z) : Prop :=
  (viewportStart g <= y < Z.max 0 start)%Z.

(** Places classified by the call: inside the new window, and not both
    coordinates before the old far edge. *)
Definition generated (g : Game) (start end_ x y : Z) : Prop :=
  (end_ > viewportEnd g)%Z
  /\ (Z.max 0 start <= x <= end_)%Z /\ (Z.max 0 start <= y <= end_)%Z
  /\ ~ skipped (viewportEnd g) x y.

(** Every cell of the world has both coordinates in the window. *)
Definition windowBounded (g : Game) : Prop :=
  forall x y c, cellAt (tiles g) x y = Some c ->
    (viewportStart g <= x <= viewportEnd g)%Z
    /\ (viewportStart g <= y <= viewportEnd g)%Z.

(** No row lies behind the trailing edge, and no coordinate is
    negative. *)
Definition windowInvariant (g : Game) : Prop :=
  (0 <= viewportStart g)%Z
  /\ (forall y, is_Some (tiles g !! y) -> (viewportStart g <= y)%Z)
  /\ (forall x y, is_Some (cellAt (tiles g) x y) -> (0 <= x)%Z).

(** The cell [c'] is the cell [c], or [c] consumed. *)
Definition cellKept (c c' : Cell) : Prop :=
  c' = c
  \/ exists since since',
       c = PowerUpTile false since /\ c' = PowerUpTile true since'.

(** The window and the generator are the same, the world has the same
    rows and the same cells, some of them consumed. *)
Definition worldKept (g g' : Game) : Prop :=
  settings g' = settings g /\ generator g' = generator g
  /\ viewportStart g' = viewportStart g /\ viewportEnd g' = viewportEnd g
  /\ (forall y, is_Some (tiles g' !! y) <-> is_Some (tiles g !! y))
  /\ (forall x y,
        match cellAt (tiles g) x y with
        | Some c => exists c', cellAt (tiles g') x y = Some c' /\ cellKept c c'
        | None => cellAt (tiles g') x y = None
        end).

End WindowPredicates.

(** ** Runs of the game *)

Section Runs.

Import Game Sim.

(** One call made on the game from outside: a window materialisation by
    the renderer, or one call of [update], seen without its recursive
    tail (which is a further call of [update]). *)
Inductive call : Game -> Game -> Prop :=
  | call_generateWorld (g : Game) (start end_ : Z) :
      call g (generateWorld start end_ g)
  | call_update (g : Game) (inputs : GameInputs) (elapsedTime : R) :
      0 <= elapsedTime ->
      call g (step inputs elapsedTime g).2.

(** Any sequence of such calls. *)
Definition run : Game -> Game -> Prop := rtc call.

(** The games met in a run started by [new Game (settings, inputs)]. *)
Definition reachable (st : GameSettings) (g : Game) : Prop :=
  exists seed, 0 <= seed < 1 /\ run (Game.new st seed) g.

(** A computation keeps a relation between the game it starts from and
    the game it leaves, whether it returns or throws. *)
Definition preserves {A} (Rel : Game -> Game -> Prop) (m : M A) : Prop :=
  forall g, Rel g (m g).2.

(** The score does not decrease. *)
Definition scoreGrows (g g' : Game) : Prop := (score g <= score g')%Z.

(** Game over stays, with its time stamp. *)
Definition gameOverStays (g g' : Game) : Prop :=
  gameOver g = true ->
  gameOver g' = true /\ gameOverAt g' = gameOverAt g.

(** Neither the flag nor the time stamp of game over is touched. *)
Definition gameOverKept (g g' : Game) : Prop :=
  gameOver g' = gameOver g /\ gameOverAt g' = gameOverAt g.

End Runs.

(** ** Jumps *)

Section JumpPredicates.

Import Game Sim.

(** [eatPowerUp] changes the level and the speeds only. *)
Definition sameMotion (p p' : Player.Player) : Prop :=
  Player.inAir p' = Player.inAir p
  /\ Player.inAirSince p' = Player.inAirSince p
  /\ Player.inRotation p' = Player.inRotation p
  /\ Player.velocity p' = Player.velocity p
  /\ Player.jumpVelocity p' = Player.jumpVelocity p.




End JumpPredicates.

(** ** Convex footprints *)

Section ConvexPredicates.

(** The signed quantity of the collision test, [normal . (u x w)]. *)
Definition signed (n u w : Vect) : R := V.dot n (V.cross u w).

(** The vertices in cyclic order: the vertex after the last is the
    first. *)
Definition vertexAt (vs : list Vect) (i : nat) : Vect :=
  nth (i mod length vs) vs V.ZERO.

(** The side of the edge from vertex [i] to the next on which [q] lies:
    positive on the inner side of a path wound with its normal. *)
Definition edgeSide (F : Path) (i : nat) (q : Vect) : R :=
  signed (normal F)
    (V.substract (vertexAt (vertices F) (S i)) (vertexAt (vertices F) i))
    (V.substract q (vertexAt (vertices F) i)).

(** A convex path wound with its normal: every vertex that is not an end
    of an edge lies strictly on the inner side of that edge. *)
Definition convexWound (F : Path) : Prop :=
  let len := length (vertices F) in
  (3 <= len)%nat
  /\ forall i j : nat,
       (i < len)%nat -> (j < len)%nat -> j <> i -> j <> S i mod len ->
       0 < edgeSide F i (vertexAt (vertices F) j).

(** Strictly inside: strictly on the inner side of every edge. *)
Definition strictlyInside (p : Vect) (F : Path) : Prop :=
  forall i : nat, (i < length (vertices F))%nat -> 0 < edgeSide F i p.

(** On a vertex or on an edge. *)
Definition onBoundary (p : Vect) (F : Path) : Prop :=
  exists (i : nat) (k : R),
    (i < length (vertices F))%nat /\ 0 <= k <= 1
    /\ p = V.add (vertexAt (vertices F) i)
                 (V.multiply
                    (V.substract (vertexAt (vertices F) (S i))
                                 (vertexAt (vertices F) i)) k).

(** The unit square in the plane z = 0, wound as the footprint of the
    player is. *)
Definition unitSquare : Path :=
  mkPath [ mkVect 0 0 0; mkVect 0 1 0; mkVect 1 1 0; mkVect 1 0 0 ]
         (mkVect 0 0 (-1)).

End ConvexPredicates.

(** ** Measures for the termination of [update] *)

Section Measures.

Import Game Sim.

(** The power-ups of the world that are not consumed yet. *)
Definition unconsumed (c : Cell) : nat :=
  match c with
  | PowerUpTile false _ => 1
  | _ => 0
  end.

Definition sumMap {A} (h : A -> nat) (m : gmap Z A) : nat :=
  map_fold (fun _ a acc => (h a + acc)%nat) 0%nat m.

Definition powerUpsLeft (w : World) : nat := sumMap (sumMap unconsumed) w.

(** The angular velocity that [_updateStats] gives at a level, with the
    default settings, and the time that a quarter turn then takes. *)
Definition angularVelocity (l : nat) : R :=
  Player.statsVelocity defaultSettings l / playerSize defaultSettings * PI / 2.

Definition turnTime (l : nat) : R := PI / 2 / angularVelocity l.

(** The time spent in the quarter turn under way. *)
Definition turned (g : Game) : R :=
  if Player.inRotation (player g)
  then t g - Player.inRotationSince (player g) else 0.

(** What every game met in a run keeps true of the speeds and of the
    quarter turn under way. *)
Definition paceInvariant (g : Game) : Prop :=
  let p := player g in
  Player.settings p = defaultSettings
  /\ Player.side p = playerSize defaultSettings
  /\ Player.rotationAngularVelocity p = angularVelocity (Player.level p)
  /\ Player.orientationAngularVelocity p = angularVelocity (Player.level p)
  /\ (Player.inRotation p = true ->
      0 <= turned g
      /\ Player.rotation p = turned g * angularVelocity (Player.level p)
      /\ Player.rotation p < PI / 2).

(** The heading asked by a direction does not agree with the
    orientation of the player. *)
Definition misaligned (d : Vect) (g : Game) : Z :=
  if bool_decide (V.lengthSquared d > 0
                  /\ Player.orientation (player g) <> atan2 (vy d) (vx d))
  then 1 else 0.

(** A bound on the calls of [update] still to come, for the direction
    [d] read from the inputs and the time [e] left: landings take more
    than [EPSILON] each, quarter turns at least the time they take at
    the highest level that the power-ups left allow, and the orientation
    is reached once. *)
Definition stepsLeft (d : Vect) (e : R) (g : Game) : Z :=
  Zfloor (e / EPSILON)
  + Zfloor ((e + turned g)
            / turnTime (Player.level (player g) + powerUpsLeft (tiles g)))
  + misaligned d g.

End Measures.

(** ** What the blocks of [update] leave alone *)

Section Frames.

Import Game Sim.

(** The time, the tiles, and the fields of the player that the speeds and
    the quarter turn depend on. *)
Definition pace (g : Game) :=
  let p := player g in
  (t g, tiles g, Player.settings p, Player.side p, Player.level p,
   Player.rotationAngularVelocity p, Player.orientationAngularVelocity p,
   Player.orientation p, Player.rotation p, Player.inRotation p,
   Player.inRotationSince p).

(** The same, without the level, the speeds and the tiles, which the
    power-ups change. *)
Definition turn (g : Game) :=
  let p := player g in
  (t g, Player.settings p, Player.side p, Player.orientation p,
   Player.rotation p, Player.inRotation p, Player.inRotationSince p).

(** The speeds are the ones of the level. *)
Definition speedsOfLevel (g : Game) : Prop :=
  let p := player g in
  Player.settings p = defaultSettings
  /\ Player.side p = playerSize defaultSettings
  /\ Player.rotationAngularVelocity p = angularVelocity (Player.level p)
  /\ Player.orientationAngularVelocity p = angularVelocity (Player.level p).

End Frames.
(** ** Further predicates *)

Section PathPredicates.

(** A path as the constructor builds it from its vertices. *)
Definition built (p : Path) : Prop := P.new (vertices p) = Done p.

(** A path after a map of its vertices and a map of its normal. *)
Definition movedPath (f L : Vect -> Vect) (p : Path) : Path :=
  mkPath (map f (vertices p)) (L (normal p)).

(** The rotation of a point about an origin, for a rotation [rot] of
    vectors, as the rotations of [Path] do it. *)
Definition about (rot : Vect -> R -> Vect) (theta : R) (o u : Vect) : Vect :=
  V.add (rot (V.add u (V.multiply o (-1))) theta) o.

End PathPredicates.

Section ColorPredicates.

(** Every component of a colour lies between [lo] and [hi]. *)
Definition within (lo hi : Z) (c : Color.Color) : Prop :=
  (lo <= Color.r c <= hi)%Z /\ (lo <= Color.g c <= hi)%Z
  /\ (lo <= Color.b c <= hi)%Z.

End ColorPredicates.

Section WorldPredicates.

Import Game.

(** Every cell is what the generator says of its place, consumed or not;
    the place (1, 1) may also hold the tile of the constructor. *)
Definition asGenerated (g : Game) : Prop :=
  forall x y c, cellAt (tiles g) x y = Some c ->
    (x = 1%Z /\ y = 1%Z /\ c = Tile)
    \/ cellKept (WorldGenerator.classify (generator g) x y) c.

(** Every place of the window holds a cell. *)
Definition windowFull (g : Game) : Prop :=
  forall x y,
    (viewportStart g <= x <= viewportEnd g)%Z ->
    (viewportStart g <= y <= viewportEnd g)%Z ->
    is_Some (cellAt (tiles g) x y).

End WorldPredicates.

Section PlayerPredicates.

(** The fields of the player that are assigned by the constructor
    only. *)
Definition sameBody (p p' : Player.Player) : Prop :=
  Player.settings p' = Player.settings p
  /\ Player.side p' = Player.side p
  /\ Player.s p' = Player.s p
  /\ Player.acceleration p' = Player.acceleration p
  /\ Player.jumpVelocity p' = Player.jumpVelocity p.

(** Their values for the settings [st]. *)
Definition body (st : GameSettings) (p : Player.Player) : Prop :=
  Player.settings p = st
  /\ Player.side p = playerSize st
  /\ Player.s p = V.multiply V.ONE (playerSize st)
  /\ Player.acceleration p = playerAcceleration st
  /\ Player.jumpVelocity p = playerJumpVelocity st.

(** A player that is not in a quarter turn has no rotation, a player on
    the ground has no velocity, and the velocity of a player in the air
    is the one of a fall or the one of a jump. *)
Definition settled (p : Player.Player) : Prop :=
  (Player.inRotation p = false -> Player.rotation p = 0)
  /\ (Player.inAir p = false -> Player.velocity p = V.ZERO)
  /\ (Player.velocity p = V.ZERO
      \/ Player.velocity p = Player.jumpVelocity p).

(** The level does not decrease. *)
Definition levelGrows (p p' : Player.Player) : Prop :=
  (Player.level p <= Player.level p')%nat.

(** The place and the heading of the player are the same. *)
Definition samePlace (p p' : Player.Player) : Prop :=
  Player.position p' = Player.position p
  /\ Player.orientation p' = Player.orientation p.

(** The three speeds are the ones that [_updateStats] computes from the
    level. *)
Definition statsOfLevel (p : Player.Player) : Prop :=
  let velocity := Player.statsVelocity (Player.settings p) (Player.level p) in
  Player.inAirVelocity p = velocity
  /\ Player.rotationAngularVelocity p = velocity / Player.side p * PI / 2
  /\ Player.orientationAngularVelocity p = Player.rotationAngularVelocity p.

(** A relation between two players, between the players of two games. *)
Definition onPlayers (Q : Player.Player -> Player.Player -> Prop)
    (g g' : Game.Game) : Prop :=
  Q (Game.player g) (Game.player g').

End PlayerPredicates.

Section GamePredicates.

Import Game.

(** The score, the flag of game over with its time stamp and the
    settings are the same. *)
Definition ledgerKept (g g' : Game) : Prop :=
  score g' = score g /\ gameOver g' = gameOver g
  /\ gameOverAt g' = gameOverAt g /\ settings g' = settings g.

End GamePredicates.

(** ** The renderer: what it computes before it draws

    The canvas is outside the model: of the drawing methods, the model
    keeps the numbers they compute, the call they make on the game and
    the order in which the places of a scene are visited.  The width and
    the height of the canvas are given as numbers. *)

(** The fields of [GameSettings] that the renderer reads, beside
    [rendererTilesOnScreen]. *)
Record RendererSettings : Type := mkRendererSettings {
  rendererProjectionMatrix : Matrix.Matrix;
  rendererInvertedProjectionMatrix : Matrix.Matrix;
  rendererTileHeight : R;
  rendererLightDirection : Vect;
  rendererDarkColor : Color.Color;
  rendererLightColor : Color.Color;
  rendererBrightness : R
}.

(** The values assigned by the constructor of [GameSettings]; the light
    direction is the one that [new Vect (-1, -3, -4).normalize ()]
    returns, and the two colours are the ones that [Color.fromHex]
    returns for ['#000'] and ['#fff']. *)
Definition defaultRendererSettings : RendererSettings := {|
  rendererProjectionMatrix :=
    Matrix.mk (mkVect (SQRT3 / 2) (-1 / 2) 0)
              (mkVect (- SQRT3 / 2) (-1 / 2) 0)
              (mkVect 0 (-1) 0);
  rendererInvertedProjectionMatrix :=
    Matrix.mk (mkVect (SQRT3 / 3) (- SQRT3 / 3) 0)
              (mkVect (-1) (-1) 0)
              V.ZERO;
  rendererTileHeight := 2;
  rendererLightDirection :=
    V.multiply (mkVect (-1) (-3) (-4)) (1 / V.length (mkVect (-1) (-3) (-4)));
  rendererDarkColor := Color.mk 0 0 0;
  rendererLightColor := Color.mk 255 255 255;
  rendererBrightness := 0.2
|}.

Module GameRenderer.

(** [_projectionMatrix ()], for a canvas of height [height]. *)
Definition projectionMatrix (st : GameSettings) (rs : RendererSettings)
    (height : R) : Matrix.Matrix :=
  Matrix.multiply (rendererProjectionMatrix rs)
    (height
     / (- (vy (Matrix.u (rendererProjectionMatrix rs))
           + vy (Matrix.v (rendererProjectionMatrix rs)))
        * IZR (rendererTilesOnScreen st))).

(** [_invertedProjectionMatrix ()]. *)
Definition invertedProjectionMatrix (st : GameSettings)
    (rs : RendererSettings) (height : R) : Matrix.Matrix :=
  Matrix.multiply (rendererInvertedProjectionMatrix rs)
    (- (vy (Matrix.u (rendererProjectionMatrix rs))
        + vy (Matrix.v (rendererProjectionMatrix rs)))
     * IZR (rendererTilesOnScreen st)
     / height).

(** The [start] and the [end] that [directDraw ()] computes for a canvas
    of [screenWidth] by [screenHeight] and a camera position. *)
Definition viewWindow (st : GameSettings) (rs : RendererSettings)
    (screenWidth screenHeight cameraPosition : R) : Z * Z :=
  let m3 := projectionMatrix st rs screenHeight in
  let mm3 := invertedProjectionMatrix st rs screenHeight in
  let origin :=
    V.add (mkVect (screenWidth / 2) screenHeight 0)
          (Matrix.product m3
             (V.multiply (mkVect (SQRT2 / 2) (SQRT2 / 2) 0)
                         (- cameraPosition))) in
  let topRight :=
    Matrix.product mm3 (V.substract (mkVect screenWidth 0 0) origin) in
  let bottomLeft :=
    Matrix.product mm3 (V.substract (mkVect 0 screenHeight 0) origin) in
  (floor (vx bottomLeft), Zceil (vx topRight)).

(** What [directDraw ()] does to the game: the call of
    [generateWorld]. *)
Definition directDraw (rs : RendererSettings)
    (screenWidth screenHeight : R) (g : Game.Game) : Game.Game :=
  let '(start, end_) :=
    viewWindow (Game.settings g) rs screenWidth screenHeight
               (Game.cameraPosition g) in
  Game.generateWorld start end_ g.

End GameRenderer.

Module GameSceneDrawer.


(** The places [(x, y)] visited by the two loops of [drawScene], in
    their order, for a scene from [start] to [end_]. *)
Definition sceneOrder (start end_ : Z) : list (Z * Z) :=
  let len := (end_ - start + 1)%Z in
  i ← seqZ 0 (2 * len - 1);
  j ← seqZ (Z.max 0 (i - len + 1))
           (Z.min i (len - 1) - Z.max 0 (i - len + 1) + 1);
  [((len - j - 1 + start)%Z, (len - (i - j) - 1 + start)%Z)].

End GameSceneDrawer.

(** A place is at least as far from the viewer as another: the sum of
    its coordinates is at least the sum of the other's. *)
Definition behind (a b : Z * Z) : Prop := (b.1 + b.2 <= a.1 + a.2)%Z.

(** ** Vectors: normalisation *)

Lemma lengthSquared_nonneg (v : Vect) : 0 <= V.lengthSquared v.
Proof. unfold V.lengthSquared, V.dot. nra. Qed.

Lemma length_nonneg (v : Vect) : 0 <= V.length v.
Proof. apply sqrt_pos. Qed.

Lemma length_sqr (v : Vect) : V.length v * V.length v = V.lengthSquared v.
Proof. apply sqrt_sqrt, lengthSquared_nonneg. Qed.

Lemma length_multiply (v : Vect) (k : R) :
  0 <= k -> V.length (V.multiply v k) = k * V.length v.
Proof.
  intros Hk. unfold V.length, pow_half.
  replace (V.lengthSquared (V.multiply v k)) with (k * k * V.lengthSquared v)
    by (unfold V.lengthSquared, V.dot; simpl; ring).
  rewrite sqrt_mult_alt by nra.
  now rewrite sqrt_square.
Qed.

(** C8. [normalize] throws exactly when the length of the vector is zero;
    on every other vector it returns a vector whose length is exactly 1. *)
Theorem normalize_spec (v : Vect) :
  (V.normalize v = Throw ZeroVector <-> V.length v = 0) /\
  (V.length v <> 0 ->
   exists u, V.normalize v = Done u /\ V.length u = 1).
Proof.
  unfold V.normalize. split.
  - case_bool_decide; split; intros; try done.
  - intros Hl. rewrite bool_decide_false by done.
    eexists. split; [reflexivity|].
    pose proof (length_nonneg v) as Hpos.
    rewrite length_multiply.
    + field. done.
    + apply Rlt_le. apply Rdiv_pos_pos; lra.
Qed.

Lemma normalize_spec_witness :
  V.length (mkVect 3 0 4) <> 0 /\
  exists u, V.normalize (mkVect 3 0 4) = Done u /\ V.length u = 1.
Proof.
  assert (H : V.length (mkVect 3 0 4) <> 0).
  { unfold V.length, pow_half, V.lengthSquared, V.dot. simpl.
    replace (3 * 3 + 0 * 0 + 4 * 4) with (5 * 5) by ring.
    rewrite sqrt_square; lra. }
  split; [exact H|].
  exact (proj2 (normalize_spec (mkVect 3 0 4)) H).
Defined.
(** ** The world: what [generateWorld] does to each place *)

(** Case analysis on a decision of the goal. *)
Ltac bcase P H :=
  destruct (decide P) as [H|H];
  [rewrite (bool_decide_true P H) | rewrite (bool_decide_false P H)].

Section GenerateWorld.

Import Game.

Lemma evictRows_lookup (vstart start y : Z) (w : World) :
  evictRows vstart start w !! y
  = if bool_decide (vstart <= y < start)%Z then None else w !! y.
Proof.
  unfold evictRows.
  assert (Hl : forall (l : list Z) (w : World),
             foldl (fun w i => delete i w) w l !! y
             = if bool_decide (y ∈ l) then None else w !! y).
  { induction l as [|i l IH]; intros w0; cbn [foldl].
    - rewrite bool_decide_false; [done | apply not_elem_of_nil].
    - rewrite IH. destruct (decide (y = i)) as [->|Hne].
      + rewrite (bool_decide_true (i ∈ i :: l)) by apply list_elem_of_here.
        case_bool_decide; [done | apply lookup_delete_eq].
      + rewrite lookup_delete_ne by done.
        apply (f_equal (fun b : bool => if b then None else w0 !! y)).
        apply bool_decide_ext. rewrite elem_of_cons. tauto. }
  rewrite Hl. apply (f_equal (fun b : bool => if b then None else w !! y)).
  apply bool_decide_ext. rewrite elem_of_seqZ. lia.
Qed.

Lemma generateRow_lookup gen (vend start end_ y x : Z) (row : gmap Z Cell) :
  generateRow gen vend start end_ y row !! x
  = match row !! x with
    | Some c => Some c
    | None =>
        if bool_decide ((start <= x <= end_)%Z /\ ~ skipped vend x y)
        then Some (WorldGenerator.classify gen x y)
        else None
    end.
Proof.
  unfold generateRow.
  assert (Hl : forall (l : list Z) (row : gmap Z Cell),
             foldl (fun row x =>
                      if bool_decide (x < vend)%Z && bool_decide (y < vend)%Z
                         || bool_decide (is_Some (row !! x))
                      then row
                      else <[x := WorldGenerator.classify gen x y]> row) row l
               !! x
             = match row !! x with
               | Some c => Some c
               | None =>
                   if bool_decide (x ∈ l /\ ~ skipped vend x y)
                   then Some (WorldGenerator.classify gen x y)
                   else None
               end).
  { induction l as [|i l IH]; intros r; cbn [foldl].
    - destruct (r !! x); [done|].
      rewrite bool_decide_false; [done|]. intros [H _]. by apply not_elem_of_nil in H.
    - rewrite IH. clear IH.
      destruct (bool_decide (i < vend)%Z && bool_decide (y < vend)%Z
                || bool_decide (is_Some (r !! i))) eqn:Hskip.
      + destruct (r !! x) eqn:Hx; [done|].
        apply (f_equal (fun b : bool =>
                 if b then Some (WorldGenerator.classify gen x y) else None)).
        apply bool_decide_ext. rewrite elem_of_cons.
        split; [tauto|]. intros [[->|H] Hns]; [|tauto]. exfalso.
        apply orb_true_iff in Hskip as [Hs|Hs].
        * apply andb_true_iff in Hs as [H1 H2].
          apply bool_decide_eq_true in H1, H2. by apply Hns.
        * apply bool_decide_eq_true in Hs. rewrite Hx in Hs. by destruct Hs.
      + apply orb_false_iff in Hskip as [Hs1 Hs2].
        apply bool_decide_eq_false in Hs2.
        destruct (decide (x = i)) as [->|Hne].
        * rewrite lookup_insert_eq.
          destruct (r !! i) eqn:Hi; [by destruct Hs2; eauto|].
          rewrite bool_decide_true; [done|]. split; [apply list_elem_of_here|].
          intros [H1 H2]. apply andb_false_iff in Hs1 as [H|H];
            apply bool_decide_eq_false in H; lia.
        * rewrite lookup_insert_ne by done.
          destruct (r !! x); [done|].
          apply (f_equal (fun b : bool =>
                   if b then Some (WorldGenerator.classify gen x y) else None)).
          apply bool_decide_ext. rewrite elem_of_cons.
          split; [intros [? ?]; eauto | intros [[?|?] ?]; [congruence | done]]. }
  rewrite Hl. destruct (row !! x); [done|].
  apply (f_equal (fun b : bool =>
           if b then Some (WorldGenerator.classify gen x y) else None)).
  apply bool_decide_ext. rewrite elem_of_seqZ. unfold skipped. lia.
Qed.

Lemma generateRows_lookup gen (vend start end_ y : Z) (w : World) :
  generateRows gen vend start end_ w !! y
  = if bool_decide (start <= y <= end_)%Z
    then Some (generateRow gen vend start end_ y (default ∅ (w !! y)))
    else w !! y.
Proof.
  unfold generateRows.
  assert (Hl : forall (l : list Z) (w : World), NoDup l ->
             foldl (fun w y =>
                      <[y := generateRow gen vend start end_ y
                               (default ∅ (w !! y))]> w) w l !! y
             = if bool_decide (y ∈ l)
               then Some (generateRow gen vend start end_ y (default ∅ (w !! y)))
               else w !! y).
  { induction l as [|i l IH]; intros w0 Hnd; cbn [foldl].
    - rewrite bool_decide_false; [done | apply not_elem_of_nil].
    - apply NoDup_cons in Hnd as [Hi Hnd]. rewrite IH by done.
      destruct (decide (y = i)) as [->|Hne].
      + rewrite (bool_decide_false (i ∈ l)) by done.
        rewrite (bool_decide_true (i ∈ i :: l)) by apply list_elem_of_here.
        apply lookup_insert_eq.
      + rewrite lookup_insert_ne by done.
        destruct (decide (y ∈ l)) as [Hin|Hnin].
        * rewrite !bool_decide_true; [done| |done]. by apply list_elem_of_further.
        * rewrite !bool_decide_false; [done| |done].
          rewrite elem_of_cons. tauto. }
  rewrite Hl by apply NoDup_seqZ.
  apply (f_equal (fun b : bool =>
           if b then Some (generateRow gen vend start end_ y (default ∅ (w !! y)))
           else w !! y)).
  apply bool_decide_ext. rewrite elem_of_seqZ. lia.
Qed.

Lemma generateWorld_tiles (g : Game) (start end_ : Z) :
  tiles (generateWorld start end_ g)
  = let s := Z.max 0 start in
    let w1 := if bool_decide (s > viewportStart g)%Z
              then evictRows (viewportStart g) s (tiles g) else tiles g in
    if bool_decide (end_ > viewportEnd g)%Z
    then generateRows (generator g) (viewportEnd g) s end_ w1 else w1.
Proof. reflexivity. Qed.

Lemma generateWorld_row (g : Game) (start end_ y : Z) :
  is_Some (tiles (generateWorld start end_ g) !! y)
  <-> (is_Some (tiles g !! y) /\ ~ evicted g start y)
      \/ ((end_ > viewportEnd g)%Z /\ (Z.max 0 start <= y <= end_)%Z).
Proof.
  rewrite generateWorld_tiles. unfold evicted. cbv zeta.
  set (s := Z.max 0 start).
  set (w1 := if bool_decide (s > viewportStart g)%Z
             then evictRows (viewportStart g) s (tiles g) else tiles g).
  assert (Hw1 : w1 !! y
                = if bool_decide (viewportStart g <= y < s)%Z
                  then None else tiles g !! y).
  { unfold w1. case_bool_decide.
    - apply evictRows_lookup.
    - rewrite bool_decide_false; [done | lia]. }
  assert (Hnone : is_Some (w1 !! y)
                  <-> is_Some (tiles g !! y) /\ ~ (viewportStart g <= y < s)%Z).
  { rewrite Hw1. bcase (viewportStart g <= y < s)%Z Hv; split.
    - by intros [? ?].
    - tauto.
    - tauto.
    - tauto. }
  destruct (decide (end_ > viewportEnd g)%Z) as [He|He].
  - rewrite (bool_decide_true _ He), generateRows_lookup.
    bcase (s <= y <= end_)%Z Hy.
    + split; [intros _; right; lia | eauto].
    + rewrite Hnone. split; [tauto|]. intros [H'|H']; [done | lia].
  - rewrite (bool_decide_false _ He), Hnone.
    split; [tauto|]. intros [H'|H']; [done | lia].
Qed.

Lemma generateWorld_cellAt (g : Game) (start end_ x y : Z) :
  cellAt (tiles (generateWorld start end_ g)) x y
  = match (if bool_decide (evicted g start y) then None
           else cellAt (tiles g) x y) with
    | Some c => Some c
    | None =>
        if bool_decide (generated g start end_ x y)
        then Some (WorldGenerator.classify (generator g) x y)
        else None
    end.
Proof.
  unfold cellAt. rewrite generateWorld_tiles. unfold evicted, generated.
  cbv zeta.
  set (s := Z.max 0 start).
  set (w1 := if bool_decide (s > viewportStart g)%Z
             then evictRows (viewportStart g) s (tiles g) else tiles g).
  assert (Hw1 : w1 !! y
                = if bool_decide (viewportStart g <= y < s)%Z
                  then None else tiles g !! y).
  { unfold w1. case_bool_decide.
    - apply evictRows_lookup.
    - rewrite bool_decide_false; [done | lia]. }
  assert (Hold : match w1 !! y with Some row => row !! x | None => None end
                 = if bool_decide (viewportStart g <= y < s)%Z then None
                   else match tiles g !! y with
                        | Some row => row !! x
                        | None => None
                        end).
  { rewrite Hw1. by bcase (viewportStart g <= y < s)%Z Hv. }
  destruct (decide (end_ > viewportEnd g)%Z) as [He|He].
  - rewrite (bool_decide_true _ He), generateRows_lookup.
    bcase (s <= y <= end_)%Z Hy.
    + rewrite generateRow_lookup, Hw1.
      rewrite (bool_decide_false (viewportStart g <= y < s)%Z) by lia.
      destruct (tiles g !! y) as [row|] eqn:Hrow; simpl.
      * destruct (row !! x); [done|].
        apply (f_equal (fun b : bool =>
          if b then Some (WorldGenerator.classify (generator g) x y) else None)).
        apply bool_decide_ext. tauto.
      * rewrite lookup_empty.
        apply (f_equal (fun b : bool =>
          if b then Some (WorldGenerator.classify (generator g) x y) else None)).
        apply bool_decide_ext. tauto.
    + rewrite Hold.
      rewrite (bool_decide_false (_ /\ _ /\ _ /\ _)) by tauto.
      bcase (viewportStart g <= y < s)%Z Hv; [done|].
      destruct (tiles g !! y) as [row|]; [|done]. by destruct (row !! x).
  - rewrite (bool_decide_false _ He), Hold.
    rewrite (bool_decide_false (_ /\ _ /\ _ /\ _)) by tauto.
    bcase (viewportStart g <= y < s)%Z Hv; [done|].
    destruct (tiles g !! y) as [row|]; [|done]. by destruct (row !! x).
Qed.

End GenerateWorld.
(** ** Relations kept by the computations of [update] *)

Section Preserves.

Import Game Sim.

Context (Rel : Game -> Game -> Prop) `{!PreOrder Rel}.

Lemma preserves_ret {A} (a : A) : preserves Rel (ret a).
Proof. intros g. reflexivity. Qed.

Lemma preserves_lift {A} (o : outcome A) : preserves Rel (lift o).
Proof. intros g. reflexivity. Qed.

Lemma preserves_gets {A} (f : Game -> A) : preserves Rel (gets f).
Proof. intros g. reflexivity. Qed.

Lemma preserves_read {A} (f : Game -> outcome A) :
  preserves Rel (fun g => (f g, g)).
Proof. intros g. reflexivity. Qed.

Lemma preserves_modify (f : Game -> Game) :
  (forall g, Rel g (f g)) -> preserves Rel (modify f).
Proof. intros H g. apply H. Qed.

Lemma preserves_bind {A B} (m : M A) (f : A -> M B) :
  preserves Rel m -> (forall a, preserves Rel (f a)) ->
  preserves Rel (bind m f).
Proof.
  intros Hm Hf g. unfold bind.
  specialize (Hm g). destruct (m g) as [[a|e] g']; simpl in *.
  - etransitivity; [exact Hm | apply Hf].
  - exact Hm.
Qed.

Lemma preserves_when (b : bool) (m : M unit) :
  preserves Rel m -> preserves Rel (when b m).
Proof. intros Hm. destruct b; [exact Hm | apply preserves_ret]. Qed.

(** When every assignment to the player, to the tiles and to the other
    fields keeps the relation, so does each block of [update]. *)
Hypothesis Rel_player : forall f g, Rel g (set_player (f (player g)) g).
Hypothesis Rel_t : forall x g, Rel g (set_t x g).
Hypothesis Rel_jumpQueued : forall b g, Rel g (set_jumpQueued b g).
Hypothesis Rel_cameraPosition : forall x g, Rel g (set_cameraPosition x g).
Hypothesis Rel_consume : forall now g xy, Rel g (consume now g xy).
Hypothesis Rel_score :
  forall x g, Rel g (set_score (Z.max (score g) x) g).
Hypothesis Rel_gameOver :
  forall g, gameOver g = false -> Rel g (set_gameOver true (t g) g).

Lemma preserves_onPlayer f : preserves Rel (onPlayer f).
Proof. apply preserves_modify. intros g. apply Rel_player. Qed.

Lemma Rel_consumeAll now these g : Rel g (foldl (consume now) g these).
Proof.
  revert g. induction these as [|xy these IH]; intros g; simpl.
  - reflexivity.
  - etransitivity; [apply Rel_consume | apply IH].
Qed.

Lemma preserves_resolveEvent ev : preserves Rel (resolveEvent ev).
Proof.
  unfold resolveEvent.
  repeat first
    [ apply preserves_bind; [|intros ?]
    | apply preserves_gets
    | apply preserves_when
    | apply preserves_onPlayer
    | apply preserves_modify; intros ?; apply Rel_t
    | match goal with
      | |- preserves _ (if ?b then _ else _) => destruct b
      end ].
Qed.

Lemma preserves_checkCollisions : preserves Rel checkCollisions.
Proof.
  unfold checkCollisions.
  repeat first
    [ apply preserves_bind; [|intros ?]
    | apply preserves_gets
    | apply preserves_read
    | apply preserves_when
    | apply preserves_onPlayer
    | apply preserves_modify; intros ?; apply Rel_consumeAll
    | match goal with
      | |- preserves _ (match ?x with _ => _ end) => destruct x
      end ].
Qed.

Lemma preserves_examineInputs inputs : preserves Rel (examineInputs inputs).
Proof.
  unfold examineInputs.
  repeat first
    [ apply preserves_bind; [|intros ?]
    | apply preserves_gets
    | apply preserves_when
    | apply preserves_onPlayer
    | apply preserves_modify; intros ?; apply Rel_jumpQueued
    | match goal with
      | |- preserves _ (if ?b then _ else _) => destruct b
      end ].
Qed.

Lemma preserves_changeOrientation d ev :
  preserves Rel (changeOrientation d ev).
Proof.
  unfold changeOrientation.
  repeat first
    [ apply preserves_bind; [|intros ?]
    | apply preserves_gets
    | apply preserves_when
    | apply preserves_onPlayer
    | match goal with
      | |- preserves _ (if ?b then _ else _) => destruct b
      end ].
Qed.

Lemma preserves_untilInputs inputs elapsedTime :
  preserves Rel (untilInputs inputs elapsedTime).
Proof.
  unfold untilInputs.
  repeat first
    [ apply preserves_resolveEvent
    | apply preserves_checkCollisions
    | apply preserves_gets
    | apply preserves_lift
    | apply preserves_ret
    | apply preserves_bind; [|intros ?] ].
Qed.

Lemma preserves_settle : preserves Rel settle.
Proof.
  intros g. unfold settle, bind, modify, gets, when, ret. cbn [fst snd].
  match goal with
  | |- Rel _ ((if ?c then _ else _) _).2 => destruct c eqn:Hc
  end; cbn [snd].
  - apply andb_true_iff in Hc as [Hc _]. apply negb_true_iff in Hc.
    etransitivity; [apply Rel_cameraPosition|].
    etransitivity; [apply Rel_score|].
    apply Rel_gameOver. exact Hc.
  - etransitivity; [apply Rel_cameraPosition|]. apply Rel_score.
Qed.

Lemma preserves_fromInputs inputs de : preserves Rel (fromInputs inputs de).
Proof.
  unfold fromInputs.
  repeat first
    [ apply preserves_examineInputs
    | apply preserves_changeOrientation
    | apply preserves_settle
    | apply preserves_ret
    | apply preserves_bind; [|intros ?] ].
Qed.

Lemma preserves_step inputs elapsedTime :
  preserves Rel (step inputs elapsedTime).
Proof.
  apply preserves_bind.
  - apply preserves_untilInputs.
  - intros de. apply preserves_fromInputs.
Qed.

End Preserves.

(** ** Score and game over along a run *)

Section ScoreAndGameOver.

Import Game Sim.

#[local] Instance scoreGrows_preorder : PreOrder scoreGrows.
Proof. split; unfold scoreGrows; [intros g | intros g1 g2 g3]; lia. Qed.

#[local] Instance gameOverStays_preorder : PreOrder gameOverStays.
Proof.
  split; unfold gameOverStays; [intros g | intros g1 g2 g3]; [done|].
  intros H12 H23 H1. destruct (H12 H1) as [H2 E2].
  destruct (H23 H2) as [H3 E3]. split; congruence.
Qed.

#[local] Instance gameOverKept_preorder : PreOrder gameOverKept.
Proof.
  split; unfold gameOverKept; [intros g | intros g1 g2 g3]; [done|].
  intros [? ?] [? ?]. split; congruence.
Qed.

(** [consume] assigns to the tiles and to the player only. *)
Lemma consume_fields now g xy :
  exists w p, consume now g xy = set_tiles w (set_player p g).
Proof.
  unfold consume.
  destruct (cellAt (tiles g) xy.1 xy.2) as [[| |[] since]|]; eauto;
    exists (tiles g), (player g); by destruct g.
Qed.

Lemma step_scoreGrows inputs elapsedTime :
  preserves scoreGrows (step inputs elapsedTime).
Proof.
  apply preserves_step; try apply _; unfold scoreGrows; intros; simpl; try lia.
  destruct (consume_fields now g xy) as (w & p & ->). simpl. lia.
Qed.

Lemma step_gameOverStays inputs elapsedTime :
  preserves gameOverStays (step inputs elapsedTime).
Proof.
  apply preserves_step; try apply _; unfold gameOverStays; intros; simpl;
    try done.
  - destruct (consume_fields now g xy) as (w & p & ->). done.
  - congruence.
Qed.

Lemma generateWorld_fields start end_ g :
  exists w vs ve, generateWorld start end_ g = set_viewport vs ve (set_tiles w g).
Proof. unfold generateWorld. eauto. Qed.

Lemma run_preserved (Rel : Game -> Game -> Prop) `{!PreOrder Rel} :
  (forall g start end_, Rel g (generateWorld start end_ g)) ->
  (forall inputs elapsedTime, preserves Rel (step inputs elapsedTime)) ->
  forall g g', run g g' -> Rel g g'.
Proof.
  intros Hgen Hstep g g' Hrun. induction Hrun as [g|g1 g2 g3 Hcall _ IH].
  - reflexivity.
  - etransitivity; [|exact IH]. destruct Hcall; [apply Hgen | apply Hstep].
Qed.

(** A chain of calls of [update] that returns is a run. *)
Lemma update_run fuel inputs elapsedTime g o g' :
  0 <= elapsedTime ->
  update fuel inputs elapsedTime g = Some (o, g') -> run g g'.
Proof.
  revert elapsedTime g. induction fuel as [|fuel IH]; intros e g He; [done|].
  cbn [update]. pose proof (call_update g inputs e He) as Hcall.
  destruct (step inputs e g) as [[dt|err] g1]; simpl in Hcall.
  - case_bool_decide as Hmore.
    + intros Hup. eapply rtc_l; [exact Hcall|].
      apply (IH (e - dt) g1); [|exact Hup]. unfold EPSILON in Hmore. lra.
    + intros [= <- <-]. by apply rtc_once.
  - intros [= <- <-]. by apply rtc_once.
Qed.

(** C7. The score never decreases: not along any sequence of calls of
    [update] (with any inputs and non-negative elapsed times) and of
    [generateWorld], and so not across a chain of calls of [update] that
    returns or throws. *)
Theorem score_never_decreases :
  (forall g g', run g g' -> (score g <= score g')%Z) /\
  (forall fuel inputs elapsedTime g o g',
     0 <= elapsedTime ->
     update fuel inputs elapsedTime g = Some (o, g') ->
     (score g <= score g')%Z).
Proof.
  assert (Hrun : forall g g', run g g' -> scoreGrows g g').
  { apply run_preserved; [apply _| |apply step_scoreGrows].
    intros g start end_. unfold scoreGrows. simpl. lia. }
  split; [exact Hrun|].
  intros fuel inputs e g o g' He Hup. apply Hrun. by eapply update_run.
Qed.

Lemma score_never_decreases_witness :
  let g := Game.new defaultSettings 0 in
  let g' := (step (mkGameInputs (mkVect 1 1 0) true) 1 g).2 in
  run g g' /\ (score g <= score g')%Z.
Proof.
  intros g g'.
  assert (H : run g g') by (apply rtc_once, call_update; lra).
  split; [exact H|]. exact (proj1 score_never_decreases g g' H).
Defined.

(** What [settle] does to the flag of game over. *)
Lemma settle_gameOver g :
  gameOver g = false -> gameOver (settle g).2 = true ->
  gameOverAt (settle g).2 = t (settle g).2.
Proof.
  unfold settle, bind, modify, gets, when, ret. cbn [fst snd].
  match goal with
  | |- _ -> gameOver ((if ?c then _ else _) _).2 = _ -> _ => destruct c
  end; cbn [snd]; simpl; [done | congruence].
Qed.

(** Up to the block [settle], a call of [update] leaves the flag and its
    time stamp alone. *)
Lemma step_until_settle inputs elapsedTime g :
  gameOver g = false ->
  gameOver (step inputs elapsedTime g).2 = false
  \/ exists g3, gameOver g3 = false
                /\ (step inputs elapsedTime g).2 = (settle g3).2.
Proof.
  intros Hg.
  cut (exists g', (step inputs elapsedTime g).2 = g'
                  /\ (gameOver g' = false
                      \/ exists g3, gameOver g3 = false /\ g' = (settle g3).2)).
  { intros (g' & -> & H). exact H. }
  assert (Hkept : forall {A} (m : M A), preserves gameOverKept m ->
            forall g1, gameOver g1 = false -> gameOver (m g1).2 = false).
  { intros A m Hm g1 H1. destruct (Hm g1) as [H _]. congruence. }
  assert (Hleaf1 : forall f g, gameOverKept g (set_player (f (player g)) g)) by done.
  assert (Hleaf2 : forall x g, gameOverKept g (set_t x g)) by done.
  assert (Hleaf3 : forall b g, gameOverKept g (set_jumpQueued b g)) by done.
  assert (Hleaf4 : forall now g xy, gameOverKept g (consume now g xy)).
  { intros now g0 xy. destruct (consume_fields now g0 xy) as (w & p & ->). done. }
  unfold step, bind at 1.
  pose proof (Hkept _ _ (preserves_untilInputs gameOverKept Hleaf1 Hleaf2 Hleaf4
                           inputs elapsedTime) g Hg) as H1.
  destruct (untilInputs inputs elapsedTime g) as [[de|e] g1]; simpl in H1;
    [|eexists; split; [reflexivity | left; simpl; assumption]].
  unfold fromInputs, bind at 1.
  pose proof (Hkept _ _ (preserves_examineInputs gameOverKept Hleaf1 Hleaf3
                           inputs) g1 H1) as H2.
  destruct (examineInputs inputs g1) as [[[]|e] g2]; simpl in H2;
    [|eexists; split; [reflexivity | left; simpl; assumption]].
  unfold bind at 1.
  pose proof (Hkept _ _ (preserves_changeOrientation gameOverKept Hleaf1
                           de.1 de.2) g2 H2) as H3.
  destruct (changeOrientation de.1 de.2 g2) as [[[]|e] g3]; simpl in H3;
    [|eexists; split; [reflexivity | left; simpl; assumption]].
  eexists; split; [reflexivity|]. right. exists g3. split; [done|].
  unfold bind at 1. by destruct (settle g3) as [[[]|e] g4].
Qed.

Lemma step_gameOver_stamp inputs elapsedTime g :
  gameOver g = false ->
  gameOver (step inputs elapsedTime g).2 = true ->
  gameOverAt (step inputs elapsedTime g).2 = t (step inputs elapsedTime g).2.
Proof.
  intros Hg. destruct (step_until_settle inputs elapsedTime g Hg)
    as [H|(g3 & H3 & ->)]; [congruence|].
  by apply settle_gameOver.
Qed.

(** C6. Game over is a one-way transition: along any sequence of calls
    of [update] and [generateWorld], once the flag is true it stays true
    and its time stamp is never written again; and the call of [update]
    that raises the flag stamps it with the time it has reached. *)
Theorem gameOver_one_way :
  (forall g g', run g g' -> gameOver g = true ->
     gameOver g' = true /\ gameOverAt g' = gameOverAt g) /\
  (forall inputs elapsedTime g,
     gameOver g = false ->
     gameOver (step inputs elapsedTime g).2 = true ->
     gameOverAt (step inputs elapsedTime g).2
     = t (step inputs elapsedTime g).2) /\
  (forall fuel inputs elapsedTime g o g',
     0 <= elapsedTime ->
     update fuel inputs elapsedTime g = Some (o, g') ->
     gameOver g = true ->
     gameOver g' = true /\ gameOverAt g' = gameOverAt g).
Proof.
  assert (Hrun : forall g g', run g g' -> gameOverStays g g').
  { apply run_preserved; [apply _| |apply step_gameOverStays].
    intros g start end_. unfold gameOverStays. simpl. done. }
  split; [exact Hrun|]. split; [apply step_gameOver_stamp|].
  intros fuel inputs e g o g' He Hup. apply Hrun. by eapply update_run.
Qed.

Lemma gameOver_one_way_witness :
  let g := set_gameOver true 3 (Game.new defaultSettings 0) in
  let g' := (step (mkGameInputs V.ZERO false) 1 g).2 in
  run g g' /\ gameOver g = true
  /\ gameOver g' = true /\ gameOverAt g' = gameOverAt g.
Proof.
  intros g g'.
  assert (H : run g g') by (apply rtc_once, call_update; lra).
  split; [exact H|]. split; [reflexivity|].
  exact (proj1 gameOver_one_way g g' H eq_refl).
Defined.

End ScoreAndGameOver.
(** ** The world along a run *)

Section WorldAlongRuns.

Import Game Sim.

Lemma setCell_row (w : World) (x y y' : Z) (c : Cell) :
  is_Some (setCell w x y c !! y') <-> is_Some (w !! y').
Proof.
  unfold setCell. destruct (w !! y) as [row|] eqn:Hrow; [|done].
  destruct (decide (y' = y)) as [->|Hne].
  - rewrite lookup_insert_eq, Hrow. split; eauto.
  - by rewrite lookup_insert_ne.
Qed.

Lemma setCell_cellAt (w : World) (x y x' y' : Z) (c : Cell) :
  is_Some (w !! y) ->
  cellAt (setCell w x y c) x' y'
  = if bool_decide (x' = x /\ y' = y) then Some c else cellAt w x' y'.
Proof.
  intros [row Hrow]. unfold cellAt, setCell. rewrite Hrow.
  destruct (decide (y' = y)) as [->|Hy].
  - rewrite lookup_insert_eq, Hrow.
    destruct (decide (x' = x)) as [->|Hx].
    + rewrite lookup_insert_eq. by rewrite bool_decide_true.
    + rewrite lookup_insert_ne by done. rewrite bool_decide_false; [done|tauto].
  - rewrite lookup_insert_ne by done. rewrite bool_decide_false; [done|tauto].
Qed.

Lemma cellKept_refl c : cellKept c c.
Proof. by left. Qed.

Lemma cellKept_trans c1 c2 c3 : cellKept c1 c2 -> cellKept c2 c3 -> cellKept c1 c3.
Proof.
  intros [->|(s1 & s2 & -> & ->)] H23; [done|].
  destruct H23 as [->|(s3 & s4 & [=] & _)]. right. eauto.
Qed.

#[local] Instance worldKept_preorder : PreOrder worldKept.
Proof.
  split.
  - intros g. repeat split; try done.
    intros x y. destruct (cellAt (tiles g) x y); eauto using cellKept_refl.
  - intros g1 g2 g3 (S12 & G12 & V12 & E12 & R12 & C12)
                    (S23 & G23 & V23 & E23 & R23 & C23).
    repeat split; try congruence.
    + intros H. by apply R12, R23.
    + intros H. by apply R23, R12.
    + intros x y. specialize (C12 x y). specialize (C23 x y).
      destruct (cellAt (tiles g1) x y) as [c1|].
      * destruct C12 as (c2 & E2 & K12). rewrite E2 in C23.
        destruct C23 as (c3 & E3 & K23). eauto using cellKept_trans.
      * by rewrite C12 in C23.
Qed.

(** Assignments that leave the tiles and the window alone. *)
Lemma worldKept_same g g' :
  settings g' = settings g -> generator g' = generator g ->
  viewportStart g' = viewportStart g -> viewportEnd g' = viewportEnd g ->
  tiles g' = tiles g -> worldKept g g'.
Proof.
  intros ? ? ? ? Ht. unfold worldKept. rewrite Ht. repeat split; try done.
  intros x y. destruct (cellAt (tiles g) x y); eauto using cellKept_refl.
Qed.

Lemma consume_worldKept now g xy : worldKept g (consume now g xy).
Proof.
  unfold consume.
  destruct (cellAt (tiles g) xy.1 xy.2) as [[| |[] since]|] eqn:Hc;
    try reflexivity.
  assert (Hrow : is_Some (tiles g !! xy.2)).
  { unfold cellAt in Hc. destruct (tiles g !! xy.2); [eauto | done]. }
  repeat split; try done; simpl.
  - by apply setCell_row.
  - by apply setCell_row.
  - intros x y. rewrite setCell_cellAt by done.
    case_bool_decide as Hxy.
    + destruct Hxy as [-> ->]. rewrite Hc.
      eexists. split; [done|]. right. eauto.
    + destruct (cellAt (tiles g) x y); eauto using cellKept_refl.
Qed.

Lemma step_worldKept inputs elapsedTime :
  preserves worldKept (step inputs elapsedTime).
Proof.
  apply preserves_step; try apply _; intros;
    try (by apply worldKept_same).
  apply consume_worldKept.
Qed.

Lemma worldKept_windowInvariant g g' :
  worldKept g g' -> windowInvariant g -> windowInvariant g'.
Proof.
  intros (_ & _ & V & _ & Rw & Cw) (H0 & Hr & Hx). repeat split.
  - congruence.
  - intros y Hy. rewrite V. by apply Hr, Rw.
  - intros x y Hc. apply (Hx x y). specialize (Cw x y).
    destruct (cellAt (tiles g) x y); [eauto|]. rewrite Cw in Hc. by destruct Hc.
Qed.

Lemma generateWorld_windowInvariant g start end_ :
  windowInvariant g -> windowInvariant (generateWorld start end_ g).
Proof.
  intros (H0 & Hr & Hx). repeat split.
  - simpl. lia.
  - intros y Hy. apply generateWorld_row in Hy. simpl.
    unfold evicted in Hy. destruct Hy as [[Hy Hne]|[_ Hy]]; [|lia].
    specialize (Hr y Hy). lia.
  - intros x y. rewrite generateWorld_cellAt.
    destruct (bool_decide (evicted g start y)).
    + case_bool_decide as Hg; [|by intros []].
      intros _. unfold generated in Hg. lia.
    + destruct (cellAt (tiles g) x y) eqn:Hc.
      * intros _. apply (Hx x y). rewrite Hc. eauto.
      * case_bool_decide as Hg; [|by intros []].
        intros _. unfold generated in Hg. lia.
Qed.

Lemma new_windowInvariant st seed : windowInvariant (Game.new st seed).
Proof.
  apply generateWorld_windowInvariant. repeat split; simpl.
  - lia.
  - intros y [row Hy]. apply lookup_singleton_Some in Hy. lia.
  - intros x y [c Hc]. unfold cellAt in Hc.
    destruct (decide (y = 1%Z)) as [->|Hne].
    + rewrite lookup_singleton_eq in Hc. apply lookup_singleton_Some in Hc. lia.
    + by rewrite lookup_singleton_ne in Hc.
Qed.

Lemma reachable_windowInvariant st g : reachable st g -> windowInvariant g.
Proof.
  intros (seed & _ & Hrun).
  pose proof (new_windowInvariant st seed) as H0.
  induction Hrun as [g|g1 g2 g3 Hcall _ IH]; [done|].
  apply IH. destruct Hcall.
  - by apply generateWorld_windowInvariant.
  - eapply worldKept_windowInvariant; [apply step_worldKept | done].
Qed.

Lemma windowInvariant_cell g x y :
  windowInvariant g -> is_Some (cellAt (tiles g) x y) ->
  (0 <= x)%Z /\ (0 <= y)%Z.
Proof.
  intros (H0 & Hr & Hx) Hc. split; [by eapply Hx|].
  assert (is_Some (tiles g !! y)) as Hy.
  { unfold cellAt in Hc. destruct (tiles g !! y); [eauto | by destruct Hc]. }
  specialize (Hr y Hy). lia.
Qed.

(** C10. In every game met in a run, [viewportStart] is not negative and
    no row and no cell has a negative coordinate; and [generateWorld]
    treats a negative [start] as 0. *)
Theorem viewportStart_nonneg (st : GameSettings) (g : Game) :
  reachable st g ->
  (0 <= viewportStart g)%Z
  /\ (forall y row, tiles g !! y = Some row -> (0 <= y)%Z)
  /\ (forall x y c, cellAt (tiles g) x y = Some c -> (0 <= x)%Z /\ (0 <= y)%Z)
  /\ (forall start end_, (start < 0)%Z ->
        generateWorld start end_ g = generateWorld 0 end_ g).
Proof.
  intros Hr. pose proof (reachable_windowInvariant st g Hr) as Hinv.
  split; [apply Hinv|]. split; [|split].
  - intros y row Hy. destruct Hinv as (H0 & Hrows & _).
    assert (viewportStart g <= y)%Z by (apply Hrows; eauto). lia.
  - intros x y c Hc. apply (windowInvariant_cell g x y Hinv). rewrite Hc. eauto.
  - intros start end_ Hneg. unfold generateWorld.
    by replace (Z.max 0 start) with (Z.max 0 0) by lia.
Qed.

Lemma viewportStart_nonneg_witness :
  let g := generateWorld (-3) 20 (Game.new defaultSettings 0) in
  reachable defaultSettings g /\ (0 <= viewportStart g)%Z.
Proof.
  intros g.
  assert (H : reachable defaultSettings g).
  { exists 0. split; [lra|]. apply rtc_once, call_generateWorld. }
  split; [exact H|]. exact (proj1 (viewportStart_nonneg defaultSettings g H)).
Defined.

Lemma new_cellAt st seed x y :
  cellAt (tiles (Game.new st seed)) x y
  = if bool_decide (x = 1 /\ y = 1)%Z then Some Tile
    else if bool_decide ((0 < rendererTilesOnScreen st)%Z
                         /\ (0 <= x <= rendererTilesOnScreen st)%Z
                         /\ (0 <= y <= rendererTilesOnScreen st)%Z)
         then Some (WorldGenerator.classify (WorldGenerator.mk st seed) x y)
         else None.
Proof.
  unfold Game.new. rewrite generateWorld_cellAt.
  rewrite bool_decide_false by (unfold evicted; simpl; lia).
  cbn [tiles generator].
  assert (Hinit : cellAt ({[ 1%Z := {[ 1%Z := Tile ]} ]} : World) x y
                  = if bool_decide (x = 1 /\ y = 1)%Z then Some Tile else None).
  { unfold cellAt. destruct (decide (y = 1%Z)) as [->|Hy].
    - rewrite lookup_singleton_eq. destruct (decide (x = 1%Z)) as [->|Hx].
      + rewrite lookup_singleton_eq. by rewrite bool_decide_true.
      + rewrite lookup_singleton_ne by done.
        rewrite bool_decide_false; [done | tauto].
    - rewrite lookup_singleton_ne by done.
      rewrite bool_decide_false; [done | tauto]. }
  rewrite Hinit. case_bool_decide; [done|].
  apply (f_equal (fun b : bool =>
    if b then Some (WorldGenerator.classify (WorldGenerator.mk st seed) x y)
    else None)).
  apply bool_decide_ext. unfold generated, skipped. simpl. lia.
Qed.

(** C5, as stated, fails: after the constructor's window [0, 15], the call
    [generateWorld (5, 20)] moves the trailing edge to 5 and leaves the
    cell at x = 0, y = 5 in the world. *)
Lemma window_eviction_counterexample :
  let g := Game.new defaultSettings 0 in
  (5 > viewportStart g)%Z /\ ~ windowBounded (generateWorld 5 20 g).
Proof.
  intros g. split; [simpl; lia|]. intros Hb.
  assert (Hc : exists c, cellAt (tiles (generateWorld 5 20 g)) 0 5 = Some c).
  { rewrite generateWorld_cellAt.
    rewrite bool_decide_false by (unfold evicted; simpl; lia).
    unfold g. rewrite new_cellAt.
    rewrite bool_decide_false by lia.
    rewrite bool_decide_true by (simpl; lia). eauto. }
  destruct Hc as [c Hc]. destruct (Hb 0%Z 5%Z c Hc) as [Hx _].
  simpl in Hx. lia.
Qed.

(** C5, amended.  [generateWorld] evicts by rows: in a game met in a run,
    a call deletes exactly the rows whose [y] lies from the old trailing
    edge up to the new one, so that afterwards no row lies behind the new
    trailing edge; every cell of the other rows stays as it is, whatever
    its [x]; nothing is deleted when [start] does not exceed the old
    [viewportStart]; and cells stay within the far edge when [end] does not
    retreat. *)
Theorem generateWorld_evicts_rows (st : GameSettings) (g : Game)
    (start end_ : Z) :
  reachable st g ->
  let g' := generateWorld start end_ g in
  (viewportStart g' = Z.max 0 start /\ viewportEnd g' = end_)
  /\ (forall x y c, cellAt (tiles g') x y = Some c -> (viewportStart g' <= y)%Z)
  /\ (forall x y, evicted g start y -> cellAt (tiles g') x y = None)
  /\ (forall x y c, cellAt (tiles g) x y = Some c -> ~ evicted g start y ->
        cellAt (tiles g') x y = Some c)
  /\ ((start <= viewportStart g)%Z ->
      forall x y c, cellAt (tiles g) x y = Some c ->
        cellAt (tiles g') x y = Some c)
  /\ ((viewportEnd g <= end_)%Z ->
      (forall x y c, cellAt (tiles g) x y = Some c ->
         (x <= viewportEnd g)%Z /\ (y <= viewportEnd g)%Z) ->
      forall x y c, cellAt (tiles g') x y = Some c ->
        (x <= viewportEnd g')%Z /\ (y <= viewportEnd g')%Z).
Proof.
  intros Hr g'. pose proof (reachable_windowInvariant st g Hr) as Hinv.
  pose proof (generateWorld_windowInvariant g start end_ Hinv)
    as (_ & Hrows' & _).
  assert (Hkeep : forall x y c, cellAt (tiles g) x y = Some c ->
            ~ evicted g start y -> cellAt (tiles g') x y = Some c).
  { intros x y c Hc Hne. unfold g'. rewrite generateWorld_cellAt.
    rewrite bool_decide_false by done. by rewrite Hc. }
  split; [done|]. split; [|split; [|split; [|split]]].
  - intros x y c Hc. apply Hrows'. fold g'.
    unfold cellAt in Hc. destruct (tiles g' !! y); [eauto | done].
  - intros x y He. unfold g'. rewrite generateWorld_cellAt.
    rewrite bool_decide_true by done.
    rewrite bool_decide_false; [done|].
    unfold generated, evicted in *. lia.
  - exact Hkeep.
  - intros Hs x y c Hc. apply Hkeep; [done|].
    destruct Hinv as (H0 & _). unfold evicted. lia.
  - intros He Hin x y c. unfold g'. rewrite generateWorld_cellAt.
    cbn [viewportEnd set_viewport generateWorld].
    destruct (bool_decide (evicted g start y)).
    + case_bool_decide as Hg; [|done]. intros _.
      unfold generated in Hg. lia.
    + destruct (cellAt (tiles g) x y) as [c0|] eqn:Hc0.
      * intros _. destruct (Hin x y c0 Hc0). lia.
      * case_bool_decide as Hg; [|done]. intros _.
        unfold generated in Hg. lia.
Qed.

Lemma generateWorld_evicts_rows_witness :
  let g := Game.new defaultSettings 0 in
  let g' := generateWorld 5 20 g in
  reachable defaultSettings g
  /\ (viewportStart g' = Z.max 0 5 /\ viewportEnd g' = 20%Z).
Proof.
  intros g g'.
  assert (H : reachable defaultSettings g).
  { exists 0. split; [lra|]. apply rtc_refl. }
  split; [exact H|].
  exact (proj1 (generateWorld_evicts_rows defaultSettings g 5 20 H)).
Defined.

End WorldAlongRuns.
(** ** The first power-up of the default settings *)

Section PowerUps.

Lemma floor_unique (x : R) (k : Z) : IZR k <= x < IZR k + 1 -> floor x = k.
Proof. apply Zfloor_eq. Qed.

Lemma SQRT2_pos : 0 < SQRT2.
Proof. unfold SQRT2. lra. Qed.

(** [n] at distance 0: no interval has elapsed. *)
Lemma n_default_0 : WorldGenerator.n defaultSettings 0 = 0.
Proof.
  unfold WorldGenerator.n, pow_half. simpl.
  replace (1.0 * SQRT2 * (1.0 * SQRT2) + 2 * (0.1 * SQRT2) * 0)
    with (SQRT2 * SQRT2) by lra.
  rewrite sqrt_square by (pose proof SQRT2_pos; lra).
  unfold SQRT2. lra.
Qed.

(** [n] one diagonal cell further: a fraction of the first interval. *)
Lemma n_default_1 : 0 < WorldGenerator.n defaultSettings (1 * SQRT2) < 1.
Proof.
  unfold WorldGenerator.n, pow_half. simpl.
  pose proof SQRT2_pos as HS.
  set (arg := 1.0 * SQRT2 * (1.0 * SQRT2) + 2 * (0.1 * SQRT2) * (1 * SQRT2)).
  assert (Harg : arg = 1.2 * (SQRT2 * SQRT2)) by (unfold arg; lra).
  assert (Hpos : 0 <= arg) by (rewrite Harg; nra).
  pose proof (sqrt_sqrt arg Hpos) as Hsq.
  pose proof (sqrt_pos arg) as Hr.
  set (r := sqrt arg) in *.
  assert (Hlo : SQRT2 < r) by nra.
  assert (Hhi : r < 2 * SQRT2) by nra.
  replace (0.1 * SQRT2 * 10) with SQRT2 by lra.
  replace (- (1.0 * SQRT2) + r) with (r - SQRT2) by lra.
  split.
  - apply Rdiv_pos_pos; lra.
  - apply (Rmult_lt_reg_r SQRT2); [done|].
    replace ((r - SQRT2) / SQRT2 * SQRT2) with (r - SQRT2) by (field; lra).
    lra.
Qed.

Lemma isPowerUp_default_1_1 seed :
  WorldGenerator.isPowerUp (WorldGenerator.mk defaultSettings seed) 1 1 = false.
Proof.
  unfold WorldGenerator.isPowerUp. cbn [WorldGenerator.settings].
  rewrite (floor_unique (WorldGenerator.n defaultSettings (1 * SQRT2)) 0)
    by (pose proof n_default_1; simpl; lra).
  replace ((1 - 1) * SQRT2) with 0 by lra.
  rewrite n_default_0.
  rewrite (floor_unique 0 0) by (simpl; lra).
  rewrite (bool_decide_false (0 > 0)%Z) by lia.
  by rewrite andb_false_r.
Qed.

(** C3, as stated, fails: the two floors are equal and [isPowerUp (1, 1)]
    is false. *)
Lemma first_powerUp_counterexample :
  ~ (floor (WorldGenerator.n defaultSettings (1 * SQRT2))
     <> floor (WorldGenerator.n defaultSettings 0)
     /\ WorldGenerator.isPowerUp (WorldGenerator.mk defaultSettings 0) 1 1
        = true).
Proof.
  intros [_ H]. by rewrite isPowerUp_default_1_1 in H.
Qed.

(** C3, amended.  With a = 0.1 SQRT2, v0 = 1.0 SQRT2 and t0 = 10,
    [n (0)] is 0 and [n (1 SQRT2)] lies strictly between 0 and 1, so both
    have floor 0 and [isPowerUp (1, 1)] is false, whatever the seed. *)
Theorem first_powerUp_not_at_1_1 :
  gameAcceleration defaultSettings = 0.1 * SQRT2
  /\ gameInitialVelocity defaultSettings = 1.0 * SQRT2
  /\ gameTimeBetweenPowerUps defaultSettings = 10
  /\ playerSize defaultSettings = 0.5
  /\ floor (WorldGenerator.n defaultSettings (1 * SQRT2)) = 0%Z
  /\ floor (WorldGenerator.n defaultSettings 0) = 0%Z
  /\ forall seed,
       WorldGenerator.isPowerUp (WorldGenerator.mk defaultSettings seed) 1 1
       = false.
Proof.
  repeat split.
  - apply floor_unique. pose proof n_default_1. simpl. lra.
  - rewrite n_default_0. apply floor_unique. simpl. lra.
  - apply isPowerUp_default_1_1.
Qed.

End PowerUps.
(** ** The footprint of a player that faces along the x axis *)

Section Footprint.

Import Game Sim.

#[local] Arguments IZR : simpl never.

Lemma length_nonzero (v : Vect) : V.lengthSquared v <> 0 -> V.length v <> 0.
Proof.
  intros Hne Hl. apply Hne. unfold V.length, pow_half in Hl.
  apply sqrt_eq_0; [apply lengthSquared_nonneg | exact Hl].
Qed.

(** A path is built as soon as its first two edges are not parallel. *)
Lemma new_Done (v0 v1 v2 : Vect) (rest : list Vect) :
  V.lengthSquared (V.cross (V.substract v1 v0) (V.substract v2 v1)) <> 0 ->
  exists n, P.new (v0 :: v1 :: v2 :: rest)
            = Done (mkPath (v0 :: v1 :: v2 :: rest) n).
Proof.
  intros Hne. unfold P.new, V.normalize.
  rewrite bool_decide_false by (by apply length_nonzero).
  simpl. eauto.
Qed.

Lemma rotateZ_0 (v : Vect) : V.rotateZ v 0 = v.
Proof.
  unfold V.rotateZ. rewrite cos_0, sin_0. destruct v as [x y z]. simpl.
  f_equal; lra.
Qed.

Lemma map_rotateZ_0 (vs : list Vect) : map (fun u => V.rotateZ u 0) vs = vs.
Proof.
  induction vs as [|v vs IH]; [done|]. simpl. by rewrite rotateZ_0, IH.
Qed.

(** The square footprint of the player of the default settings, standing
    at [position] and facing along the x axis. *)
Lemma getCollisionPath_square (p : Player.Player) (x y z : R) :
  Player.s p = mkVect 0.5 0.5 0.5 -> Player.orientation p = 0 ->
  Player.inRotation p = false -> Player.position p = mkVect x y z ->
  exists n,
    Player.getCollisionPath p
    = Done (mkPath [ mkVect (x - 0.25) (y - 0.25) z;
                     mkVect (x - 0.25) (y + 0.25) z;
                     mkVect (x + 0.25) (y + 0.25) z;
                     mkVect (x + 0.25) (y - 0.25) z ] n).
Proof.
  intros Hs Ho Hr Hp. unfold Player.getCollisionPath.
  rewrite Hs, Ho, Hr, Hp.
  destruct (new_Done V.ZERO (V.cloneY (mkVect 0.5 0.5 0.5))
              (V.cloneXY (mkVect 0.5 0.5 0.5))
              [V.cloneX (mkVect 0.5 0.5 0.5)]) as [n0 ->].
  { unfold V.lengthSquared, V.dot. simpl. lra. }
  cbn [obind]. unfold P.rotateZ, P.translate, P.call. cbn [vertices map].
  match goal with
  | |- context [P.new (?a :: ?b :: ?c :: ?r)] =>
      destruct (new_Done a b c r) as [n1 ->]
  end.
  { unfold V.lengthSquared, V.dot. simpl. lra. }
  cbn [obind vertices]. rewrite map_rotateZ_0.
  match goal with
  | |- context [P.new (?a :: ?b :: ?c :: ?r)] =>
      destruct (new_Done a b c r) as [n2 ->]
  end.
  { unfold V.lengthSquared, V.dot. simpl. lra. }
  cbn [obind vertices map].
  match goal with
  | |- context [P.new (?a :: ?b :: ?c :: ?r)] =>
      destruct (new_Done a b c r) as [n3 ->]
  end.
  { unfold V.lengthSquared, V.dot. simpl. lra. }
  cbn [obind vertices map].
  match goal with
  | |- context [P.new (?a :: ?b :: ?c :: ?r)] =>
      destruct (new_Done a b c r) as [n4 ->]
  end.
  { unfold V.lengthSquared, V.dot. simpl. lra. }
  exists n4. apply (f_equal Done), (f_equal2 mkPath); [|done].
  repeat (apply (f_equal2 cons);
          [unfold V.add, V.substract, V.multiply; simpl;
           apply (f_equal3 mkVect); lra|]).
  done.
Qed.

(** A footprint whose vertices all lie over one cell, which is a tile,
    stands on that tile and on no other. *)
Lemma playerIsOnTheseTiles_one_cell (g : Game) (path : Path) (cx cy : Z) :
  Player.getCollisionPath (player g) = Done path ->
  vertices path <> [] ->
  Forall (fun v => floor (vx v) = cx /\ floor (vy v) = cy) (vertices path) ->
  isTileAt (tiles g) cx cy = true ->
  playerIsOnTheseTiles g = Done [(cx, cy)].
Proof.
  intros Hpath Hne Hall Htile. unfold playerIsOnTheseTiles.
  rewrite Hpath. cbn [obind].
  destruct (vertices path) as [|v0 vs] eqn:Hvs; [done|].
  apply Forall_cons in Hall as [[Hx0 Hy0] Hall].
  cbn [hd foldl]. rewrite Hx0, Hy0.
  assert (H1 : scanVertex (tiles g) (mkScan cx cx cy cy []) v0
               = mkScan cx cx cy cy [(cx, cy)]).
  { unfold scanVertex. cbn [left right bottom top theseTiles].
    rewrite Hx0, Hy0, Htile, !Z.min_id, !Z.max_id.
    by rewrite bool_decide_true by apply not_elem_of_nil. }
  rewrite H1.
  assert (H2 : foldl (scanVertex (tiles g)) (mkScan cx cx cy cy [(cx, cy)]) vs
               = mkScan cx cx cy cy [(cx, cy)]).
  { clear Hvs H1. induction vs as [|v vs IH]; [done|].
    apply Forall_cons in Hall as [[Hx Hy] Hall]. cbn [foldl].
    replace (scanVertex (tiles g) (mkScan cx cx cy cy [(cx, cy)]) v)
      with (mkScan cx cx cy cy [(cx, cy)]); [by apply IH|].
    unfold scanVertex. cbn [left right bottom top theseTiles].
    rewrite Hx, Hy, Htile, !Z.min_id, !Z.max_id.
    rewrite bool_decide_false; [done|].
    intros Hnin. apply Hnin, list_elem_of_here. }
  rewrite H2. unfold box. cbn [left right bottom top theseTiles].
  replace (cy - cy + 1)%Z with 1%Z by lia.
  replace (cx - cx + 1)%Z with 1%Z by lia.
  assert (Hseq : forall m : Z, seqZ m 1 = [m]).
  { intros m. unfold seqZ. simpl. f_equal; lia. }
  rewrite !Hseq. cbn [mbind list_bind concat app foldl mret list_ret scanCell obind].
  rewrite Htile.
  rewrite bool_decide_false; [done|].
  intros Hnin. apply Hnin, list_elem_of_here.
Qed.

Lemma new_player_s : Player.s (Player.new defaultSettings) = mkVect 0.5 0.5 0.5.
Proof. simpl. unfold V.multiply. simpl. apply (f_equal3 mkVect); lra. Qed.

(** The player of a new game stands on the tile at (1, 1). *)
Lemma new_playerIsOnTheseTiles seed :
  playerIsOnTheseTiles (Game.new defaultSettings seed) = Done [(1, 1)%Z].
Proof.
  destruct (getCollisionPath_square (Player.new defaultSettings) 1.5 1.5 0)
    as [n Hpath]; [apply new_player_s | done..|].
  apply (playerIsOnTheseTiles_one_cell (Game.new defaultSettings seed) _ 1 1
           Hpath); [done| |].
  - cbn [vertices vx vy].
    repeat (apply Forall_cons; split;
            [split; apply floor_unique; simpl; lra|]).
    by apply Forall_nil.
  - unfold isTileAt. by rewrite new_cellAt, bool_decide_true.
Qed.

End Footprint.

(** ** The tile under the start position *)

Section StartTile.

Import Game Sim.

Lemma generateWorld_keeps_cell g start end_ x y c :
  cellAt (tiles g) x y = Some c ->
  cellAt (tiles (generateWorld start end_ g)) x y
  = if bool_decide (evicted g start y) then None else Some c.
Proof.
  intros Hc. rewrite generateWorld_cellAt, Hc.
  case_bool_decide as He; [|done].
  rewrite bool_decide_false; [done|].
  unfold generated, evicted in *. lia.
Qed.

Lemma step_keeps_tile inputs elapsedTime g x y :
  cellAt (tiles g) x y = Some Tile ->
  cellAt (tiles (step inputs elapsedTime g).2) x y = Some Tile.
Proof.
  intros Hc.
  destruct (step_worldKept inputs elapsedTime g) as (_ & _ & _ & _ & _ & Hw).
  specialize (Hw x y). rewrite Hc in Hw.
  destruct Hw as (c' & -> & [->|(s1 & s2 & [=] & _)]). done.
Qed.

(** With the default settings, no game met in a run has a power-up at
    (1, 1). *)
Lemma reachable_no_powerUp_1_1 g :
  reachable defaultSettings g ->
  forall b since, cellAt (tiles g) 1 1 <> Some (PowerUpTile b since).
Proof.
  intros (seed & _ & Hrun).
  set (Inv := fun g : Game =>
         generator g = WorldGenerator.mk defaultSettings seed
         /\ forall b since, cellAt (tiles g) 1 1 <> Some (PowerUpTile b since)).
  assert (H0 : Inv (Game.new defaultSettings seed)).
  { split; [done|]. intros b since. rewrite new_cellAt.
    by rewrite bool_decide_true. }
  cut (Inv g); [by intros [_ H]|].
  induction Hrun as [g|g1 g2 g3 Hcall _ IH]; [done|].
  apply IH. destruct H0 as [Hgen Hno]. destruct Hcall as [g start end_|g inputs e He].
  - split; [done|]. intros b since. rewrite generateWorld_cellAt.
    assert (Hcl : forall o : option Cell,
              o = Some (WorldGenerator.classify (generator g) 1 1) \/ o = None ->
              o <> Some (PowerUpTile b since)).
    { intros o [->| ->]; [|done]. rewrite Hgen.
      unfold WorldGenerator.classify. rewrite isPowerUp_default_1_1.
      by destruct (WorldGenerator.isTile _ 1 1). }
    destruct (bool_decide (evicted g start 1)).
    + apply Hcl. case_bool_decide; eauto.
    + destruct (cellAt (tiles g) 1 1) as [c|] eqn:Hold.
      * intros [= Hc]. subst c. by eapply Hno.
      * apply Hcl. case_bool_decide; eauto.
  - destruct (step_worldKept inputs e g) as (_ & Hg & _ & _ & _ & Hw).
    split; [congruence|]. intros b since Hc.
    specialize (Hw 1%Z 1%Z).
    destruct (cellAt (tiles g) 1 1) as [c|] eqn:Hold.
    + destruct Hw as (c' & Hc' & [->|(s1 & s2 & -> & _)]).
      * rewrite Hc' in Hc. by eapply Hno.
      * by eapply Hno.
    + congruence.
Qed.

(** C9.  Whatever the seed, a new game has a plain tile at (1, 1) and its
    player, at (1.5, 1.5, 0), stands on it; a call of [generateWorld]
    leaves a cell that exists as it is, or deletes it with its row when
    the trailing edge passes it, and never classifies it again; a call of
    [update] leaves a plain tile a plain tile; and with the default
    settings no game met in a run has a power-up at (1, 1). *)
Theorem start_tile_kept :
  (forall st seed, cellAt (tiles (Game.new st seed)) 1 1 = Some Tile)
  /\ (forall seed,
        Player.position (player (Game.new defaultSettings seed))
        = mkVect 1.5 1.5 0
        /\ playerIsOnTheseTiles (Game.new defaultSettings seed)
           = Done [(1, 1)%Z])
  /\ (forall g start end_ c,
        cellAt (tiles g) 1 1 = Some c ->
        cellAt (tiles (generateWorld start end_ g)) 1 1
        = if bool_decide (evicted g start 1) then None else Some c)
  /\ (forall g inputs elapsedTime,
        cellAt (tiles g) 1 1 = Some Tile ->
        cellAt (tiles (step inputs elapsedTime g).2) 1 1 = Some Tile)
  /\ (forall g, reachable defaultSettings g ->
        forall b since, cellAt (tiles g) 1 1 <> Some (PowerUpTile b since)).
Proof.
  split; [|split; [|split; [|split]]].
  - intros st seed. by rewrite new_cellAt, bool_decide_true.
  - intros seed. split; [done | apply new_playerIsOnTheseTiles].
  - intros g start end_ c. apply generateWorld_keeps_cell.
  - intros g inputs e. apply step_keeps_tile.
  - apply reachable_no_powerUp_1_1.
Qed.

Lemma start_tile_kept_witness :
  let g := Game.new defaultSettings 0 in
  cellAt (tiles g) 1 1 = Some Tile
  /\ cellAt (tiles (generateWorld 1 20 g)) 1 1 = Some Tile.
Proof.
  intros g.
  assert (H : cellAt (tiles g) 1 1 = Some Tile)
    by exact (proj1 start_tile_kept defaultSettings 0).
  split; [exact H|].
  rewrite (proj1 (proj2 (proj2 start_tile_kept)) g 1%Z 20%Z Tile H).
  rewrite bool_decide_false; [reflexivity|]. unfold evicted. simpl. lia.
Defined.

End StartTile.
(** ** Jump requests *)

Section Jumps.

Import Game Sim.

#[local] Arguments IZR : simpl never.

Lemma consume_motion now g xy :
  sameMotion (player g) (player (consume now g xy))
  /\ t (consume now g xy) = t g
  /\ jumpQueued (consume now g xy) = jumpQueued g.
Proof.
  unfold consume.
  by destruct (cellAt (tiles g) xy.1 xy.2) as [[| |[] since]|].
Qed.

Lemma consumeAll_motion now these g :
  sameMotion (player g) (player (foldl (consume now) g these))
  /\ t (foldl (consume now) g these) = t g
  /\ jumpQueued (foldl (consume now) g these) = jumpQueued g.
Proof.
  revert g. induction these as [|xy these IH]; intros g; [done|].
  cbn [foldl]. destruct (IH (consume now g xy)) as ((A1 & A2 & A3 & A4 & A5) & B & C).
  destruct (consume_motion now g xy) as ((D1 & D2 & D3 & D4 & D5) & E & F).
  repeat split; congruence.
Qed.



Lemma examineInputs_turning inputs g :
  Player.inAir (player g) = false -> Player.inRotation (player g) = true ->
  jump inputs = true \/ jumpQueued g = true ->
  (examineInputs inputs g).2 = set_jumpQueued true g.
Proof.
  intros Hair Hrot Hreq.
  unfold examineInputs, bind, gets, when, ret, modify, onPlayer.
  cbn [fst snd].
  replace (jump inputs || jumpQueued g) with true
    by (destruct Hreq as [-> | ->]; [done | by rewrite orb_true_r]).
  cbv beta iota. by rewrite Hair, Hrot.
Qed.



End Jumps.
(** ** The point-in-path test on convex paths *)

Section SeesLoop.

Import Collisions.

Variables n u : Vect.

(** The loop answers [true] unless it meets a negative and a positive
    signed quantity. *)
Lemma seesLoop_spec (ws : list Vect) (mn mx : R) :
  mn <= 0 -> 0 <= mx -> mn = 0 \/ mx = 0 ->
  seesLoop n u ws mn mx = true
  <-> ~ ((mn < 0 \/ exists w, w ∈ ws /\ signed n u w < 0)
         /\ (0 < mx \/ exists w, w ∈ ws /\ 0 < signed n u w)).
Proof.
  revert mn mx. induction ws as [|w ws IH]; intros mn mx Hmn Hmx Hz.
  - simpl. split; [|done]. intros _ [[H1|(w & Hw & _)] [H2|(w' & Hw' & _)]];
      try (by apply not_elem_of_nil in Hw);
      try (by apply not_elem_of_nil in Hw'). lra.
  - cbn [seesLoop]. fold (signed n u w). set (d := signed n u w).
    assert (Hex : forall P : Vect -> Prop,
              (exists w', w' ∈ w :: ws /\ P w')
              <-> P w \/ exists w', w' ∈ ws /\ P w').
    { intros P. split.
      - intros (w' & Hin & HP). apply elem_of_cons in Hin as [->|Hin]; eauto.
      - intros [HP|(w' & Hin & HP)].
        + exists w. split; [apply list_elem_of_here | done].
        + exists w'. split; [by apply list_elem_of_further | done]. }
    rewrite (Hex (fun w' => signed n u w' < 0)).
    rewrite (Hex (fun w' => 0 < signed n u w')). fold d.
    destruct (decide (d < mn)) as [Hlt|Hge].
    + rewrite (bool_decide_true _ Hlt). cbn [fst snd].
      destruct (decide (mx <> 0)) as [Hmx0|Hmx0].
      * rewrite (bool_decide_true _ Hmx0).
        rewrite (bool_decide_true (d <> 0)) by lra. cbn [andb].
        split; [done|]. intros H. exfalso. apply H. split; [right; left; lra|].
        left. lra.
      * rewrite (bool_decide_false _ Hmx0). cbn [andb].
        rewrite IH by lra. apply not_iff_compat. intuition lra.
    + rewrite (bool_decide_false _ Hge).
      destruct (decide (d > mx)) as [Hgt|Hle].
      * rewrite (bool_decide_true _ Hgt). cbn [fst snd].
        rewrite (bool_decide_true (d <> 0)) by lra.
        destruct (decide (mn <> 0)) as [Hmn0|Hmn0].
        -- rewrite (bool_decide_true _ Hmn0). cbn [andb].
           split; [done|]. intros H. exfalso. apply H.
           split; [left; lra | right; left; lra].
        -- rewrite (bool_decide_false _ Hmn0). cbn [andb].
           rewrite IH by lra. apply not_iff_compat. intuition lra.
      * rewrite (bool_decide_false _ Hle). cbn [fst snd].
        assert (Hnot : bool_decide (mx <> 0) && bool_decide (mn <> 0) = false).
        { destruct Hz as [-> | ->].
          - rewrite (bool_decide_false (0 <> 0)) by tauto. apply andb_false_r.
          - by rewrite (bool_decide_false (0 <> 0)) by tauto. }
        rewrite Hnot, IH by done. apply not_iff_compat. intuition lra.
Qed.

Lemma sees_spec (ws : list Vect) :
  vectorSeesAllOthersOnTheSameHalfPlane n ws u = false
  <-> (exists w, w ∈ ws /\ signed n u w < 0)
      /\ (exists w, w ∈ ws /\ 0 < signed n u w).
Proof.
  unfold vectorSeesAllOthersOnTheSameHalfPlane.
  rewrite <- not_true_iff_false, seesLoop_spec by (lra || (left; lra)).
  split.
  - intros H. apply NNPP in H. destruct H as [[H1|H1] [H2|H2]]; try lra. done.
  - intros [H1 H2] H. apply H. split; by right.
Qed.

End SeesLoop.

(** *** Signed quantities *)

Lemma signed_anti (n a b : Vect) : signed n a b = - signed n b a.
Proof. unfold signed, V.dot, V.cross. simpl. ring. Qed.

Lemma signed_self (n a : Vect) : signed n a a = 0.
Proof. unfold signed, V.dot, V.cross. simpl. ring. Qed.

(** The three-term relation between the signed quantities of four
    vectors. *)
Lemma signed_plucker (n a b c d : Vect) :
  signed n a b * signed n c d + signed n b c * signed n a d
  + signed n c a * signed n b d = 0.
Proof. unfold signed, V.dot, V.cross. simpl. ring. Qed.

(** The side of an edge, seen from the point [q]: with [a], [b] and [w]
    the vertices of the edge and a third point, all taken relative to
    [q]. *)
Lemma signed_edge (n a b w q : Vect) :
  signed n (V.substract b a) (V.substract w a)
  = signed n (V.substract b q) (V.substract w q)
    + signed n (V.substract a q) (V.substract b q)
    - signed n (V.substract a q) (V.substract w q).
Proof.
  unfold signed, V.dot, V.cross, V.substract, V.add, V.multiply. simpl. ring.
Qed.

Lemma signed_edge_point (n a b q : Vect) :
  signed n (V.substract b a) (V.substract q a)
  = signed n (V.substract a q) (V.substract b q).
Proof.
  unfold signed, V.dot, V.cross, V.substract, V.add, V.multiply. simpl. ring.
Qed.

(** *** Vertices in cyclic order *)

Section Cyclic.

Variable vs : list Vect.
Hypothesis Hlen : (3 <= length vs)%nat.

Lemma vertexAt_mod (i : nat) : vertexAt vs (i mod length vs) = vertexAt vs i.
Proof. unfold vertexAt. by rewrite Nat.Div0.mod_mod. Qed.

Lemma vertexAt_congr (i j : nat) :
  i mod length vs = j mod length vs -> vertexAt vs i = vertexAt vs j.
Proof. unfold vertexAt. by intros ->. Qed.

Lemma vertexAt_period (i : nat) : vertexAt vs (i + length vs) = vertexAt vs i.
Proof.
  apply vertexAt_congr.
  rewrite <- Nat.Div0.add_mod_idemp_r, Nat.Div0.mod_same, Nat.add_0_r. done.
Qed.

Lemma vertexAt_periods (i c : nat) :
  vertexAt vs (i + c * length vs) = vertexAt vs i.
Proof. apply vertexAt_congr. by rewrite Nat.Div0.mod_add. Qed.

Lemma vertexAt_in (i : nat) : vertexAt vs i ∈ vs.
Proof.
  unfold vertexAt. apply list_elem_of_In, nth_In, Nat.mod_upper_bound. lia.
Qed.

Lemma in_vertexAt (w : Vect) : w ∈ vs -> exists i, w = vertexAt vs i.
Proof.
  intros Hin. apply list_elem_of_In in Hin.
  destruct (In_nth vs w V.ZERO Hin) as (i & Hi & <-).
  exists i. unfold vertexAt. by rewrite Nat.mod_small.
Qed.

End Cyclic.

(** *** The convexity argument, on the vertices seen from the point *)

Section Convex.

Variable n : Vect.
Variable us : list Vect.
Hypothesis Hlen : (3 <= length us)%nat.

Let D (i j : nat) : R := signed n (vertexAt us i) (vertexAt us j).

Hypothesis Hconv :
  forall i j : nat,
    j mod length us <> i mod length us ->
    j mod length us <> S i mod length us ->
    0 < D (S i) j + D i (S i) - D i j.

Lemma D_anti i j : D i j = - D j i.
Proof. apply signed_anti. Qed.

Lemma D_congr i i' j j' :
  i mod length us = i' mod length us ->
  j mod length us = j' mod length us -> D i j = D i' j'.
Proof.
  intros Hi Hj. unfold D.
  by rewrite (vertexAt_congr us i i' Hi), (vertexAt_congr us j j' Hj).
Qed.

Lemma succ_mod (k : nat) :
  S k mod length us
  = if decide (S (k mod length us) = length us) then 0%nat
    else S (k mod length us).
Proof.
  replace (S k) with (k + 1)%nat by lia.
  rewrite Nat.Div0.add_mod, (Nat.mod_small 1) by lia.
  pose proof (Nat.mod_upper_bound k (length us)) as Hr.
  replace (k mod length us + 1)%nat with (S (k mod length us)) by lia.
  case_decide as Heq.
  - rewrite Heq. apply Nat.Div0.mod_same.
  - apply Nat.mod_small. lia.
Qed.

(** Inside every edge, every vertex has vertices strictly on both of its
    sides. *)
Lemma inside_sees_both :
  (forall i, 0 < D i (S i)) ->
  forall u, u ∈ us ->
    (exists w, w ∈ us /\ signed n u w < 0)
    /\ (exists w, w ∈ us /\ 0 < signed n u w).
Proof.
  intros Hgood u Hu. destruct (in_vertexAt us u Hu) as [k ->]. split.
  - exists (vertexAt us (k + length us - 1)). split; [apply vertexAt_in; lia|].
    fold (D k (k + length us - 1)). rewrite D_anti.
    pose proof (Hgood (k + length us - 1)%nat) as H.
    replace (S (k + length us - 1)) with (k + length us)%nat in H by lia.
    rewrite (D_congr _ (k + length us - 1) (k + length us) k) in H; try done.
    + lra.
    + rewrite <- Nat.Div0.add_mod_idemp_r, Nat.Div0.mod_same, Nat.add_0_r. done.
  - exists (vertexAt us (S k)). split; [apply vertexAt_in; lia|]. apply Hgood.
Qed.

(** Some edge has the point strictly on its inner side. *)
Lemma some_edge_good : exists i, 0 < D i (S i).
Proof.
  apply NNPP. intros Hnone.
  assert (Hall : forall i, D i (S i) <= 0).
  { intros i. destruct (Rle_lt_dec (D i (S i)) 0); [done|].
    exfalso. apply Hnone. eauto. }
  assert (Hfan : forall m, (1 <= m)%nat -> (m <= length us - 1)%nat ->
            D 0 m <= 0 /\ ((2 <= m)%nat -> D 0 m < 0)).
  { induction m as [|m IH]; [lia|]. intros _ Hm.
    destruct (decide (m = 0%nat)) as [->|Hm0].
    - split; [apply Hall | lia].
    - destruct IH as [IH _]; [lia..|].
      pose proof (Hconv m 0) as Hc.
      rewrite (Nat.mod_small 0), (Nat.mod_small m), (Nat.mod_small (S m)) in Hc
        by lia.
      specialize (Hc ltac:(lia) ltac:(lia)).
      pose proof (Hall m). rewrite (D_anti (S m) 0), (D_anti m 0) in Hc.
      split; [|intros _]; lra. }
  destruct (Hfan (length us - 1)%nat) as [_ Hlast]; [lia..|].
  specialize (Hlast ltac:(lia)).
  pose proof (Hall (length us - 1)%nat) as Hbad.
  rewrite (D_congr (length us - 1) (length us - 1) (S (length us - 1)) 0)
    in Hbad; try done.
  - rewrite D_anti in Hbad. lra.
  - replace (S (length us - 1)) with (length us) by lia.
    rewrite Nat.Div0.mod_same. by rewrite Nat.mod_small by lia.
Qed.

(** Walking from an edge with the point inside to one with the point
    outside or on it, the two kinds of edges meet at a vertex. *)
Lemma edges_meet (m i : nat) :
  0 < D i (S i) -> D (i + m) (S (i + m)) <= 0 ->
  exists k, 0 < D k (S k) /\ D (S k) (S (S k)) <= 0.
Proof.
  revert i. induction m as [|m IH]; intros i Hgood Hbad.
  - rewrite Nat.add_0_r in Hbad. lra.
  - destruct (Rle_lt_dec (D (S i) (S (S i))) 0) as [Hle|Hgt]; [eauto|].
    apply (IH (S i)); [done|].
    by replace (S i + m)%nat with (i + S m)%nat by lia.
Qed.

Lemma tangent_vertex_exists :
  (exists i, D i (S i) <= 0) ->
  exists k, 0 < D k (S k) /\ D (S k) (S (S k)) <= 0.
Proof.
  intros [i1 Hbad]. destruct some_edge_good as [i0 Hgood].
  apply (edges_meet (i1 + i0 * length us - i0) i0 Hgood).
  replace (i0 + (i1 + i0 * length us - i0))%nat
    with (i1 + i0 * length us)%nat by nia.
  rewrite (D_congr _ i1 _ (S i1)); [done| |].
  - by rewrite Nat.Div0.mod_add.
  - replace (S (i1 + i0 * length us)) with (S i1 + i0 * length us)%nat by lia.
    by rewrite Nat.Div0.mod_add.
Qed.

(** Where they meet, the vertex has no vertex strictly on one of its
    sides. *)
Lemma tangent_vertex (k : nat) :
  0 < D k (S k) -> D (S k) (S (S k)) <= 0 ->
  forall j, D (S k) j <= 0.
Proof.
  intros HA HB j.
  pose proof (Nat.mod_upper_bound k (length us) ltac:(lia)) as Hk.
  pose proof (Nat.mod_upper_bound j (length us) ltac:(lia)) as Hj.
  pose proof (succ_mod k) as H1. pose proof (succ_mod (S k)) as H2.
  destruct (decide (j mod length us = S k mod length us)) as [E1|N1].
  { rewrite (D_congr (S k) (S k) j (S k)) by done.
    unfold D. rewrite signed_self. lra. }
  destruct (decide (j mod length us = S (S k) mod length us)) as [E2|N2].
  { by rewrite (D_congr (S k) (S k) j (S (S k))). }
  destruct (decide (j mod length us = k mod length us)) as [E3|N3].
  { rewrite (D_congr (S k) (S k) j k) by done. rewrite D_anti. lra. }
  pose proof (Hconv k j N3 N1) as C1.
  pose proof (Hconv (S k) j N1 N2) as C2.
  assert (C3 : 0 < D (S k) (S (S k)) + D k (S k) - D k (S (S k))).
  { apply Hconv.
    - rewrite H2, H1. repeat case_decide; lia.
    - rewrite H2. repeat case_decide; lia. }
  pose proof (signed_plucker n (vertexAt us k) (vertexAt us (S k))
                (vertexAt us (S (S k))) (vertexAt us j)) as Hp.
  fold (D k (S k)) (D (S (S k)) j) (D (S k) (S (S k))) (D k j)
       (D (S (S k)) k) (D (S k) j) in Hp.
  rewrite (D_anti (S (S k)) k) in Hp.
  destruct (Rle_lt_dec (D (S k) j) 0) as [Hle|Hgt]; [done|]. exfalso.
  set (A := D k (S k)) in *. set (B := D (S k) (S (S k))) in *.
  set (X := D (S k) j) in *. set (P := D k j) in *.
  set (Q := D (S (S k)) j) in *. set (C := D k (S (S k))) in *.
  assert (h1 : 0 < A * (Q + B - X)) by (apply Rmult_lt_0_compat; lra).
  assert (h2 : 0 <= (- B) * (X + A - P)) by (apply Rmult_le_pos; lra).
  assert (h3 : 0 < X * (B + A - C)) by (apply Rmult_lt_0_compat; lra).
  nra.
Qed.

End Convex.

Lemma sum_squares_zero (x y z : R) :
  x * x + y * y + z * z = 0 -> x = 0 /\ y = 0 /\ z = 0.
Proof.
  intros H.
  assert (Hx : x * x = 0) by nra. assert (Hy : y * y = 0) by nra.
  assert (Hz : z * z = 0) by nra.
  apply Rmult_integral in Hx, Hy, Hz. tauto.
Qed.

(** *** The test on a convex path *)

Section PointInPath.

Variable F : Path.
Variable p : Vect.
Hypothesis Hcw : convexWound F.

Let vs := vertices F.
Let us := map (fun v => V.add v (V.multiply p (-1))) vs.

Lemma us_length : length us = length vs.
Proof. apply length_map. Qed.

Lemma us_vertexAt (i : nat) :
  vertexAt us i = V.substract (vertexAt vs i) p.
Proof.
  unfold vertexAt. rewrite us_length. unfold us.
  assert (Hi : (i mod length vs < length vs)%nat).
  { apply Nat.mod_upper_bound. destruct Hcw as [H _]. fold vs in H. lia. }
  rewrite (nth_indep _ V.ZERO (V.add V.ZERO (V.multiply p (-1))))
    by (by rewrite length_map).
  by rewrite (map_nth (fun v => V.add v (V.multiply p (-1)))).
Qed.

Lemma edgeSide_mod (i : nat) (q : Vect) :
  edgeSide F (i mod length vs) q = edgeSide F i q.
Proof.
  unfold edgeSide. fold vs. rewrite vertexAt_mod.
  rewrite (vertexAt_congr vs (S (i mod length vs)) (S i)); [done|].
  replace (S (i mod length vs)) with (i mod length vs + 1)%nat by lia.
  replace (S i) with (i + 1)%nat by lia.
  by rewrite Nat.Div0.add_mod_idemp_l.
Qed.

Lemma edgeSide_point (i : nat) :
  edgeSide F i p = signed (normal F) (vertexAt us i) (vertexAt us (S i)).
Proof. unfold edgeSide. rewrite !us_vertexAt. apply signed_edge_point. Qed.

Lemma edgeSide_vertex (i j : nat) :
  edgeSide F i (vertexAt vs j)
  = signed (normal F) (vertexAt us (S i)) (vertexAt us j)
    + signed (normal F) (vertexAt us i) (vertexAt us (S i))
    - signed (normal F) (vertexAt us i) (vertexAt us j).
Proof. unfold edgeSide. rewrite !us_vertexAt. apply signed_edge. Qed.

Lemma us_convex (i j : nat) :
  j mod length us <> i mod length us ->
  j mod length us <> S i mod length us ->
  0 < signed (normal F) (vertexAt us (S i)) (vertexAt us j)
      + signed (normal F) (vertexAt us i) (vertexAt us (S i))
      - signed (normal F) (vertexAt us i) (vertexAt us j).
Proof.
  rewrite us_length. intros Hji Hjs. rewrite <- edgeSide_vertex.
  rewrite <- edgeSide_mod, <- (vertexAt_mod vs j).
  destruct Hcw as [Hlen Hconv]. fold vs in Hlen, Hconv.
  apply Hconv; try done; try (apply Nat.mod_upper_bound; lia).
  replace (S (i mod length vs)) with (i mod length vs + 1)%nat by lia.
  rewrite Nat.Div0.add_mod_idemp_l.
  by replace (i + 1)%nat with (S i) by lia.
Qed.

Lemma strictlyInside_edges :
  strictlyInside p F
  <-> forall i, 0 < signed (normal F) (vertexAt us i) (vertexAt us (S i)).
Proof.
  unfold strictlyInside. fold vs. split.
  - intros H i. rewrite <- edgeSide_point, <- edgeSide_mod.
    apply H, Nat.mod_upper_bound. destruct Hcw as [Hlen _]. fold vs in Hlen. lia.
  - intros H i _. rewrite edgeSide_point. apply H.
Qed.

(** The test does not throw on a convex path. *)
Lemma isPointInPath_Done :
  Collisions.isPointInPath p F
  = Done (negb (existsb
       (Collisions.vectorSeesAllOthersOnTheSameHalfPlane (normal F) us) us)).
Proof.
  unfold Collisions.isPointInPath, P.translate, P.call. fold vs. fold us.
  destruct Hcw as [Hlen Hconv]. fold vs in Hlen, Hconv.
  pose proof (Hconv 0%nat 2%nat ltac:(lia) ltac:(lia) ltac:(lia)) as H02.
  rewrite (Nat.mod_small 1) in H02 by lia. specialize (H02 ltac:(lia)).
  unfold edgeSide, vertexAt in H02. fold vs in H02.
  rewrite !Nat.mod_small in H02 by lia.
  unfold us.
  destruct vs as [|v0 [|v1 [|v2 rest]]]; simpl in Hlen; try lia.
  cbn [nth] in H02. cbn [map].
  match goal with
  | |- context [P.new (?a :: ?b :: ?c :: ?r)] =>
      destruct (new_Done a b c r) as [n' ->]; [|done]
  end.
  intros Hzero.
  assert (Hdot : signed (normal F) (V.substract v1 v0) (V.substract v2 v0) = 0);
    [|lra].
  revert Hzero.
  unfold signed, V.lengthSquared, V.dot, V.cross, V.substract, V.add,
    V.multiply. simpl.
  set (a := vx v1 + vx v0 * -1). set (b := vy v1 + vy v0 * -1).
  set (c := vz v1 + vz v0 * -1).
  intros Hzero.
  apply sum_squares_zero in Hzero as (Hx & Hy & Hz).
  unfold a, b, c in *.
  match type of Hx with ?X = 0 =>
  match type of Hy with ?Y = 0 =>
  match type of Hz with ?Z = 0 =>
    transitivity (vx (normal F) * X + vy (normal F) * Y + vz (normal F) * Z);
      [ring | rewrite Hx, Hy, Hz; ring]
  end end end.
Qed.

Lemma isPointInPath_true :
  Collisions.isPointInPath p F = Done true <-> strictlyInside p F.
Proof.
  rewrite isPointInPath_Done, strictlyInside_edges.
  destruct Hcw as [Hlen _]. fold vs in Hlen. rewrite <- us_length in Hlen.
  assert (Hsees : existsb (Collisions.vectorSeesAllOthersOnTheSameHalfPlane
                             (normal F) us) us = false
                  <-> forall u, u ∈ us ->
                        (exists w, w ∈ us /\ signed (normal F) u w < 0)
                        /\ (exists w, w ∈ us /\ 0 < signed (normal F) u w)).
  { rewrite <- not_true_iff_false, existsb_exists. split.
    - intros H u Hu. apply sees_spec. apply not_true_iff_false. intros Hs.
      apply H. exists u. split; [by apply list_elem_of_In | done].
    - intros H (u & Hu & Hs). apply list_elem_of_In in Hu.
      rewrite (proj2 (sees_spec (normal F) u us) (H u Hu)) in Hs. done. }
  split.
  - intros [= Hneg]. apply negb_true_iff in Hneg.
    pose proof (proj1 Hsees Hneg) as Hboth.
    intros i. destruct (Rle_lt_dec
      (signed (normal F) (vertexAt us i) (vertexAt us (S i))) 0) as [Hbad|]; [|done].
    exfalso.
    destruct (tangent_vertex_exists (normal F) us Hlen us_convex
                (ex_intro _ i Hbad)) as (k & HA & HB).
    pose proof (tangent_vertex (normal F) us Hlen us_convex k HA HB) as Hall.
    destruct (Hboth (vertexAt us (S k))) as [_ (w & Hw & Hpos)].
    { apply vertexAt_in. lia. }
    destruct (in_vertexAt us w Hw) as [j ->].
    specialize (Hall j). lra.
  - intros Hgood. f_equal. apply negb_true_iff, Hsees.
    by apply inside_sees_both.
Qed.

Lemma isPointInPath_false :
  Collisions.isPointInPath p F = Done false <-> ~ strictlyInside p F.
Proof.
  rewrite <- isPointInPath_true, isPointInPath_Done.
  destruct (existsb _ us); simpl; split; try done; intros H; by destruct H.
Qed.

Lemma onBoundary_not_inside : onBoundary p F -> ~ strictlyInside p F.
Proof.
  intros (i & k & Hi & _ & Hp) Hin. specialize (Hin i Hi).
  unfold edgeSide in Hin. fold vs in Hin, Hp. rewrite Hp in Hin.
  revert Hin. unfold signed, V.dot, V.cross, V.substract, V.add, V.multiply.
  simpl. nra.
Qed.

End PointInPath.

(** C4.  On a convex path wound with its normal, [isPointInPath] does not
    throw, answers [true] exactly for the points strictly on the inner
    side of every edge (a point off the plane of the path is judged by its
    projection along the normal), and so answers [false] for every point
    of an edge and for every vertex. *)
Theorem isPointInPath_convex (F : Path) (p : Vect) :
  convexWound F ->
  (Collisions.isPointInPath p F = Done true <-> strictlyInside p F)
  /\ (Collisions.isPointInPath p F = Done false <-> ~ strictlyInside p F)
  /\ (onBoundary p F -> Collisions.isPointInPath p F = Done false).
Proof.
  intros Hcw. split; [by apply isPointInPath_true|].
  split; [by apply isPointInPath_false|].
  intros Hb. apply isPointInPath_false; [done|].
  by apply onBoundary_not_inside.
Qed.

Lemma unitSquare_convexWound : convexWound unitSquare.
Proof.
  split; [simpl; lia|]. simpl. intros i j Hi Hj Hji Hjs.
  destruct i as [|[|[|[|i]]]]; try lia;
    destruct j as [|[|[|[|j]]]]; try lia; try (by destruct Hjs);
    cbv [edgeSide vertexAt unitSquare vertices normal length Nat.modulo
         Nat.divmod fst snd Nat.sub nth signed V.dot V.cross V.substract
         V.add V.multiply vx vy vz]; lra.
Qed.

(** The unit square is the path that the constructor builds from its
    vertices. *)
Lemma unitSquare_new : P.new (vertices unitSquare) = Done unitSquare.
Proof.
  unfold P.new, unitSquare, vertices, V.normalize.
  set (c := V.cross _ _).
  assert (Hc : V.lengthSquared c = 1).
  { unfold c, V.lengthSquared, V.dot, V.cross, V.substract, V.add, V.multiply.
    simpl. lra. }
  assert (Hl : V.length c = 1).
  { unfold V.length, pow_half. rewrite Hc. apply sqrt_1. }
  rewrite Hl, bool_decide_false by lra. cbn [obind].
  apply (f_equal Done), (f_equal2 mkPath); [done|].
  unfold c, V.cross, V.substract, V.add, V.multiply. simpl.
  apply (f_equal3 mkVect); lra.
Qed.

Lemma isPointInPath_convex_witness :
  convexWound unitSquare
  /\ (Collisions.isPointInPath (mkVect 0.5 0.5 0) unitSquare = Done true
      <-> strictlyInside (mkVect 0.5 0.5 0) unitSquare).
Proof.
  split; [exact unitSquare_convexWound|].
  exact (proj1 (isPointInPath_convex unitSquare (mkVect 0.5 0.5 0)
                  unitSquare_convexWound)).
Defined.
(** ** Termination of [update] *)

(** *** The remainder, the minimum and the floor *)

Section RealLemmas.

Lemma fmod_bounds (x m : R) : 0 <= x -> 0 < m -> 0 <= fmod x m < m.
Proof.
  intros Hx Hm. unfold fmod, trunc.
  assert (Hq : 0 <= x / m) by (by apply Rle_mult_inv_pos).
  rewrite bool_decide_true by done.
  pose proof (Zfloor_bound (x / m)) as [Hlo Hhi].
  assert (Hx' : x = m * (x / m)) by (field; lra).
  split; nra.
Qed.

Lemma fmod_abs (x m : R) : 0 < m -> fmod (Rabs x) m = Rabs (fmod x m).
Proof.
  intros Hm. destruct (Rle_lt_dec 0 x) as [Hx|Hx].
  - rewrite (Rabs_pos_eq x) by done.
    symmetry. apply Rabs_pos_eq. by apply fmod_bounds.
  - rewrite (Rabs_left x) by done.
    pose proof (fmod_bounds (- x) m ltac:(lra) Hm) as Hb.
    assert (Heq : fmod x m = - fmod (- x) m).
    { unfold fmod, trunc.
      assert (Hq : x / m < 0).
      { pose proof (Rinv_0_lt_compat m Hm). unfold Rdiv. nra. }
      rewrite (bool_decide_false (0 <= x / m)) by lra.
      assert (Hq' : 0 <= - x / m).
      { apply Rle_mult_inv_pos; lra. }
      rewrite (bool_decide_true (0 <= - x / m)) by done.
      replace (- (x / m)) with (- x / m) by (field; lra).
      rewrite opp_IZR. ring. }
    rewrite Heq, Rabs_Ropp. symmetry. apply Rabs_pos_eq. lra.
Qed.

Lemma min_list_le (e : R) (l : list R) : min_list e l <= e.
Proof.
  induction l as [|x l IH]; simpl; [lra|].
  etransitivity; [apply Rmin_r | exact IH].
Qed.

Lemma min_list_in (e : R) (l : list R) : min_list e l = e \/ min_list e l ∈ l.
Proof.
  induction l as [|x l IH]; [by left|].
  change (min_list e (x :: l)) with (Rmin x (min_list e l)).
  destruct (Rle_dec x (min_list e l)) as [H|H].
  - rewrite Rmin_left by done. right. apply list_elem_of_here.
  - rewrite Rmin_right by lra.
    destruct IH as [IH|IH]; [by left|]. right. by apply list_elem_of_further.
Qed.

Lemma min_list_all_le (e : R) (l : list R) (x : R) :
  x ∈ l -> min_list e l <= x.
Proof.
  induction l as [|y l IH]; simpl; intros Hin.
  - by apply not_elem_of_nil in Hin.
  - apply elem_of_cons in Hin as [->|Hin]; [apply Rmin_l|].
    etransitivity; [apply Rmin_r | by apply IH].
Qed.

Lemma min_list_lower (b e : R) (l : list R) :
  b <= e -> (forall x, x ∈ l -> b <= x) -> b <= min_list e l.
Proof.
  intros He Hl. destruct (min_list_in e l) as [-> | Hin]; [done | by apply Hl].
Qed.

Lemma min_list_pos (e : R) (l : list R) :
  0 < e -> (forall x, x ∈ l -> 0 < x) -> 0 < min_list e l.
Proof.
  intros He Hl. destruct (min_list_in e l) as [-> | Hin]; [done | by apply Hl].
Qed.

(** One unit less under the floor. *)
Lemma Zfloor_drop (x y : R) : y <= x - 1 -> (Zfloor y <= Zfloor x - 1)%Z.
Proof.
  intros H. pose proof (Zfloor_bound x) as [Hx1 Hx2].
  pose proof (Zfloor_bound y) as [Hy1 Hy2].
  apply Z.lt_succ_r, lt_IZR. rewrite succ_IZR, minus_IZR. lra.
Qed.

Lemma Zfloor_nonneg (x : R) : 0 <= x -> (0 <= Zfloor x)%Z.
Proof. intros H. by apply Zfloor_lub. Qed.

End RealLemmas.

(** *** Power-ups are consumed, never made, by [update] *)

Section PowerUpsLeft.

Import Game Sim.

Lemma sumMap_insert {A} (h : A -> nat) (m : gmap Z A) (k : Z) (v v' : A) :
  m !! k = Some v ->
  (sumMap h (<[k := v']> m) + h v = sumMap h m + h v')%nat.
Proof.
  intros Hk. unfold sumMap.
  assert (Hcomm : forall (m0 : gmap Z A) (j1 j2 : Z) (z1 z2 : A) (y : nat),
            j1 <> j2 -> m0 !! j1 = Some z1 -> m0 !! j2 = Some z2 ->
            (h z1 + (h z2 + y) = h z2 + (h z1 + y))%nat) by (intros; lia).
  rewrite <- (insert_delete_eq m k v') .
  rewrite (map_fold_insert_L _ _ k v' (delete k m))
    by (apply Hcomm || apply lookup_delete_eq).
  rewrite <- (insert_delete_id m k v Hk) at 2.
  rewrite (map_fold_insert_L _ _ k v (delete k m))
    by (apply Hcomm || apply lookup_delete_eq).
  lia.
Qed.

Lemma setCell_powerUpsLeft (w : World) (x y : Z) (c c' : Cell) :
  cellAt w x y = Some c ->
  (powerUpsLeft (setCell w x y c') + unconsumed c
   = powerUpsLeft w + unconsumed c')%nat.
Proof.
  unfold cellAt, setCell, powerUpsLeft.
  destruct (w !! y) as [row|] eqn:Hrow; [|done]. intros Hc.
  pose proof (sumMap_insert (sumMap unconsumed) w y row (<[x := c']> row) Hrow).
  pose proof (sumMap_insert unconsumed row x c c' Hc).
  lia.
Qed.

Lemma consume_powerUpsLeft now g xy :
  (Player.level (player (consume now g xy))
   + powerUpsLeft (tiles (consume now g xy))
   = Player.level (player g) + powerUpsLeft (tiles g))%nat.
Proof.
  unfold consume.
  destruct (cellAt (tiles g) xy.1 xy.2) as [[| |[] since]|] eqn:Hc; try done.
  pose proof (setCell_powerUpsLeft (tiles g) xy.1 xy.2 _
                (PowerUpTile true now) Hc) as H.
  simpl in *. lia.
Qed.

End PowerUpsLeft.

(** *** The speeds of the default settings *)

Section Speeds.

Lemma PI_pos : 0 < PI.
Proof. unfold PI. lra. Qed.

Lemma EPSILON_pos : 0 < EPSILON.
Proof. unfold EPSILON. lra. Qed.

Lemma statsVelocity_default (l : nat) :
  Player.statsVelocity defaultSettings l = SQRT2 * (INR l + 3).
Proof. unfold Player.statsVelocity. simpl. unfold SQRT2. lra. Qed.

Lemma angularVelocity_eq (l : nat) :
  angularVelocity l = SQRT2 * (INR l + 3) * PI.
Proof.
  unfold angularVelocity. rewrite statsVelocity_default. simpl.
  unfold SQRT2, PI. lra.
Qed.

Lemma angularVelocity_pos (l : nat) : 0 < angularVelocity l.
Proof.
  rewrite angularVelocity_eq. pose proof (pos_INR l) as Hl.
  pose proof SQRT2_pos as H2. pose proof PI_pos as Hp.
  assert (H3 : 0 < INR l + 3) by lra.
  pose proof (Rmult_lt_0_compat _ _ H2 H3) as H23.
  exact (Rmult_lt_0_compat _ _ H23 Hp).
Qed.

Lemma angularVelocity_mono (l l' : nat) :
  (l <= l')%nat -> angularVelocity l <= angularVelocity l'.
Proof.
  intros H. rewrite !angularVelocity_eq. apply le_INR in H.
  unfold SQRT2, PI. lra.
Qed.

Lemma turnTime_pos (l : nat) : 0 < turnTime l.
Proof.
  unfold turnTime. apply Rdiv_pos_pos; [|apply angularVelocity_pos].
  pose proof PI_pos. lra.
Qed.

Lemma turnTime_anti (l l' : nat) : (l <= l')%nat -> turnTime l' <= turnTime l.
Proof.
  intros H. unfold turnTime, Rdiv. pose proof PI_pos.
  apply Rmult_le_compat_l; [lra|].
  apply Rinv_le_contravar; [apply angularVelocity_pos|].
  by apply angularVelocity_mono.
Qed.

End Speeds.

(** *** The next event *)

Section NextEvent.

Import Game Sim.

Lemma fmod_0 (m : R) : fmod 0 m = 0.
Proof.
  unfold fmod, trunc. replace (0 / m) with 0 by (unfold Rdiv; ring).
  rewrite bool_decide_true by lra.
  rewrite (Zfloor_eq 0 0) by (simpl; lra). simpl. ring.
Qed.

(** The delay pushed by "Checking orientation" is positive, and is pushed
    only when the orientation is not the heading asked. *)
Lemma checkOrientation_facts (p : Player.Player) (a : R) (dO : R) (cw pushed : bool) :
  0 < Player.orientationAngularVelocity p ->
  checkOrientation p a = (dO, cw, pushed) ->
  (pushed = false -> dO = 0)
  /\ (pushed = true ->
      0 < dO /\ Player.inRotation p = false /\ Player.orientation p <> a).
Proof.
  intros Hw. unfold checkOrientation.
  destruct (Player.inRotation p); cbn [negb andb]; [by intros [= <- <- <-]|].
  case_bool_decide as Hmis; cbn [andb]; [|by intros [= <- <- <-]].
  assert (Hm : 0 < PI / 2) by (pose proof PI_pos; lra).
  rewrite <- fmod_abs in Hmis by done.
  pose proof (fmod_bounds (Rabs (a - Player.orientation p)) (PI / 2)
                (Rabs_pos _) Hm) as [Hlo Hhi].
  pose proof EPSILON_pos as Heps.
  set (diff := fmod (Rabs (a - Player.orientation p)) (PI / 2)) in *.
  assert (Hne : Player.orientation p <> a).
  { intros Heq. unfold diff in Hmis. rewrite Heq in Hmis.
    replace (a - a) with 0 in Hmis by ring.
    rewrite Rabs_R0, fmod_0 in Hmis. lra. }
  assert (H1 : 0 < diff / Player.orientationAngularVelocity p)
    by (apply Rdiv_pos_pos; lra).
  assert (H2 : 0 < (PI / 2 - diff) / Player.orientationAngularVelocity p)
    by (apply Rdiv_pos_pos; lra).
  case_bool_decide; intros [= <- <- <-]; by repeat split.
Qed.

Lemma nextEvent_facts (d : Vect) (e : R) (g : Game) :
  paceInvariant g -> 0 <= e ->
  let ev := nextEvent d e g in
  0 <= dt ev <= e
  /\ (0 < e -> 0 < dt ev)
  /\ (if Player.inRotation (player g)
      then dt ev <= dtRotation ev
           /\ dtRotation ev
              = turnTime (Player.level (player g)) - turned g
      else dtRotation ev = 0)
  /\ (dt ev = e
      \/ (Player.inRotation (player g) = true /\ dt ev = dtRotation ev)
      \/ EPSILON < dt ev
      \/ (Player.inRotation (player g) = false /\ misaligned d g = 1%Z
          /\ dt ev = dtOrientation ev))
  /\ angle ev = (if bool_decide (V.lengthSquared d > 0)
                 then atan2 (vy d) (vx d) else 0).
Proof.
  intros (Hst & Hside & Hrav & Hoav & Hrot) He. unfold nextEvent.
  pose proof (angularVelocity_pos (Player.level (player g))) as Hw.
  pose proof EPSILON_pos as Heps.
  set (p := player g) in *.
  set (dR := if Player.inRotation p
             then (PI / 2 - Player.rotation p) / Player.rotationAngularVelocity p
             else 0).
  set (dts1 := if Player.inRotation p then [dR] else []).
  set (dF := if Player.inAir p
             then -2 * vz (Player.velocity p) / vz (Player.acceleration p)
                  - (t g - Player.inAirSince p)
             else 0).
  set (dts2 := if Player.inAir p && bool_decide (dF > EPSILON)
               then [dF] else []).
  set (moving := bool_decide (V.lengthSquared d > 0)).
  set (a := if moving then atan2 (vy d) (vx d) else 0).
  destruct (if moving then checkOrientation p a else (0, false, false))
    as [[dO cw] pushed] eqn:Hco.
  set (dts3 := if pushed then [dO] else []).
  cbn [dt dtRotation dtOrientation angle].
  assert (HdR : Player.inRotation p = true ->
            0 < dR /\ dR = turnTime (Player.level p) - turned g).
  { intros Hin. destruct (Hrot Hin) as (Ht0 & Hr & Hlt).
    unfold dR, turnTime, turned in *. fold p in Hr, Ht0 |- *.
    rewrite Hin in *. rewrite Hrav, Hr.
    split; [apply Rdiv_pos_pos; lra|]. field. lra. }
  assert (HdO : (pushed = false -> dO = 0)
                /\ (pushed = true ->
                    0 < dO /\ moving = true /\ Player.inRotation p = false
                    /\ Player.orientation p <> a)).
  { destruct moving eqn:Hmv.
    - destruct (checkOrientation_facts p a dO cw pushed) as [H1 H2];
        [rewrite Hoav; lra | done |].
      split; [done|]. intros Hp. destruct (H2 Hp) as (? & ? & ?). done.
    - injection Hco as <- <- <-. done. }
  destruct HdO as [HdO0 HdO].
  assert (Hmis : pushed = true -> misaligned d g = 1%Z).
  { intros Hp. destruct (HdO Hp) as (_ & Hmv & _ & Hne).
    unfold misaligned. rewrite bool_decide_true; [done|].
    unfold moving in Hmv. apply bool_decide_eq_true in Hmv.
    split; [done|]. unfold a in Hne. fold p. unfold moving in Hne.
    by rewrite bool_decide_true in Hne by done. }
  set (l := dts1 ++ dts2 ++ dts3).
  assert (Hclass : forall x, x ∈ l ->
            0 < x
            /\ ((Player.inRotation p = true /\ x = dR) \/ EPSILON < x
                \/ (pushed = true /\ x = dO))).
  { intros x Hx. unfold l in Hx.
    apply elem_of_app in Hx as [Hx|Hx]; [|apply elem_of_app in Hx as [Hx|Hx]].
    - unfold dts1 in Hx. destruct (Player.inRotation p) eqn:Hin;
        [|by apply not_elem_of_nil in Hx].
      apply list_elem_of_singleton in Hx as ->.
      destruct (HdR eq_refl). split; [done | by left].
    - unfold dts2 in Hx.
      destruct (Player.inAir p && bool_decide (dF > EPSILON)) eqn:Hair;
        [|by apply not_elem_of_nil in Hx].
      apply list_elem_of_singleton in Hx as ->.
      apply andb_true_iff in Hair as [_ Hair].
      apply bool_decide_eq_true in Hair. split; [lra | right; left; lra].
    - unfold dts3 in Hx. destruct pushed eqn:Hp;
        [|by apply not_elem_of_nil in Hx].
      apply list_elem_of_singleton in Hx as ->.
      destruct (HdO eq_refl) as (? & _). split; [done | by right; right]. }
  pose proof (min_list_le e l) as Hle.
  assert (Hlo : 0 <= min_list e l).
  { apply min_list_lower; [done|]. intros x Hx. destruct (Hclass x Hx). lra. }
  split; [done|]. split.
  { intros Hpos. apply min_list_pos; [done|]. intros x Hx. by destruct (Hclass x Hx). }
  split.
  { destruct (Player.inRotation p) eqn:Hin; [|done].
    destruct (HdR eq_refl) as [_ HdReq]. split; [|done].
    change (min_list e l <= dR). apply min_list_all_le.
    apply elem_of_app. left. apply list_elem_of_here. }
  split.
  { destruct (min_list_in e l) as [Heq|Hin]; [by left|]. right.
    destruct (Hclass _ Hin) as [_ [Hc|[Hc|[Hp Hc]]]].
    - by left.
    - by right; left.
    - right; right. destruct (HdO Hp) as (_ & _ & Hnr & _).
      split; [done|]. split; [by apply Hmis | done]. }
  done.
Qed.

End NextEvent.

(** *** The blocks of [update], one by one *)

Section Blocks.

Import Game Sim.

Lemma resolveEvent_pace (ev : Event) (g : Game) :
  exists g1, resolveEvent ev g = (Done tt, g1)
    /\ t g1 = t g + dt ev /\ tiles g1 = tiles g
    /\ Player.settings (player g1) = Player.settings (player g)
    /\ Player.side (player g1) = Player.side (player g)
    /\ Player.level (player g1) = Player.level (player g)
    /\ Player.rotationAngularVelocity (player g1)
       = Player.rotationAngularVelocity (player g)
    /\ Player.orientationAngularVelocity (player g1)
       = Player.orientationAngularVelocity (player g)
    /\ Player.orientation (player g1)
       = (if bool_decide (dt ev = dtOrientation ev) then angle ev
          else Player.orientation (player g))
    /\ (if bool_decide (dt ev = dtRotation ev)
        then Player.inRotation (player g1) = false
        else Player.inRotation (player g1) = Player.inRotation (player g)
             /\ Player.inRotationSince (player g1)
                = Player.inRotationSince (player g)
             /\ (Player.inRotation (player g) = true ->
                 Player.rotation (player g1)
                 = (t g + dt ev - Player.inRotationSince (player g))
                   * Player.rotationAngularVelocity (player g))).
Proof.
  unfold resolveEvent, bind, gets, onPlayer, modify, when, ret.
  cbn [fst snd t player set_t set_player].
  destruct (bool_decide (dt ev = dtRotation ev)) eqn:HR;
    destruct (bool_decide (dt ev = dtFalling ev)) eqn:HF;
    destruct (bool_decide (dt ev = dtOrientation ev)) eqn:HO;
    destruct (Player.inRotation (player g)) eqn:Hrot;
    destruct (Player.inAir (player g)) eqn:Hair;
    cbn [fst snd t player set_t set_player Player.inAir Player.inRotation
         Player.endRotation Player.updateRotation Player.set_inRotation
         Player.set_rotation Player.set_position];
    rewrite ?Hair; 
    (eexists; split; [reflexivity|]); simpl; rewrite ?Hrot; by repeat split.
Qed.

Lemma consume_pace now g xy :
  turn (consume now g xy) = turn g
  /\ (speedsOfLevel g -> speedsOfLevel (consume now g xy)).
Proof.
  unfold consume.
  destruct (cellAt (tiles g) xy.1 xy.2) as [[| |[] since]|]; try done.
  split; [done|]. intros (Hst & Hside & _ & _).
  unfold speedsOfLevel, angularVelocity. simpl. rewrite Hst, Hside. done.
Qed.

Lemma consumeAll_pace now these g :
  turn (foldl (consume now) g these) = turn g
  /\ (speedsOfLevel g -> speedsOfLevel (foldl (consume now) g these))
  /\ (Player.level (player (foldl (consume now) g these))
      + powerUpsLeft (tiles (foldl (consume now) g these))
      = Player.level (player g) + powerUpsLeft (tiles g))%nat.
Proof.
  revert g. induction these as [|xy these IH]; intros g; [done|].
  cbn [foldl]. destruct (IH (consume now g xy)) as (H1 & H2 & H3).
  destruct (consume_pace now g xy) as (H4 & H5).
  pose proof (consume_powerUpsLeft now g xy) as H6.
  split; [congruence|]. split; [auto | lia].
Qed.

Lemma checkCollisions_pace (g1 : Game) :
  exists o g2, checkCollisions g1 = (o, g2)
    /\ turn g2 = turn g1
    /\ (speedsOfLevel g1 -> speedsOfLevel g2)
    /\ (Player.level (player g2) + powerUpsLeft (tiles g2)
        = Player.level (player g1) + powerUpsLeft (tiles g1))%nat
    /\ (Player.inRotation (player g1) = true -> pace g2 = pace g1).
Proof.
  unfold checkCollisions, bind, gets, onPlayer, modify, when, ret.
  cbn [fst snd].
  destruct (bool_decide (vz (Player.position (player g1)) = 0));
    [|by eexists _, _].
  destruct (playerIsOnTheseTiles g1) as [[|xy these]|err];
    [| |by eexists _, _].
  - destruct (negb (Player.inAir (player g1))); by eexists _, _.
  - cbn [fst snd player set_player].
    destruct (Player.inRotation (Player.land (player g1))) eqn:Hrot;
      cbn [negb]; [by eexists _, _|].
    eexists _, _. split; [reflexivity|].
    match goal with
    | |- context [foldl (consume ?now) ?g0 ?l] =>
        destruct (consumeAll_pace now l g0) as (H1 & H2 & H3)
    end.
    split; [by rewrite H1|]. split; [|split; [by rewrite H3|]].
    + intros Hs. by apply H2.
    + simpl in Hrot. congruence.
Qed.

Lemma examineInputs_pace inputs (g : Game) :
  exists g', examineInputs inputs g = (Done tt, g') /\ pace g' = pace g.
Proof.
  unfold examineInputs, bind, gets, onPlayer, modify, when, ret.
  cbn [fst snd].
  destruct (jump inputs || jumpQueued g); [|by eexists].
  destruct (negb (Player.inAir (player g)) && negb (Player.inRotation (player g)));
    [by eexists|].
  destruct (negb (Player.inAir (player g))); by eexists.
Qed.

Lemma settle_pace (g : Game) :
  exists g', settle g = (Done tt, g') /\ pace g' = pace g.
Proof.
  unfold settle, bind, gets, modify, when, ret. cbn [fst snd].
  match goal with
  | |- exists g', (if ?c then _ else _) _ = _ /\ _ => destruct c
  end; by eexists.
Qed.

(** "Changing orientation": the orientation that agrees with the heading
    asked stays; in a quarter turn nothing moves; and a quarter turn
    begins at the present time. *)
Lemma changeOrientation_pace (d : Vect) (ev : Event) (g : Game) :
  exists g', changeOrientation d ev g = (Done tt, g')
    /\ t g' = t g /\ tiles g' = tiles g
    /\ Player.settings (player g') = Player.settings (player g)
    /\ Player.side (player g') = Player.side (player g)
    /\ Player.level (player g') = Player.level (player g)
    /\ Player.rotationAngularVelocity (player g')
       = Player.rotationAngularVelocity (player g)
    /\ Player.orientationAngularVelocity (player g')
       = Player.orientationAngularVelocity (player g)
    /\ (Player.inRotation (player g) = true -> pace g' = pace g)
    /\ (Player.inRotation (player g) = false ->
        Player.inRotation (player g') = true ->
        Player.inRotationSince (player g') = t g
        /\ Player.rotation (player g') = 0)
    /\ (Player.orientation (player g) = angle ev ->
        Player.orientation (player g') = angle ev).
Proof.
  unfold changeOrientation, bind, gets, onPlayer, modify, when, ret.
  cbn [fst snd].
  destruct (bool_decide (V.lengthSquared d > 0)); cbn [andb].
  2:{ eexists. split; [reflexivity|]. repeat split; try done; congruence. }
  destruct (Player.inRotation (player g)) eqn:Hrot; cbn [negb].
  { eexists. split; [reflexivity|]. repeat split; try done; congruence. }
  case_bool_decide as Hal.
  - cbn [fst snd player set_player].
    destruct (Player.inAir (Player.setOrientation (angle ev) (player g)));
      cbn [negb fst snd player set_player];
      match goal with
      | |- exists g', (let (_, _) := (if ?c then _ else _) _ in _) = _ /\ _ =>
          destruct c
      | |- exists g', (if ?c then _ else _) _ = _ /\ _ => destruct c
      end; eexists; (split; [reflexivity|]); simpl; rewrite ?Hrot;
      repeat split; try done; congruence.
  - cbn [fst snd player set_player].
    match goal with
    | |- exists g', (if ?c then _ else _) _ = _ /\ _ => destruct c
    end; eexists; (split; [reflexivity|]); simpl; rewrite ?Hrot;
      repeat split; try done.
    all: intros Heq; exfalso; apply Hal; rewrite Heq;
      replace (angle ev - angle ev) with 0 by ring;
      rewrite fmod_0, Rabs_R0; apply EPSILON_pos.
Qed.

End Blocks.

(** *** One call: the invariant and the measure *)

Section OneCall.

Import Game Sim.

Lemma pace_turn g g' : pace g' = pace g -> turn g' = turn g.
Proof. unfold pace, turn. intros [= -> _ -> -> _ _ _ -> -> -> ->]. done. Qed.

Lemma pace_speedsOfLevel g g' :
  pace g' = pace g -> speedsOfLevel g -> speedsOfLevel g'.
Proof.
  unfold pace, speedsOfLevel. intros [= _ _ -> -> -> -> -> _ _ _ _]. done.
Qed.

Lemma pace_levels g g' :
  pace g' = pace g ->
  Player.level (player g') = Player.level (player g)
  /\ tiles g' = tiles g.
Proof. unfold pace. intros [= _ -> _ _ -> _ _ _ _ _ _]. done. Qed.

Lemma turn_turned g g' : turn g' = turn g -> turned g' = turned g.
Proof. unfold turn, turned. intros [= -> _ _ _ _ -> ->]. done. Qed.

Lemma turn_fields g g' :
  turn g' = turn g ->
  t g' = t g
  /\ Player.orientation (player g') = Player.orientation (player g)
  /\ Player.rotation (player g') = Player.rotation (player g)
  /\ Player.inRotation (player g') = Player.inRotation (player g)
  /\ Player.inRotationSince (player g') = Player.inRotationSince (player g).
Proof. unfold turn. intros [= -> _ _ -> -> -> ->]. done. Qed.

(** The invariant is made of the speeds and of the quarter turn. *)
Lemma paceInvariant_split g :
  paceInvariant g
  <-> speedsOfLevel g
      /\ (Player.inRotation (player g) = true ->
          0 <= turned g
          /\ Player.rotation (player g)
             = turned g * angularVelocity (Player.level (player g))
          /\ Player.rotation (player g) < PI / 2).
Proof. unfold paceInvariant, speedsOfLevel. tauto. Qed.

Lemma paceInvariant_pace g g' :
  pace g' = pace g -> paceInvariant g -> paceInvariant g'.
Proof.
  intros Hp. rewrite !paceInvariant_split. intros [Hs Hr].
  split; [by eapply pace_speedsOfLevel|].
  rewrite (turn_turned g g') by (by apply pace_turn).
  destruct (turn_fields g g' (pace_turn _ _ Hp)) as (_ & _ & -> & -> & _).
  by destruct (pace_levels g g' Hp) as [-> _].
Qed.

Lemma misaligned_cases d g : (misaligned d g = 0 \/ misaligned d g = 1)%Z.
Proof. unfold misaligned. case_bool_decide; auto. Qed.

Lemma misaligned_0 d g :
  (V.lengthSquared d > 0 -> Player.orientation (player g) = atan2 (vy d) (vx d)) ->
  misaligned d g = 0%Z.
Proof.
  intros H. unfold misaligned. rewrite bool_decide_false; [done|].
  intros [Hm Hne]. by apply Hne, H.
Qed.

Lemma misaligned_0_inv d g :
  misaligned d g = 0%Z -> V.lengthSquared d > 0 ->
  Player.orientation (player g) = atan2 (vy d) (vx d).
Proof.
  unfold misaligned. case_bool_decide as H; [done|]. intros _ Hm.
  apply NNPP. intros Hne. by apply H.
Qed.

Lemma stepsLeft_nonneg d e g :
  paceInvariant g -> 0 <= e -> (0 <= stepsLeft d e g)%Z.
Proof.
  intros Hinv He. unfold stepsLeft.
  pose proof EPSILON_pos.
  assert (0 <= turned g).
  { unfold turned. destruct (Player.inRotation (player g)) eqn:Hr; [|lra].
    destruct Hinv as (_ & _ & _ & _ & Hrot). destruct (Hrot Hr) as [H0 _].
    unfold turned in H0. by rewrite Hr in H0. }
  pose proof (turnTime_pos (Player.level (player g) + powerUpsLeft (tiles g))).
  assert (0 <= Zfloor (e / EPSILON))%Z
    by (apply Zfloor_nonneg, Rle_mult_inv_pos; lra).
  assert (0 <= Zfloor ((e + turned g)
            / turnTime (Player.level (player g) + powerUpsLeft (tiles g))))%Z
    by (apply Zfloor_nonneg, Rle_mult_inv_pos; lra).
  destruct (misaligned_cases d g); lia.
Qed.

Lemma untilInputs_eval inputs e g d g1 o2 g2 :
  readDirection inputs = Done d ->
  resolveEvent (nextEvent d e g) g = (Done tt, g1) ->
  checkCollisions g1 = (o2, g2) ->
  untilInputs inputs e g
  = (match o2 with
     | Done _ => Done (d, nextEvent d e g)
     | Throw err => Throw err
     end, g2).
Proof.
  intros Hd H1 H2. unfold untilInputs, bind, lift, gets, ret.
  rewrite Hd, H1, H2. by destruct o2.
Qed.

Lemma fromInputs_eval inputs de g2 g3 g4 g5 :
  examineInputs inputs g2 = (Done tt, g3) ->
  changeOrientation de.1 de.2 g3 = (Done tt, g4) ->
  settle g4 = (Done tt, g5) ->
  fromInputs inputs de g2 = (Done (dt de.2), g5).
Proof.
  intros H3 H4 H5. unfold fromInputs, bind, ret. by rewrite H3, H4, H5.
Qed.

(** The invariant after "Finishing rotation". *)
Lemma resolveEvent_invariant d e g g1 :
  paceInvariant g -> 0 <= e ->
  resolveEvent (nextEvent d e g) g = (Done tt, g1) ->
  paceInvariant g1
  /\ t g1 = t g + dt (nextEvent d e g)
  /\ tiles g1 = tiles g
  /\ Player.level (player g1) = Player.level (player g)
  /\ Player.orientation (player g1)
     = (if bool_decide (dt (nextEvent d e g) = dtOrientation (nextEvent d e g))
        then angle (nextEvent d e g) else Player.orientation (player g))
  /\ (if bool_decide (dt (nextEvent d e g) = dtRotation (nextEvent d e g))
      then Player.inRotation (player g1) = false
      else Player.inRotation (player g1) = Player.inRotation (player g)
           /\ turned g1
              = (if Player.inRotation (player g)
                 then turned g + dt (nextEvent d e g) else 0)).
Proof.
  intros Hinv He Hres.
  destruct (nextEvent_facts d e g Hinv He) as (Hdt & _ & HR & _).
  destruct (resolveEvent_pace (nextEvent d e g) g)
    as (g1' & Hres' & Ht & Htl & Hst & Hsd & Hlv & Hrav & Hoav & Hor & Hrot).
  rewrite Hres in Hres'. injection Hres' as <-.
  set (ev := nextEvent d e g) in *.
  pose proof Hinv as (Ist & Isd & Irav & Ioav & Irot).
  assert (Hspeeds : speedsOfLevel g1).
  { unfold speedsOfLevel. rewrite Hst, Hsd, Hlv, Hrav, Hoav. done. }
  split; [|split; [done|split; [done|split; [done|split; [done|]]]]].
  - apply paceInvariant_split. split; [done|]. intros Hin1.
    destruct (bool_decide (dt ev = dtRotation ev)) eqn:HdR; [congruence|].
    destruct Hrot as (Hin & Hsince & Hrotation).
    rewrite Hin1 in Hin. symmetry in Hin. specialize (Hrotation Hin).
    destruct (Irot Hin) as (I0 & Ir & Ilt).
    rewrite Hin in HR. destruct HR as [Hle HdReq].
    apply bool_decide_eq_false in HdR.
    assert (Hturned : turned g1 = turned g + dt ev).
    { unfold turned. rewrite Hin1, Hin, Ht, Hsince. ring. }
    pose proof (angularVelocity_pos (Player.level (player g))) as Hw.
    rewrite Hturned, Hlv. split; [lra|]. split.
    + rewrite Hrotation, Irav. unfold turned. rewrite Hin. ring.
    + rewrite Hrotation, Irav.
      replace (t g + dt ev - Player.inRotationSince (player g))
        with (turned g + dt ev) by (unfold turned; rewrite Hin; ring).
      assert (Hlt : turned g + dt ev < turnTime (Player.level (player g)))
        by lra.
      unfold turnTime in Hlt.
      apply (Rmult_lt_compat_r _ _ _ Hw) in Hlt.
      replace (PI / 2 / angularVelocity (Player.level (player g))
               * angularVelocity (Player.level (player g)))
        with (PI / 2) in Hlt by (field; lra).
      done.
  - destruct (bool_decide (dt ev = dtRotation ev)); [done|].
    destruct Hrot as (Hin & Hsince & _). split; [done|].
    unfold turned. rewrite Hin, Ht, Hsince.
    destruct (Player.inRotation (player g)); [ring | done].
Qed.

(** One call of [update] keeps the invariant, takes a time between 0 and
    the time given (more than 0 when some is given), and, when it leaves
    more than [EPSILON], lowers the measure. *)
Lemma step_pace inputs e g :
  paceInvariant g -> 0 <= e ->
  exists o g', step inputs e g = (o, g') /\ paceInvariant g'
    /\ match o with
       | Throw _ => True
       | Done dt' =>
           0 <= dt' <= e /\ (0 < e -> 0 < dt')
           /\ t g' = t g + dt'
           /\ forall d, readDirection inputs = Done d ->
                EPSILON < e - dt' ->
                (stepsLeft d (e - dt') g' < stepsLeft d e g)%Z
       end.
Proof.
  intros Hinv He.
  destruct (readDirection inputs) as [d|err] eqn:Hd.
  2:{ exists (Throw err), g. split; [|done].
      unfold step, untilInputs, bind, lift. by rewrite Hd. }
  set (ev := nextEvent d e g).
  destruct (resolveEvent_pace ev g) as (g1 & Hres & _).
  destruct (resolveEvent_invariant d e g g1 Hinv He Hres)
    as (Hinv1 & Ht1 & Htl1 & Hlv1 & Hor1 & Hrot1). fold ev in Ht1, Hor1, Hrot1.
  destruct (checkCollisions_pace g1)
    as (o2 & g2 & Hcc & Hturn2 & Hsp2 & Hcons2 & Hpace2).
  destruct (turn_fields g1 g2 Hturn2) as (Ht2 & Hor2 & Hro2 & Hin2 & Hsi2).
  assert (Hinv2 : paceInvariant g2).
  { destruct (Player.inRotation (player g1)) eqn:Hin1.
    - by apply (paceInvariant_pace g1 g2 (Hpace2 eq_refl)).
    - apply paceInvariant_split. split; [|congruence].
      apply Hsp2. by apply paceInvariant_split in Hinv1 as [? _]. }
  pose proof (untilInputs_eval inputs e g d g1 o2 g2 Hd Hres Hcc) as Huntil.
  destruct o2 as [[]|err].
  2:{ exists (Throw err), g2. split; [|done].
      unfold step, bind. by rewrite Huntil. }
  destruct (examineInputs_pace inputs g2) as (g3 & Hex & Hpace3).
  destruct (changeOrientation_pace d ev g3)
    as (g4 & Hch & Ht4 & Htl4 & Hst4 & Hsd4 & Hlv4 & Hrav4 & Hoav4
        & Hrot4 & Hbegin4 & Hor4).
  destruct (settle_pace g4) as (g5 & Hse & Hpace5).
  exists (Done (dt ev)), g5. split.
  { unfold step, bind. rewrite Huntil.
    by apply (fromInputs_eval inputs (d, ev) g2 g3 g4 g5). }
  pose proof (paceInvariant_pace g2 g3 Hpace3 Hinv2) as Hinv3.
  destruct (turn_fields g2 g3 (pace_turn _ _ Hpace3))
    as (Ht3 & Hor3 & Hro3 & Hin3 & Hsi3).
  destruct (pace_levels g2 g3 Hpace3) as (Hlv3 & Htl3).
  assert (Hturned4 : turned g4
                     = if Player.inRotation (player g3) then turned g3 else 0).
  { destruct (Player.inRotation (player g3)) eqn:Hin3'.
    - by apply turn_turned, pace_turn, Hrot4.
    - unfold turned. destruct (Player.inRotation (player g4)) eqn:Hin4; [|done].
      destruct (Hbegin4 eq_refl eq_refl) as [-> _]. rewrite Ht4. ring. }
  assert (Hinv4 : paceInvariant g4).
  { destruct (Player.inRotation (player g3)) eqn:Hin3'.
    - by apply (paceInvariant_pace g3 g4 (Hrot4 eq_refl)).
    - apply paceInvariant_split. split.
      + apply paceInvariant_split in Hinv3 as [(I1 & I2 & I3 & I4) _].
        unfold speedsOfLevel. rewrite Hst4, Hsd4, Hlv4, Hrav4, Hoav4. done.
      + intros Hin4. destruct (Hbegin4 eq_refl Hin4) as [_ Hr0].
        rewrite Hturned4, Hr0. pose proof PI_pos. split; [lra|]. split; lra. }
  pose proof (paceInvariant_pace g4 g5 Hpace5 Hinv4) as Hinv5.
  split; [exact Hinv5|].
  destruct (nextEvent_facts d e g Hinv He) as (Hdt & Hpos & HR & Hcase & Hangle).
  fold ev in Hdt, Hpos, HR, Hcase, Hangle.
  split; [exact Hdt|]. split; [exact Hpos|].
  split.
  { destruct (turn_fields g4 g5 (pace_turn _ _ Hpace5)) as (-> & _).
    by rewrite Ht4, Ht3, Ht2. }
  intros d' Hd' Hmore. injection Hd' as <-.
  (* the levels and the power-ups left *)
  destruct (pace_levels g4 g5 Hpace5) as (Hlv5 & Htl5).
  assert (Hsum : (Player.level (player g5) + powerUpsLeft (tiles g5)
                  = Player.level (player g) + powerUpsLeft (tiles g))%nat).
  { rewrite Hlv5, Htl5, Hlv4, Htl4, Hlv3, Htl3, Hcons2, Hlv1, Htl1. done. }
  (* the quarter turn under way *)
  assert (Hturned_g : 0 <= turned g).
  { unfold turned. destruct (Player.inRotation (player g)) eqn:Hr; [|lra].
    destruct Hinv as (_ & _ & _ & _ & Hrot). destruct (Hrot Hr) as [H0 _].
    unfold turned in H0. by rewrite Hr in H0. }
  assert (Hturned5 : turned g5
                     = if Player.inRotation (player g1) then turned g1 else 0).
  { rewrite (turn_turned g4 g5 (pace_turn _ _ Hpace5)), Hturned4.
    rewrite Hin3, Hin2.
    by rewrite (turn_turned g2 g3 (pace_turn _ _ Hpace3)),
               (turn_turned g1 g2 Hturn2). }
  assert (HT5 : turned g5 <= turned g + dt ev
                /\ (dt ev = dtRotation ev -> turned g5 = 0)).
  { rewrite Hturned5.
    destruct (decide (dt ev = dtRotation ev)) as [HdR|HdR].
    - rewrite (bool_decide_true _ HdR) in Hrot1. rewrite Hrot1.
      split; [lra | done].
    - rewrite (bool_decide_false _ HdR) in Hrot1.
      destruct Hrot1 as [Hin1 Htu1]. rewrite Hin1, Htu1.
      split; [|done]. destruct (Player.inRotation (player g)); lra. }
  destruct HT5 as [HT5 HT5R].
  (* the orientation *)
  assert (Hor5 : Player.orientation (player g1) = angle ev ->
                 Player.orientation (player g5) = angle ev).
  { intros H1.
    destruct (turn_fields g4 g5 (pace_turn _ _ Hpace5)) as (_ & -> & _).
    apply Hor4. by rewrite Hor3, Hor2. }
  assert (HC0 : Player.orientation (player g1) = angle ev ->
                misaligned d g5 = 0%Z).
  { intros H1. apply misaligned_0. intros Hm. rewrite (Hor5 H1), Hangle.
    by rewrite bool_decide_true. }
  assert (HC : (misaligned d g5 <= misaligned d g)%Z).
  { destruct (misaligned_cases d g) as [H0|H1];
      [|destruct (misaligned_cases d g5); lia].
    rewrite H0. cut (misaligned d g5 = 0%Z); [lia|].
    destruct (decide (V.lengthSquared d > 0)) as [Hm|Hm].
    - apply HC0. rewrite Hor1.
      destruct (decide (dt ev = dtOrientation ev)) as [HdO|HdO];
        [by rewrite (bool_decide_true _ HdO)|].
      rewrite (bool_decide_false _ HdO), Hangle, bool_decide_true by done.
      by apply misaligned_0_inv.
    - apply misaligned_0. by intros ?. }
  (* the three terms of the measure *)
  unfold stepsLeft. rewrite Hsum.
  set (cm := turnTime (Player.level (player g) + powerUpsLeft (tiles g))).
  pose proof (turnTime_pos (Player.level (player g) + powerUpsLeft (tiles g)))
    as Hcm. fold cm in Hcm.
  pose proof EPSILON_pos as Heps.
  assert (HA : (Zfloor ((e - dt ev) / EPSILON) <= Zfloor (e / EPSILON))%Z).
  { apply Zfloor_le. apply Rmult_le_compat_r; [|lra].
    apply Rlt_le. by apply Rinv_0_lt_compat. }
  assert (HB : (Zfloor ((e - dt ev + turned g5) / cm)
                <= Zfloor ((e + turned g) / cm))%Z).
  { apply Zfloor_le. apply Rmult_le_compat_r; [|lra].
    apply Rlt_le. by apply Rinv_0_lt_compat. }
  destruct Hcase as [Hend|[[Hin HdR]|[Hfall|(Hnr & Hmis & HdO)]]].
  - lra.
  - cut (Zfloor ((e - dt ev + turned g5) / cm)
         <= Zfloor ((e + turned g) / cm) - 1)%Z; [lia|].
    apply Zfloor_drop. rewrite (HT5R HdR). rewrite Hin in HR.
    destruct HR as [_ HdReq].
    pose proof (turnTime_anti (Player.level (player g))
                  (Player.level (player g) + powerUpsLeft (tiles g))
                  ltac:(lia)) as Hanti. fold cm in Hanti.
    replace ((e + turned g) / cm - 1) with ((e + turned g - cm) / cm)
      by (field; lra).
    apply Rmult_le_compat_r; [|lra].
    apply Rlt_le. by apply Rinv_0_lt_compat.
  - cut (Zfloor ((e - dt ev) / EPSILON) <= Zfloor (e / EPSILON) - 1)%Z; [lia|].
    apply Zfloor_drop.
    replace (e / EPSILON - 1) with ((e - EPSILON) / EPSILON) by (field; lra).
    apply Rmult_le_compat_r; [|lra].
    apply Rlt_le. by apply Rinv_0_lt_compat.
  - cut (misaligned d g5 = 0%Z); [lia|].
    apply HC0. rewrite Hor1. by rewrite bool_decide_true.
Qed.

End OneCall.

(** *** The chain of calls *)

Section Chain.

Import Game Sim.

Lemma generateWorld_paceInvariant start end_ g :
  paceInvariant g -> paceInvariant (generateWorld start end_ g).
Proof. by intros H. Qed.

Lemma new_paceInvariant seed : paceInvariant (Game.new defaultSettings seed).
Proof.
  apply generateWorld_paceInvariant.
  repeat split; try done.
Qed.

Lemma step_paceInvariant inputs e g :
  paceInvariant g -> 0 <= e -> paceInvariant (step inputs e g).2.
Proof.
  intros Hinv He.
  destruct (step_pace inputs e g Hinv He) as (o & g' & -> & Hinv' & _).
  exact Hinv'.
Qed.

Lemma run_paceInvariant g g' : run g g' -> paceInvariant g -> paceInvariant g'.
Proof.
  induction 1 as [|g1 g2 g3 Hcall _ IH]; [done|].
  intros Hinv. apply IH. destruct Hcall as [g1 start end_|g1 inputs e He].
  - by apply generateWorld_paceInvariant.
  - by apply step_paceInvariant.
Qed.

Lemma reachable_paceInvariant g :
  reachable defaultSettings g -> paceInvariant g.
Proof.
  intros (seed & _ & Hrun).
  eapply run_paceInvariant; [exact Hrun | apply new_paceInvariant].
Qed.

Lemma reachable_step st inputs e g :
  reachable st g -> 0 <= e -> reachable st (step inputs e g).2.
Proof.
  intros (seed & Hseed & Hrun) He. exists seed. split; [done|].
  eapply rtc_r; [exact Hrun | by apply call_update].
Qed.

(** Fuel above the measure is enough: the chain of calls ends, in a game
    of the same run, and when it returns the time of the game has
    advanced by the time given, up to [EPSILON]. *)
Lemma update_fuel n : forall inputs e g d,
  readDirection inputs = Done d ->
  paceInvariant g -> 0 <= e ->
  (stepsLeft d e g <= Z.of_nat n)%Z ->
  exists o g', update (S n) inputs e g = Some (o, g')
    /\ run g g'
    /\ (o = Done tt -> e - EPSILON <= t g' - t g <= e).
Proof.
  induction n as [|n IH]; intros inputs e g d Hd Hinv He Hn;
    destruct (step_pace inputs e g Hinv He)
      as (o & g' & Hstep & Hinv' & Ho);
    (assert (Hcall : run g g')
      by (apply rtc_once; replace g' with (step inputs e g).2
            by (by rewrite Hstep); by apply call_update));
    cbn [update]; rewrite Hstep;
    (destruct o as [dt'|err];
      [|by exists (Throw err), g']);
    destruct Ho as (Hdt & _ & Ht & Hless);
    (destruct (decide (e - dt' > EPSILON)) as [Hmore|Hmore];
      [rewrite (bool_decide_true _ Hmore)
      |rewrite (bool_decide_false _ Hmore); exists (Done tt), g';
       split; [done|]; split; [done|]; intros _; lra]);
    pose proof (Hless d Hd Hmore) as Hlt;
    pose proof (stepsLeft_nonneg d (e - dt') g' Hinv' ltac:(lra)) as H0.
  - lia.
  - destruct (IH inputs (e - dt') g' d Hd Hinv' ltac:(lra) ltac:(lia))
      as (o & g'' & Hup & Hrun & Htime).
    exists o, g''. split; [done|]. split; [by etrans|].
    intros Ho. specialize (Htime Ho). lra.
Qed.

(** C2.  For a game met in a run with the default settings and a time
    that is not negative, the chain of calls of [update] ends: some
    number of calls gives a result, the game left belongs to the same
    run, and when [update] returns the time of the game has advanced by
    the time given, up to [EPSILON].  Each call takes a time [dt] between
    0 and the time it was given, more than 0 when that time is, advances
    the time of the game by [dt], and calls [update] again exactly when
    more than [EPSILON] is left. *)
Theorem update_terminates inputs elapsedTime g :
  reachable defaultSettings g -> 0 <= elapsedTime ->
  (exists fuel o g',
      update fuel inputs elapsedTime g = Some (o, g')
      /\ reachable defaultSettings g'
      /\ (o = Done tt ->
          elapsedTime - EPSILON <= t g' - t g <= elapsedTime))
  /\ (forall dt g',
        step inputs elapsedTime g = (Done dt, g') ->
        0 <= dt <= elapsedTime
        /\ (0 < elapsedTime -> 0 < dt)
        /\ t g' = t g + dt
        /\ reachable defaultSettings g'
        /\ forall fuel,
             update (S fuel) inputs elapsedTime g
             = if bool_decide (elapsedTime - dt > EPSILON)
               then update fuel inputs (elapsedTime - dt) g'
               else Some (Done tt, g')).
Proof.
  intros Hreach He.
  pose proof (reachable_paceInvariant g Hreach) as Hinv.
  split.
  - destruct (readDirection inputs) as [d|err] eqn:Hd.
    + destruct (update_fuel (Z.to_nat (stepsLeft d elapsedTime g))
                  inputs elapsedTime g d Hd Hinv He ltac:(lia))
        as (o & g' & Hup & Hrun & Htime).
      exists (S (Z.to_nat (stepsLeft d elapsedTime g))), o, g'.
      split; [done|]. split; [|done].
      destruct Hreach as (seed & Hseed & Hrun0).
      exists seed. split; [done|]. by etrans.
    + exists 1%nat, (Throw err), g. split; [|done].
      cbn [update]. unfold step, untilInputs, bind, lift. by rewrite Hd.
  - intros dt' g' Hstep.
    destruct (step_pace inputs elapsedTime g Hinv He)
      as (o & g1 & Hstep1 & _ & Ho).
    rewrite Hstep in Hstep1. injection Hstep1 as <- <-.
    destruct Ho as (Hdt & Hpos & Ht & _).
    split; [done|]. split; [done|]. split; [done|]. split.
    + replace g' with (step inputs elapsedTime g).2 by (by rewrite Hstep).
      by apply reachable_step.
    + intros fuel. cbn [update]. by rewrite Hstep.
Qed.

Lemma update_terminates_witness :
  let g := Game.new defaultSettings 0 in
  let inputs := mkGameInputs (mkVect 1 0 0) true in
  reachable defaultSettings g /\ 0 <= 1
  /\ exists fuel o g', update fuel inputs 1 g = Some (o, g').
Proof.
  intros g inputs.
  assert (H : reachable defaultSettings g).
  { exists 0. split; [lra|]. apply rtc_refl. }
  assert (H1 : 0 <= 1) by lra.
  split; [exact H|]. split; [exact H1|].
  destruct (proj1 (update_terminates inputs 1 g H H1))
    as (fuel & o & g' & Hup & _).
  by exists fuel, o, g'.
Defined.

End Chain.
(** * Further properties of the code

    ** Vectors and matrices *)

Section Vectors.

Implicit Types u v w : Vect.

Lemma vect_eq (x y z x' y' z' : R) :
  x = x' -> y = y' -> z = z' -> mkVect x y z = mkVect x' y' z'.
Proof. by intros -> -> ->. Qed.

Lemma cos2_sin2 (theta : R) : cos theta * cos theta + sin theta * sin theta = 1.
Proof. pose proof (sin2_cos2 theta) as H. unfold Rsqr in H. lra. Qed.

Lemma rotateX_dot u v theta :
  V.dot (V.rotateX u theta) (V.rotateX v theta) = V.dot u v.
Proof.
  unfold V.dot, V.rotateX. simpl.
  transitivity (vx u * vx v
                + (vy u * vy v + vz u * vz v)
                  * (cos theta * cos theta + sin theta * sin theta));
    [ring | rewrite cos2_sin2; ring].
Qed.

Lemma rotateY_dot u v theta :
  V.dot (V.rotateY u theta) (V.rotateY v theta) = V.dot u v.
Proof.
  unfold V.dot, V.rotateY. simpl.
  transitivity (vy u * vy v
                + (vx u * vx v + vz u * vz v)
                  * (cos theta * cos theta + sin theta * sin theta));
    [ring | rewrite cos2_sin2; ring].
Qed.

Lemma rotateZ_dot u v theta :
  V.dot (V.rotateZ u theta) (V.rotateZ v theta) = V.dot u v.
Proof.
  unfold V.dot, V.rotateZ. simpl.
  transitivity (vz u * vz v
                + (vx u * vx v + vy u * vy v)
                  * (cos theta * cos theta + sin theta * sin theta));
    [ring | rewrite cos2_sin2; ring].
Qed.

(** X1.  The three rotations of [Vect] keep the dot product of two
    vectors, and so the length of a vector. *)
Theorem rotations_keep_dot u v theta :
  V.dot (V.rotateX u theta) (V.rotateX v theta) = V.dot u v
  /\ V.dot (V.rotateY u theta) (V.rotateY v theta) = V.dot u v
  /\ V.dot (V.rotateZ u theta) (V.rotateZ v theta) = V.dot u v
  /\ V.length (V.rotateX u theta) = V.length u
  /\ V.length (V.rotateY u theta) = V.length u
  /\ V.length (V.rotateZ u theta) = V.length u.
Proof.
  unfold V.length, V.lengthSquared.
  rewrite !rotateX_dot, !rotateY_dot, !rotateZ_dot. done.
Qed.

Lemma rotateX_plus v a b :
  V.rotateX (V.rotateX v a) b = V.rotateX v (a + b).
Proof.
  unfold V.rotateX. simpl. rewrite cos_plus, sin_plus.
  apply vect_eq; ring.
Qed.

Lemma rotateY_plus v a b :
  V.rotateY (V.rotateY v a) b = V.rotateY v (a + b).
Proof.
  unfold V.rotateY. simpl. rewrite cos_plus, sin_plus.
  apply vect_eq; ring.
Qed.

Lemma rotateZ_plus v a b :
  V.rotateZ (V.rotateZ v a) b = V.rotateZ v (a + b).
Proof.
  unfold V.rotateZ. simpl. rewrite cos_plus, sin_plus.
  apply vect_eq; ring.
Qed.

Lemma rotateX_zero v : V.rotateX v 0 = v.
Proof.
  destruct v. unfold V.rotateX. simpl. rewrite cos_0, sin_0.
  apply vect_eq; ring.
Qed.

Lemma rotateY_zero v : V.rotateY v 0 = v.
Proof.
  destruct v. unfold V.rotateY. simpl. rewrite cos_0, sin_0.
  apply vect_eq; ring.
Qed.

Lemma rotateZ_zero v : V.rotateZ v 0 = v.
Proof.
  destruct v. unfold V.rotateZ. simpl. rewrite cos_0, sin_0.
  apply vect_eq; ring.
Qed.

(** X2.  Rotating by [a] and then by [b] about the same axis is rotating
    by [a + b]; so rotating back by [- a] gives the vector again. *)
Theorem rotations_compose v a b :
  V.rotateX (V.rotateX v a) b = V.rotateX v (a + b)
  /\ V.rotateY (V.rotateY v a) b = V.rotateY v (a + b)
  /\ V.rotateZ (V.rotateZ v a) b = V.rotateZ v (a + b)
  /\ V.rotateX (V.rotateX v a) (- a) = v
  /\ V.rotateY (V.rotateY v a) (- a) = v
  /\ V.rotateZ (V.rotateZ v a) (- a) = v.
Proof.
  rewrite !rotateX_plus, !rotateY_plus, !rotateZ_plus.
  replace (a + - a) with 0 by ring.
  by rewrite rotateX_zero, rotateY_zero, rotateZ_zero.
Qed.

Lemma cross_lengthSquared u v :
  V.lengthSquared (V.cross u v)
  = V.lengthSquared u * V.lengthSquared v - V.dot u v * V.dot u v.
Proof. unfold V.lengthSquared, V.dot, V.cross. simpl. ring. Qed.

(** The cross product is orthogonal to its two operands, changes
    sign when they are swapped, and its squared length is
    [|u|^2 * |v|^2 - (u . v)^2]. *)
Lemma cross_facts u v :
  V.dot u (V.cross u v) = 0
  /\ V.dot v (V.cross u v) = 0
  /\ V.cross v u = V.multiply (V.cross u v) (-1)
  /\ V.lengthSquared (V.cross u v)
     = V.lengthSquared u * V.lengthSquared v - V.dot u v * V.dot u v.
Proof.
  split; [unfold V.dot, V.cross; simpl; ring|].
  split; [unfold V.dot, V.cross; simpl; ring|].
  split; [unfold V.multiply, V.cross; simpl; apply vect_eq; ring|].
  apply cross_lengthSquared.
Qed.

End Vectors.
(** ** Normalisation and the constructor of [Path] *)

Section Paths.

Implicit Types u v w d o : Vect.

Lemma lengthSquared_zero v : V.lengthSquared v = 0 <-> v = V.ZERO.
Proof.
  split.
  - destruct v as [x y z]. unfold V.lengthSquared, V.dot. simpl. intros H.
    apply sum_squares_zero in H as (-> & -> & ->). done.
  - intros ->. unfold V.lengthSquared, V.dot, V.ZERO. simpl. ring.
Qed.

Lemma length_zero v : V.length v = 0 <-> v = V.ZERO.
Proof.
  rewrite <- lengthSquared_zero. split.
  - intros H. apply NNPP. intros Hne. by apply (length_nonzero v).
  - intros H. unfold V.length, pow_half. rewrite H. apply sqrt_0.
Qed.

Lemma normalize_Throw v e : V.normalize v = Throw e <-> e = ZeroVector /\ v = V.ZERO.
Proof.
  unfold V.normalize. rewrite <- length_zero.
  case_bool_decide as H; split; try done.
  - intros [= <-]. done.
  - by intros [-> _].
  - by intros [_ ?].
Qed.

Lemma normalize_Done v n :
  V.normalize v = Done n <-> v <> V.ZERO /\ n = V.multiply v (1 / V.length v).
Proof.
  unfold V.normalize. rewrite <- length_zero.
  case_bool_decide as H; split; try done.
  - by intros [? _].
  - by intros [= <-].
  - by intros [_ ->].
Qed.

Lemma length_pos v : v <> V.ZERO -> 0 < V.length v.
Proof.
  intros Hne. pose proof (length_nonneg v) as H0.
  destruct (Req_dec (V.length v) 0) as [H|H]; [|lra].
  by apply length_zero in H.
Qed.

Lemma normalize_length v n : V.normalize v = Done n -> V.length n = 1.
Proof.
  intros [Hne ->]%normalize_Done.
  pose proof (length_pos v Hne) as Hpos.
  rewrite length_multiply.
  - field. lra.
  - apply Rlt_le, Rdiv_pos_pos; lra.
Qed.

Lemma multiply_multiply v a b :
  V.multiply (V.multiply v a) b = V.multiply v (a * b).
Proof. unfold V.multiply. simpl. apply vect_eq; ring. Qed.

Lemma multiply_ZERO v k : V.multiply v k = V.ZERO -> k <> 0 -> v = V.ZERO.
Proof.
  destruct v as [x y z]. unfold V.multiply, V.ZERO. simpl.
  intros [= Hx Hy Hz] Hk.
  apply vect_eq; nra.
Qed.

Lemma normalize_multiply_unit n (k : R) :
  V.length n = 1 -> 0 < k -> V.normalize (V.multiply n k) = Done n.
Proof.
  intros Hlen Hk. apply normalize_Done.
  assert (Hne : n <> V.ZERO).
  { intros H0. rewrite H0 in Hlen.
    assert (V.length V.ZERO = 0) by (by apply length_zero). lra. }
  split.
  - intros H0. apply Hne. apply (multiply_ZERO n k H0). lra.
  - rewrite length_multiply by lra. rewrite Hlen, multiply_multiply.
    destruct n as [x y z]. unfold V.multiply. simpl. apply vect_eq; field; lra.
Qed.

(** X3.  [normalize] only sees the direction of a vector: a positive
    multiple of a vector has the same normalised vector, and
    normalising a second time changes nothing. *)
Theorem normalize_direction v n (k : R) :
  V.normalize v = Done n -> 0 < k ->
  V.normalize (V.multiply v k) = Done n /\ V.normalize n = Done n.
Proof.
  intros Hn Hk. pose proof (normalize_length v n Hn) as Hlen.
  apply normalize_Done in Hn as [Hne ->].
  pose proof (length_pos v Hne) as Hpos.
  split.
  - apply normalize_Done. split.
    + intros H0. apply Hne. apply (multiply_ZERO v k H0). lra.
    + rewrite length_multiply by lra. rewrite multiply_multiply.
      f_equal. field. lra.
  - apply normalize_Done. split.
    + intros H0. rewrite H0 in Hlen.
      assert (V.length V.ZERO = 0) by (by apply length_zero). lra.
    + rewrite Hlen, multiply_multiply. f_equal. field. lra.
Qed.

Lemma normalize_direction_witness :
  V.normalize (mkVect 3 0 4) = Done (mkVect (3 / 5) 0 (4 / 5))
  /\ 0 < 2
  /\ V.normalize (V.multiply (mkVect 3 0 4) 2) = Done (mkVect (3 / 5) 0 (4 / 5)).
Proof.
  assert (H : V.normalize (mkVect 3 0 4) = Done (mkVect (3 / 5) 0 (4 / 5))).
  { apply normalize_Done.
    assert (Hl : V.length (mkVect 3 0 4) = 5).
    { unfold V.length, pow_half, V.lengthSquared, V.dot. simpl.
      replace (3 * 3 + 0 * 0 + 4 * 4) with (5 * 5) by ring.
      rewrite sqrt_square; lra. }
    split; [intros [= ? ?]; lra|].
    rewrite Hl. unfold V.multiply. simpl. apply vect_eq; lra. }
  assert (H2 : 0 < 2) by lra.
  split; [exact H|]. split; [exact H2|].
  exact (proj1 (normalize_direction _ _ 2 H H2)).
Defined.

(** The constructor on three vertices and more. *)
Lemma new_collinear v0 v1 v2 rest :
  V.cross (V.substract v1 v0) (V.substract v2 v1) = V.ZERO ->
  P.new (v0 :: v1 :: v2 :: rest) = Throw ZeroVector.
Proof.
  intros Hc. unfold P.new. rewrite Hc.
  assert (V.normalize V.ZERO = Throw ZeroVector) as ->
    by (by apply normalize_Throw).
  done.
Qed.

Lemma new_general v0 v1 v2 rest :
  let c := V.cross (V.substract v1 v0) (V.substract v2 v1) in
  c <> V.ZERO ->
  P.new (v0 :: v1 :: v2 :: rest)
  = Done (mkPath (v0 :: v1 :: v2 :: rest) (V.multiply c (1 / V.length c))).
Proof.
  intros c Hc. unfold P.new. fold c.
  assert (V.normalize c = Done (V.multiply c (1 / V.length c))) as ->
    by (by apply normalize_Done).
  done.
Qed.

(** X4.  [new Path (vects)] throws for fewer than three vertices, and
    for three first vertices on one line (the cross product of the first
    two edges is the zero vector); otherwise the path has the vertices
    given and a normal of length 1 that is orthogonal to the first two
    edges. *)
Theorem Path_new_spec vs :
  (P.new vs = Throw ShortPath <-> (length vs <= 2)%nat)
  /\ (P.new vs = Throw ZeroVector
      <-> exists v0 v1 v2 rest, vs = v0 :: v1 :: v2 :: rest
            /\ V.cross (V.substract v1 v0) (V.substract v2 v1) = V.ZERO)
  /\ (forall p, P.new vs = Done p ->
        vertices p = vs /\ V.length (normal p) = 1
        /\ exists v0 v1 v2 rest, vs = v0 :: v1 :: v2 :: rest
             /\ V.dot (normal p) (V.substract v1 v0) = 0
             /\ V.dot (normal p) (V.substract v2 v1) = 0).
Proof.
  destruct vs as [|v0 [|v1 [|v2 rest]]];
    try (split; [simpl; split; [lia|done]|];
         split; [split; [done|by intros (? & ? & ? & ? & ? & _)]|done]).
  set (c := V.cross (V.substract v1 v0) (V.substract v2 v1)).
  destruct (classic (c = V.ZERO)) as [Hc|Hc].
  - rewrite (new_collinear _ _ _ _ Hc).
    split; [simpl; split; [done|lia]|].
    split; [|done]. split; [|done]. intros _. by exists v0, v1, v2, rest.
  - rewrite (new_general _ _ _ _ Hc). fold c.
    split; [simpl; split; [done|lia]|].
    split; [split; [done|]|].
    + intros (a0 & a1 & a2 & r & [= <- <- <- <-] & Hz). done.
    + intros p [= <-]. cbn [vertices normal]. split; [done|].
      pose proof (length_pos c Hc) as Hpos.
      split.
      * rewrite length_multiply; [field; lra|].
        apply Rlt_le, Rdiv_pos_pos; lra.
      * exists v0, v1, v2, rest. split; [done|].
        assert (Hd : forall e, V.dot c e = 0 ->
                       V.dot (V.multiply c (1 / V.length c)) e = 0).
        { intros e He. transitivity (V.dot c e * (1 / V.length c)).
          - unfold V.dot, V.multiply. simpl. ring.
          - rewrite He. ring. }
        split; apply Hd; unfold c, V.dot, V.cross; simpl; ring.
Qed.

Lemma Path_new_spec_witness :
  let vs := [mkVect 0 0 0; mkVect 1 0 0; mkVect 1 1 0] in
  exists p, P.new vs = Done p /\ vertices p = vs /\ V.length (normal p) = 1.
Proof.
  intros vs.
  assert (H : exists p, P.new vs = Done p).
  { eexists. apply new_general.
    unfold V.cross, V.substract, V.add, V.multiply, V.ZERO. simpl.
    intros [= _ _ Hz]. lra. }
  destruct H as [p H]. exists p. split; [exact H|].
  destruct (proj2 (proj2 (Path_new_spec vs)) _ H) as (Hv & Hl & _).
  split; [exact Hv | exact Hl].
Defined.

End Paths.

(** ** Moving a path *)

(** [_call] with a map [f] of the vertices that acts on differences of
    vertices as a map [L] does, where [L] commutes with the cross
    product, keeps the length and commutes with the product by a
    number. *)
Section Call.

Variables f L : Vect -> Vect.
Hypothesis f_substract :
  forall a b, V.substract (f a) (f b) = L (V.substract a b).
Hypothesis L_cross : forall a b, V.cross (L a) (L b) = L (V.cross a b).
Hypothesis L_length : forall a, V.length (L a) = V.length a.
Hypothesis L_multiply :
  forall a k, L (V.multiply a k) = V.multiply (L a) k.

Lemma L_ZERO a : L a = V.ZERO <-> a = V.ZERO.
Proof. by rewrite <- !length_zero, L_length. Qed.

Lemma call_new vs p :
  P.new vs = Done p ->
  P.new (map f vs) = Done (mkPath (map f vs) (L (normal p))).
Proof.
  destruct vs as [|v0 [|v1 [|v2 rest]]]; try done.
  set (c := V.cross (V.substract v1 v0) (V.substract v2 v1)).
  destruct (classic (c = V.ZERO)) as [Hc|Hc].
  { by rewrite (new_collinear _ _ _ _ Hc). }
  rewrite (new_general _ _ _ _ Hc). fold c. intros [= <-].
  cbn [map normal].
  rewrite new_general; rewrite !f_substract, L_cross; fold c.
  - by rewrite L_length, L_multiply.
  - by rewrite L_ZERO.
Qed.

Lemma call_Done vs p :
  P.new vs = Done p ->
  P.call f p = Done (mkPath (map f vs) (L (normal p))).
Proof.
  intros Hp. unfold P.call.
  assert (vertices p = vs) as ->.
  { destruct vs as [|v0 [|v1 [|v2 rest]]]; try done.
    unfold P.new in Hp. destruct (V.normalize _); [|done].
    by injection Hp as <-. }
  by apply call_new.
Qed.

End Call.

Section Motions.

Implicit Types u v w d o : Vect.

Lemma new_vertices vs p : P.new vs = Done p -> p = mkPath vs (normal p).
Proof.
  intros Hp.
  destruct vs as [|v0 [|v1 [|v2 rest]]]; try done.
  unfold P.new in Hp. destruct (V.normalize _); [|done].
  by injection Hp as <-.
Qed.

Lemma new_again vs p : P.new vs = Done p -> P.new (vertices p) = Done p.
Proof.
  intros Hp. rewrite (new_vertices vs p Hp) at 1. cbn [vertices].
  by rewrite Hp.
Qed.

Lemma substract_add a b d :
  V.substract (V.add a d) (V.add b d) = V.substract a b.
Proof. unfold V.substract, V.add, V.multiply. simpl. apply vect_eq; ring. Qed.

Lemma translate_Done vs p d :
  P.new vs = Done p ->
  P.translate p d = Done (mkPath (map (fun u => V.add u d) vs) (normal p)).
Proof.
  intros Hp. unfold P.translate.
  apply (call_Done (fun u => V.add u d) (fun a => a)); try done.
  intros a b. apply substract_add.
Qed.

Lemma rotateX_substract a b theta :
  V.substract (V.rotateX a theta) (V.rotateX b theta)
  = V.rotateX (V.substract a b) theta.
Proof.
  unfold V.substract, V.add, V.multiply, V.rotateX. simpl.
  apply vect_eq; ring.
Qed.

Lemma rotateY_substract a b theta :
  V.substract (V.rotateY a theta) (V.rotateY b theta)
  = V.rotateY (V.substract a b) theta.
Proof.
  unfold V.substract, V.add, V.multiply, V.rotateY. simpl.
  apply vect_eq; ring.
Qed.

Lemma rotateZ_substract a b theta :
  V.substract (V.rotateZ a theta) (V.rotateZ b theta)
  = V.rotateZ (V.substract a b) theta.
Proof.
  unfold V.substract, V.add, V.multiply, V.rotateZ. simpl.
  apply vect_eq; ring.
Qed.

Lemma rotateX_cross a b theta :
  V.cross (V.rotateX a theta) (V.rotateX b theta)
  = V.rotateX (V.cross a b) theta.
Proof.
  unfold V.cross, V.rotateX. simpl. apply vect_eq; try ring.
  transitivity ((vy a * vz b - vz a * vy b)
                * (cos theta * cos theta + sin theta * sin theta));
    [ring | rewrite cos2_sin2; ring].
Qed.

Lemma rotateY_cross a b theta :
  V.cross (V.rotateY a theta) (V.rotateY b theta)
  = V.rotateY (V.cross a b) theta.
Proof.
  unfold V.cross, V.rotateY. simpl. apply vect_eq; try ring.
  transitivity ((vz a * vx b - vx a * vz b)
                * (cos theta * cos theta + sin theta * sin theta));
    [ring | rewrite cos2_sin2; ring].
Qed.

Lemma rotateZ_cross a b theta :
  V.cross (V.rotateZ a theta) (V.rotateZ b theta)
  = V.rotateZ (V.cross a b) theta.
Proof.
  unfold V.cross, V.rotateZ. simpl. apply vect_eq; try ring.
  transitivity ((vx a * vy b - vy a * vx b)
                * (cos theta * cos theta + sin theta * sin theta));
    [ring | rewrite cos2_sin2; ring].
Qed.

Lemma rotateX_length a theta : V.length (V.rotateX a theta) = V.length a.
Proof. unfold V.length, V.lengthSquared. by rewrite rotateX_dot. Qed.

Lemma rotateY_length a theta : V.length (V.rotateY a theta) = V.length a.
Proof. unfold V.length, V.lengthSquared. by rewrite rotateY_dot. Qed.

Lemma rotateZ_length a theta : V.length (V.rotateZ a theta) = V.length a.
Proof. unfold V.length, V.lengthSquared. by rewrite rotateZ_dot. Qed.

Lemma rotateX_multiply a theta k :
  V.rotateX (V.multiply a k) theta = V.multiply (V.rotateX a theta) k.
Proof. unfold V.multiply, V.rotateX. simpl. apply vect_eq; ring. Qed.

Lemma rotateY_multiply a theta k :
  V.rotateY (V.multiply a k) theta = V.multiply (V.rotateY a theta) k.
Proof. unfold V.multiply, V.rotateY. simpl. apply vect_eq; ring. Qed.

Lemma rotateZ_multiply a theta k :
  V.rotateZ (V.multiply a k) theta = V.multiply (V.rotateZ a theta) k.
Proof. unfold V.multiply, V.rotateZ. simpl. apply vect_eq; ring. Qed.

(** A rotation of a path about [origin], for a rotation [rot] of
    vectors. *)
Lemma rotate_Done (rot : Vect -> R -> Vect) vs p theta o :
  (forall a b, V.substract (rot a theta) (rot b theta)
               = rot (V.substract a b) theta) ->
  (forall a b, V.cross (rot a theta) (rot b theta) = rot (V.cross a b) theta) ->
  (forall a, V.length (rot a theta) = V.length a) ->
  (forall a k, rot (V.multiply a k) theta = V.multiply (rot a theta) k) ->
  P.new vs = Done p ->
  obind (P.translate p (V.multiply o (-1))) (fun p1 =>
  obind (P.call (fun u => rot u theta) p1) (fun p2 =>
  P.translate p2 o))
  = Done (mkPath
            (map (fun u => V.add (rot (V.add u (V.multiply o (-1))) theta) o) vs)
            (rot (normal p) theta)).
Proof.
  intros Hsub Hcross Hlen Hmul Hp.
  rewrite (translate_Done vs p _ Hp). cbn [obind].
  pose proof (translate_Done vs p (V.multiply o (-1)) Hp) as H1.
  unfold P.translate, P.call in H1. rewrite (new_vertices vs p Hp) in H1 at 1.
  cbn [vertices] in H1.
  rewrite (call_Done (fun u => rot u theta) (fun a => rot a theta)
             Hsub Hcross Hlen Hmul _ _ H1).
  cbn [obind normal].
  pose proof (call_Done (fun u => rot u theta) (fun a => rot a theta)
                Hsub Hcross Hlen Hmul _ _ H1) as H2.
  unfold P.call in H2. cbn [vertices normal] in H2.
  rewrite (translate_Done _ _ o H2). cbn [normal].
  by rewrite !map_map.
Qed.

(** X5.  On a path that the constructor has built, [translate] does not
    throw: it moves every vertex and keeps the normal; translating back
    gives the path again. *)
Theorem Path_translate vs p d :
  P.new vs = Done p ->
  P.translate p d = Done (mkPath (map (fun u => V.add u d) vs) (normal p))
  /\ obind (P.translate p d) (fun q => P.translate q (V.multiply d (-1)))
     = Done p.
Proof.
  intros Hp. pose proof (translate_Done vs p d Hp) as H1.
  split; [exact H1|]. rewrite H1. cbn [obind].
  unfold P.translate, P.call in H1. rewrite (new_vertices vs p Hp) in H1 at 1.
  cbn [vertices] in H1.
  rewrite (translate_Done _ _ (V.multiply d (-1)) H1). cbn [normal].
  rewrite map_map. rewrite (new_vertices vs p Hp) at 2. do 2 f_equal.
  rewrite <- (map_id vs) at 2. apply map_ext. intros a.
  destruct a. unfold V.add, V.multiply. simpl. apply vect_eq; ring.
Qed.

(** X6.  On a path that the constructor has built, the rotations about
    an origin do not throw: every vertex is rotated about the origin and
    the normal is rotated with it. *)
Theorem Path_rotate vs p theta o :
  P.new vs = Done p ->
  P.rotateX p theta o
  = Done (mkPath
       (map (fun u => V.add (V.rotateX (V.add u (V.multiply o (-1))) theta) o) vs)
       (V.rotateX (normal p) theta))
  /\ P.rotateY p theta o
     = Done (mkPath
          (map (fun u => V.add (V.rotateY (V.add u (V.multiply o (-1))) theta) o) vs)
          (V.rotateY (normal p) theta))
  /\ P.rotateZ p theta o
     = Done (mkPath
          (map (fun u => V.add (V.rotateZ (V.add u (V.multiply o (-1))) theta) o) vs)
          (V.rotateZ (normal p) theta)).
Proof.
  intros Hp. split; [|split].
  - apply (rotate_Done V.rotateX); try done.
    + intros. apply rotateX_substract.
    + intros. apply rotateX_cross.
    + intros. apply rotateX_length.
    + intros. apply rotateX_multiply.
  - apply (rotate_Done V.rotateY); try done.
    + intros. apply rotateY_substract.
    + intros. apply rotateY_cross.
    + intros. apply rotateY_length.
    + intros. apply rotateY_multiply.
  - apply (rotate_Done V.rotateZ); try done.
    + intros. apply rotateZ_substract.
    + intros. apply rotateZ_cross.
    + intros. apply rotateZ_length.
    + intros. apply rotateZ_multiply.
Qed.

Lemma Path_translate_witness :
  let vs := [mkVect 0 0 0; mkVect 1 0 0; mkVect 1 1 0] in
  exists p, P.new vs = Done p
    /\ P.translate p (mkVect 1 2 3)
       = Done (mkPath (map (fun u => V.add u (mkVect 1 2 3)) vs) (normal p)).
Proof.
  intros vs.
  assert (H : exists p, P.new vs = Done p).
  { eexists. apply new_general.
    unfold V.cross, V.substract, V.add, V.multiply, V.ZERO. simpl.
    intros [= _ _ Hz]. lra. }
  destruct H as [p H]. exists p. split; [exact H|].
  exact (proj1 (Path_translate vs p (mkVect 1 2 3) H)).
Defined.

Lemma Path_rotate_witness :
  let vs := [mkVect 0 0 0; mkVect 1 0 0; mkVect 1 1 0] in
  exists p, P.new vs = Done p
    /\ P.rotateZ p 1 (mkVect 1 2 3)
       = Done (mkPath
            (map (fun u => V.add (V.rotateZ
                                    (V.add u (V.multiply (mkVect 1 2 3) (-1))) 1)
                                 (mkVect 1 2 3)) vs)
            (V.rotateZ (normal p) 1)).
Proof.
  intros vs.
  assert (H : exists p, P.new vs = Done p).
  { eexists. apply new_general.
    unfold V.cross, V.substract, V.add, V.multiply, V.ZERO. simpl.
    intros [= _ _ Hz]. lra. }
  destruct H as [p H]. exists p. split; [exact H|].
  exact (proj2 (proj2 (Path_rotate vs p 1 (mkVect 1 2 3) H))).
Defined.

End Motions.

(** ** The collision test and the motions of a path *)

Section MovedTest.

Implicit Types u v w d o q : Vect.



(** The test on a path that the constructor has built. *)
Lemma isPointInPath_built vs F q :
  P.new vs = Done F ->
  Collisions.isPointInPath q F
  = Done (let us := map (fun u => V.substract u q) vs in
          negb (existsb
            (Collisions.vectorSeesAllOthersOnTheSameHalfPlane (normal F) us)
            us)).
Proof.
  intros HF. unfold Collisions.isPointInPath.
  by rewrite (translate_Done vs F _ HF).
Qed.

Section Moved.

Variable L : Vect -> Vect.
Hypothesis L_triple :
  forall n a b, V.dot (L n) (V.cross (L a) (L b)) = V.dot n (V.cross a b).



End Moved.





End MovedTest.
(** ** Matrices, solids and the prism *)

Section Solids.

Implicit Types u v w d o : Vect.

(** The product of a matrix and a vector is linear in the vector,
    and multiplying the matrix by a number multiplies the product. *)
Lemma Matrix_product_linear (m : Matrix.Matrix) a b (k : R) :
  Matrix.product m (V.add a b)
  = V.add (Matrix.product m a) (Matrix.product m b)
  /\ Matrix.product m (V.multiply a k) = V.multiply (Matrix.product m a) k
  /\ Matrix.product (Matrix.multiply m k) a
     = V.multiply (Matrix.product m a) k.
Proof.
  unfold Matrix.product, Matrix.multiply, V.add, V.multiply. simpl.
  repeat split; apply vect_eq; ring.
Qed.

Lemma mapAll_Done {A B} (f : A -> outcome B) (h : A -> B) (xs : list A) :
  Forall (fun x => f x = Done (h x)) xs -> mapAll f xs = Done (map h xs).
Proof.
  induction 1 as [|x xs Hx _ IH]; [done|].
  cbn [mapAll map]. by rewrite Hx, IH.
Qed.

Lemma built_translate (p : Path) d :
  built p -> P.translate p d = Done (movedPath (fun u => V.add u d) (fun n => n) p).
Proof. intros Hp. by apply translate_Done. Qed.

Lemma built_rotate (p : Path) theta o :
  built p ->
  P.rotateX p theta o
  = Done (movedPath (about V.rotateX theta o) (fun n => V.rotateX n theta) p)
  /\ P.rotateY p theta o
     = Done (movedPath (about V.rotateY theta o) (fun n => V.rotateY n theta) p)
  /\ P.rotateZ p theta o
     = Done (movedPath (about V.rotateZ theta o) (fun n => V.rotateZ n theta) p).
Proof.
  intros Hp. unfold movedPath, about. split; [|split].
  - apply (rotate_Done V.rotateX); try done.
    + intros. apply rotateX_substract.
    + intros. apply rotateX_cross.
    + intros. apply rotateX_length.
    + intros. apply rotateX_multiply.
  - apply (rotate_Done V.rotateY); try done.
    + intros. apply rotateY_substract.
    + intros. apply rotateY_cross.
    + intros. apply rotateY_length.
    + intros. apply rotateY_multiply.
  - apply (rotate_Done V.rotateZ); try done.
    + intros. apply rotateZ_substract.
    + intros. apply rotateZ_cross.
    + intros. apply rotateZ_length.
    + intros. apply rotateZ_multiply.
Qed.

(** A motion of a built path is a built path. *)
Lemma moved_built (m : Path -> outcome Path) (p q : Path) :
  (exists vs, m p = P.new vs) -> m p = Done q -> built q.
Proof.
  intros [vs Hm] Hq. unfold built. rewrite Hm in Hq.
  by apply (new_again vs).
Qed.

Lemma translate_built (p : Path) d q : P.translate p d = Done q -> built q.
Proof. apply moved_built. by eexists. Qed.

Lemma rotate_built (rot : Vect -> R -> Vect) (p : Path) theta o q :
  obind (P.translate p (V.multiply o (-1))) (fun p1 =>
  obind (P.call (fun u => rot u theta) p1) (fun p2 =>
  P.translate p2 o)) = Done q ->
  built q.
Proof.
  destruct (P.translate p _) as [p1|]; [|done]. cbn [obind].
  destruct (P.call _ p1) as [p2|]; [|done]. cbn [obind].
  apply translate_built.
Qed.

Lemma solid_call (m : Path -> outcome Path) (h : Path -> Path) (s : Solid.Solid) :
  Forall built (Solid.faces s) ->
  (forall p, built p -> m p = Done (h p)) ->
  Solid.call m s = Done (Solid.mk (map h (Solid.faces s))).
Proof.
  intros Hs Hm. unfold Solid.call. rewrite (mapAll_Done m h); [done|].
  eapply Forall_impl; [exact Hs|]. exact Hm.
Qed.

Lemma mapAll_Forall {A B} (f : A -> outcome B) (Q : B -> Prop) xs ys :
  (forall x y, f x = Done y -> Q y) -> mapAll f xs = Done ys -> Forall Q ys.
Proof.
  intros HQ. revert ys. induction xs as [|x xs IH]; intros ys.
  - intros [= <-]. constructor.
  - cbn [mapAll]. destruct (f x) as [y|] eqn:Hx; [|done]. cbn [obind].
    destruct (mapAll f xs) as [ys'|]; [|done]. cbn [obind].
    intros [= <-]. constructor; [by eapply HQ | by apply IH].
Qed.

Lemma solid_call_built (m : Path -> outcome Path) (s s' : Solid.Solid) :
  (forall p q, m p = Done q -> built q) ->
  Solid.call m s = Done s' -> Forall built (Solid.faces s').
Proof.
  intros Hm. unfold Solid.call.
  destruct (mapAll m (Solid.faces s)) as [fs|] eqn:Hfs; [|done].
  intros [= <-]. by apply (mapAll_Forall m built (Solid.faces s)).
Qed.

(** X8.  On a solid whose faces the constructor of [Path] has built,
    [translate] and the three rotations do not throw: they move every
    face as the methods of [Path] do, vertices and normal; and the faces
    of a solid that a motion returns are built again, so that motions
    can follow one another. *)
Theorem Solid_motions (s : Solid.Solid) d theta o :
  Forall built (Solid.faces s) ->
  Solid.translate s d
  = Done (Solid.mk (map (movedPath (fun u => V.add u d) (fun n => n))
                        (Solid.faces s)))
  /\ Solid.rotateX s theta o
     = Done (Solid.mk (map (movedPath (about V.rotateX theta o)
                                      (fun n => V.rotateX n theta))
                           (Solid.faces s)))
  /\ Solid.rotateY s theta o
     = Done (Solid.mk (map (movedPath (about V.rotateY theta o)
                                      (fun n => V.rotateY n theta))
                           (Solid.faces s)))
  /\ Solid.rotateZ s theta o
     = Done (Solid.mk (map (movedPath (about V.rotateZ theta o)
                                      (fun n => V.rotateZ n theta))
                           (Solid.faces s)))
  /\ forall s', (Solid.translate s d = Done s' \/ Solid.rotateX s theta o = Done s'
                 \/ Solid.rotateY s theta o = Done s'
                 \/ Solid.rotateZ s theta o = Done s') ->
                Forall built (Solid.faces s').
Proof.
  intros Hs. split; [|split; [|split; [|split]]].
  - apply solid_call; [done|]. intros p Hp. by apply built_translate.
  - apply solid_call; [done|]. intros p Hp. by apply built_rotate.
  - apply solid_call; [done|]. intros p Hp. by apply built_rotate.
  - apply solid_call; [done|]. intros p Hp. by apply built_rotate.
  - intros s' [H|[H|[H|H]]]; revert H; apply solid_call_built; intros p q.
    + apply translate_built.
    + apply (rotate_built V.rotateX).
    + apply (rotate_built V.rotateY).
    + apply (rotate_built V.rotateZ).
Qed.

Lemma unit_triangle_built :
  exists p, built p
    /\ vertices p = [mkVect 0 0 0; mkVect 1 0 0; mkVect 1 1 0].
Proof.
  eexists (mkPath _ _). split; [|reflexivity]. unfold built. cbn [vertices].
  apply new_general.
  unfold V.cross, V.substract, V.add, V.multiply, V.ZERO. simpl.
  intros [= _ _ Hz]. lra.
Qed.

Lemma Solid_motions_witness :
  exists p, Forall built (Solid.faces (Solid.mk [p]))
    /\ Solid.translate (Solid.mk [p]) (mkVect 1 2 3)
       = Done (Solid.mk [movedPath (fun u => V.add u (mkVect 1 2 3))
                                   (fun n => n) p]).
Proof.
  destruct unit_triangle_built as (p & Hp & _). exists p.
  assert (H : Forall built (Solid.faces (Solid.mk [p])))
    by (by repeat constructor).
  split; [exact H|].
  exact (proj1 (Solid_motions (Solid.mk [p]) (mkVect 1 2 3) 0 V.ZERO H)).
Defined.

Lemma new_axis v0 v1 v2 rest n (k : R) :
  V.cross (V.substract v1 v0) (V.substract v2 v1) = V.multiply n k ->
  V.length n = 1 -> 0 < k ->
  P.new (v0 :: v1 :: v2 :: rest) = Done (mkPath (v0 :: v1 :: v2 :: rest) n).
Proof.
  intros Hc Hn Hk. unfold P.new. rewrite Hc.
  by rewrite normalize_multiply_unit.
Qed.

Lemma axis_length (x y z : R) :
  x * x + y * y + z * z = 1 -> V.length (mkVect x y z) = 1.
Proof.
  intros H. unfold V.length, pow_half, V.lengthSquared, V.dot. simpl.
  rewrite H. apply sqrt_1.
Qed.

Ltac cross_ne H :=
  unfold V.cross, V.substract, V.add, V.multiply, V.cloneX, V.cloneY,
    V.cloneZ, V.ZERO; simpl;
  let E1 := fresh in let E2 := fresh in let E3 := fresh in
  intros [= E1 E2 E3]; apply H; nra.

Ltac cross_axis :=
  unfold V.cross, V.substract, V.add, V.multiply, V.cloneX, V.cloneY,
    V.cloneZ, V.ZERO; simpl; apply vect_eq; ring.

Lemma Prism_new_Done (d : Vect) :
  vx d <> 0 -> vy d <> 0 -> vz d <> 0 ->
  exists pr, Prism.new d = Done pr.
Proof.
  destruct d as [dx dy dz]. simpl. intros Hx Hy Hz.
  assert (Hxy : dx * dy <> 0) by (by apply Rmult_integral_contrapositive).
  assert (Hxz : dx * dz <> 0) by (by apply Rmult_integral_contrapositive).
  assert (Hyz : dy * dz <> 0) by (by apply Rmult_integral_contrapositive).
  unfold Prism.new. cbn [mapAll].
  rewrite new_general by cross_ne Hxy. cbn [obind].
  rewrite new_general by cross_ne Hyz. cbn [obind].
  rewrite new_general by cross_ne Hxz. cbn [obind].
  rewrite new_general by cross_ne Hxz. cbn [obind].
  rewrite new_general by cross_ne Hyz. cbn [obind].
  rewrite new_general by cross_ne Hxy. cbn [obind].
  eauto.
Qed.

(** X9.  [new Prism (diagonal)] throws, with the error of [normalize],
    exactly when a component of the diagonal is 0 (a face is then flat);
    for a diagonal with positive components it builds six faces of four
    vertices whose normals are the axis vectors that point out of the
    prism: down, +x, +y, -y, -x, up. *)
Theorem Prism_new_spec (d : Vect) :
  (forall e, Prism.new d = Throw e
             <-> e = ZeroVector /\ (vx d = 0 \/ vy d = 0 \/ vz d = 0))
  /\ (0 < vx d -> 0 < vy d -> 0 < vz d ->
      exists pr, Prism.new d = Done pr
        /\ Prism.diagonal pr = d
        /\ map normal (Solid.faces (Prism.solid pr))
           = [ mkVect 0 0 (-1); mkVect 1 0 0; mkVect 0 1 0;
               mkVect 0 (-1) 0; mkVect (-1) 0 0; mkVect 0 0 1 ]
        /\ Forall (fun face => built face /\ length (vertices face) = 4%nat)
                  (Solid.faces (Prism.solid pr))).
Proof.
  split.
  - intros e. split.
    + intros He.
      destruct (Req_dec (vx d) 0) as [Hx|Hx];
        [|destruct (Req_dec (vy d) 0) as [Hy|Hy];
          [|destruct (Req_dec (vz d) 0) as [Hz|Hz]]].
      4:{ destruct (Prism_new_Done d Hx Hy Hz) as [pr Hpr]. congruence. }
      all: split; [|tauto].
      all: destruct d as [dx dy dz]; simpl in *; subst.
      all: revert He; unfold Prism.new; cbn [mapAll].
      * rewrite new_collinear by cross_axis. by intros [= <-].
      * rewrite new_collinear by cross_axis. by intros [= <-].
      * assert (Hxy : dx * dy <> 0) by (by apply Rmult_integral_contrapositive).
        rewrite new_general by cross_ne Hxy. cbn [obind].
        rewrite new_collinear by cross_axis. by intros [= <-].
    + intros [-> H0]. destruct d as [dx dy dz]. simpl in H0.
      unfold Prism.new. cbn [mapAll].
      destruct (Req_dec dx 0) as [Hx|Hx];
        [|destruct (Req_dec dy 0) as [Hy|Hy]].
      * subst. by rewrite new_collinear by cross_axis.
      * subst. by rewrite new_collinear by cross_axis.
      * assert (dz = 0) as -> by tauto.
        assert (Hxy : dx * dy <> 0) by (by apply Rmult_integral_contrapositive).
        rewrite new_general by cross_ne Hxy. cbn [obind].
        by rewrite new_collinear by cross_axis.
  - destruct d as [dx dy dz]. simpl. intros Hx Hy Hz.
    assert (Hxy : 0 < dx * dy) by nra.
    assert (Hxz : 0 < dx * dz) by nra.
    assert (Hyz : 0 < dy * dz) by nra.
    unfold Prism.new. cbn [mapAll].
    match goal with
    | |- context [obind (P.new ?l)] =>
        assert (F0 : P.new l = Done (mkPath l (mkVect 0 0 (-1))))
          by (apply (new_axis _ _ _ _ _ (dx * dy));
              [cross_axis|apply axis_length; ring|done]);
        rewrite F0; cbn [obind]
    end.
    match goal with
    | |- context [obind (P.new ?l)] =>
        assert (F1 : P.new l = Done (mkPath l (mkVect 1 0 0)))
          by (apply (new_axis _ _ _ _ _ (dy * dz));
              [cross_axis|apply axis_length; ring|done]);
        rewrite F1; cbn [obind]
    end.
    match goal with
    | |- context [obind (P.new ?l)] =>
        assert (F2 : P.new l = Done (mkPath l (mkVect 0 1 0)))
          by (apply (new_axis _ _ _ _ _ (dx * dz));
              [cross_axis|apply axis_length; ring|done]);
        rewrite F2; cbn [obind]
    end.
    match goal with
    | |- context [obind (P.new ?l)] =>
        assert (F3 : P.new l = Done (mkPath l (mkVect 0 (-1) 0)))
          by (apply (new_axis _ _ _ _ _ (dx * dz));
              [cross_axis|apply axis_length; ring|done]);
        rewrite F3; cbn [obind]
    end.
    match goal with
    | |- context [obind (P.new ?l)] =>
        assert (F4 : P.new l = Done (mkPath l (mkVect (-1) 0 0)))
          by (apply (new_axis _ _ _ _ _ (dy * dz));
              [cross_axis|apply axis_length; ring|done]);
        rewrite F4; cbn [obind]
    end.
    match goal with
    | |- context [obind (P.new ?l)] =>
        assert (F5 : P.new l = Done (mkPath l (mkVect 0 0 1)))
          by (apply (new_axis _ _ _ _ _ (dx * dy));
              [cross_axis|apply axis_length; ring|done]);
        rewrite F5; cbn [obind]
    end.
    eexists. split; [reflexivity|]. cbn [Prism.diagonal Prism.solid Solid.faces].
    split; [done|]. split; [done|].
    unfold built. cbn [vertices].
    repeat (apply Forall_cons; split; [split; [assumption|done]|]).
    apply Forall_nil_2.
Qed.

Lemma Prism_new_spec_witness :
  0 < vx (mkVect 1 2 3) /\ 0 < vy (mkVect 1 2 3) /\ 0 < vz (mkVect 1 2 3)
  /\ exists pr, Prism.new (mkVect 1 2 3) = Done pr.
Proof.
  assert (Hx : 0 < vx (mkVect 1 2 3)) by (simpl; lra).
  assert (Hy : 0 < vy (mkVect 1 2 3)) by (simpl; lra).
  assert (Hz : 0 < vz (mkVect 1 2 3)) by (simpl; lra).
  split; [exact Hx|]. split; [exact Hy|]. split; [exact Hz|].
  destruct (proj2 (Prism_new_spec (mkVect 1 2 3)) Hx Hy Hz) as (pr & Hpr & _).
  by exists pr.
Defined.

End Solids.
(** ** Colours *)

Section Colours.

Lemma floor_IZR (z : Z) : floor (IZR z) = z.
Proof. apply ZfloorZ. Qed.

Lemma floor_between (lo hi : Z) (x : R) :
  IZR lo <= x <= IZR hi -> (lo <= floor x <= hi)%Z.
Proof.
  intros [Hlo Hhi]. unfold floor. split.
  - by apply Zfloor_lub.
  - pose proof (Zfloor_bound x) as [Hb _].
    apply le_IZR. lra.
Qed.

Lemma mix_between (lo hi a b : Z) (t : R) :
  0 <= t <= 1 -> (lo <= a <= hi)%Z -> (lo <= b <= hi)%Z ->
  (lo <= floor ((1 - t) * IZR a + t * IZR b) <= hi)%Z.
Proof.
  intros Ht [Ha1 Ha2] [Hb1 Hb2]. apply floor_between.
  apply IZR_le in Ha1, Ha2, Hb1, Hb2. split; nra.
Qed.

Lemma gradient_within (lo hi : Z) c1 c2 (t : R) :
  0 <= t <= 1 -> within lo hi c1 -> within lo hi c2 ->
  within lo hi (Color.gradient c1 c2 t).
Proof.
  intros Ht (Hr1 & Hg1 & Hb1) (Hr2 & Hg2 & Hb2).
  unfold within, Color.gradient, Color.new. simpl.
  split; [|split]; by apply mix_between.
Qed.

Lemma gradient_same c (t : R) : Color.gradient c c t = c.
Proof.
  destruct c as [r g b]. unfold Color.gradient, Color.new. simpl.
  f_equal.
  - replace ((1 - t) * IZR r + t * IZR r) with (IZR r) by ring. apply floor_IZR.
  - replace ((1 - t) * IZR g + t * IZR g) with (IZR g) by ring. apply floor_IZR.
  - replace ((1 - t) * IZR b + t * IZR b) with (IZR b) by ring. apply floor_IZR.
Qed.

Lemma gradient_0 c c' : Color.gradient c c' 0 = c.
Proof.
  destruct c as [r1 g1 b1], c' as [r2 g2 b2].
  unfold Color.gradient, Color.new. simpl. f_equal.
  - replace ((1 - 0) * IZR r1 + 0 * IZR r2) with (IZR r1) by ring.
    apply floor_IZR.
  - replace ((1 - 0) * IZR g1 + 0 * IZR g2) with (IZR g1) by ring.
    apply floor_IZR.
  - replace ((1 - 0) * IZR b1 + 0 * IZR b2) with (IZR b1) by ring.
    apply floor_IZR.
Qed.

Lemma gradient_1 c c' : Color.gradient c c' 1 = c'.
Proof.
  destruct c as [r1 g1 b1], c' as [r2 g2 b2].
  unfold Color.gradient, Color.new. simpl. f_equal.
  - replace ((1 - 1) * IZR r1 + 1 * IZR r2) with (IZR r2) by ring.
    apply floor_IZR.
  - replace ((1 - 1) * IZR g1 + 1 * IZR g2) with (IZR g2) by ring.
    apply floor_IZR.
  - replace ((1 - 1) * IZR b1 + 1 * IZR b2) with (IZR b2) by ring.
    apply floor_IZR.
Qed.

(** X10.  [Color.gradient] gives the first colour at [t = 0] and the
    second at [t = 1].  For [t] between 0 and 1 and two colours with
    components from 0 to 255, the components of the mix are from 0 to
    255 as well, and each of them is at most the greater of the two
    components mixed and at most one unit less than the smaller.  (The
    unit is for the sum that the source rounds before [Math.floor]
    takes it: a sum that is an integer here may be just below it
    there.) *)
Theorem gradient_spec c1 c2 (t : R) :
  Color.gradient c1 c2 0 = c1
  /\ Color.gradient c1 c2 1 = c2
  /\ (0 <= t <= 1 -> within 0 255 c1 -> within 0 255 c2 ->
      let c := Color.gradient c1 c2 t in
      within 0 255 c
      /\ (Z.min (Color.r c1) (Color.r c2) - 1 <= Color.r c
          <= Z.max (Color.r c1) (Color.r c2))%Z
      /\ (Z.min (Color.g c1) (Color.g c2) - 1 <= Color.g c
          <= Z.max (Color.g c1) (Color.g c2))%Z
      /\ (Z.min (Color.b c1) (Color.b c2) - 1 <= Color.b c
          <= Z.max (Color.b c1) (Color.b c2))%Z).
Proof.
  split; [apply gradient_0|]. split; [apply gradient_1|].
  intros Ht H1 H2. cbv zeta. split; [by apply gradient_within|].
  unfold Color.gradient, Color.new. simpl.
  assert (Hmix : forall a b : Z,
            (Z.min a b - 1 <= floor ((1 - t) * IZR a + t * IZR b)
             <= Z.max a b)%Z).
  { intros a b.
    pose proof (mix_between (Z.min a b) (Z.max a b) a b t Ht). lia. }
  by repeat split; apply Hmix.
Qed.

Lemma gradient_spec_witness :
  let c1 := Color.mk 0 136 221 in
  let c2 := Color.mk 85 187 85 in
  0 <= 0.5 <= 1 /\ within 0 255 c1 /\ within 0 255 c2
  /\ within 0 255 (Color.gradient c1 c2 0.5).
Proof.
  intros c1 c2.
  assert (H : 0 <= 0.5 <= 1) by lra.
  assert (H1 : within 0 255 c1) by (unfold within; simpl; lia).
  assert (H2 : within 0 255 c2) by (unfold within; simpl; lia).
  repeat (split; [assumption|]).
  exact (proj1 (proj2 (proj2 (gradient_spec c1 c2 0.5)) H H1 H2)).
Defined.

(** X11.  [Color.scale] with a brightness between 0 and 1 and a [t]
    between -1 and 1, on a colour, a lightest and a darkest colour with
    components from 0 to 255, gives a colour with components from 0 to
    255.  With brightness 0 it gives the colour back, up to one unit
    below in each component (the unit that the rounding of the sums of
    the source may take). *)
Theorem scale_within c lightest darkest (brightness t : R) :
  (0 <= brightness <= 1 -> -1 <= t <= 1 ->
   within 0 255 c -> within 0 255 lightest -> within 0 255 darkest ->
   within 0 255 (Color.scale c lightest darkest brightness t))
  /\ (-1 <= t <= 1 -> within 0 255 c ->
      let c' := Color.scale c lightest darkest 0 t in
      (Color.r c - 1 <= Color.r c' <= Color.r c)%Z
      /\ (Color.g c - 1 <= Color.g c' <= Color.g c)%Z
      /\ (Color.b c - 1 <= Color.b c' <= Color.b c)%Z).
Proof.
  split.
  - intros Hb Ht Hc Hl Hd. unfold Color.scale.
    apply gradient_within; [lra| |]; by apply gradient_within.
  - intros _ _. unfold Color.scale. rewrite !gradient_0, gradient_same.
    cbv zeta. lia.
Qed.

Lemma scale_within_witness :
  let c := Color.mk 0 136 221 in
  let white := Color.mk 255 255 255 in
  let black := Color.mk 0 0 0 in
  0 <= 0.2 <= 1 /\ -1 <= 0.5 <= 1
  /\ within 0 255 c /\ within 0 255 white /\ within 0 255 black
  /\ within 0 255 (Color.scale c white black 0.2 0.5)
  /\ (135 <= Color.g (Color.scale c white black 0 0.5) <= 136)%Z.
Proof.
  intros c white black.
  assert (Hb : 0 <= 0.2 <= 1) by lra.
  assert (Ht : -1 <= 0.5 <= 1) by lra.
  assert (Hc : within 0 255 c) by (unfold within; simpl; lia).
  assert (Hw : within 0 255 white) by (unfold within; simpl; lia).
  assert (Hk : within 0 255 black) by (unfold within; simpl; lia).
  repeat (split; [assumption|]).
  split.
  - exact (proj1 (scale_within c white black 0.2 0.5) Hb Ht Hc Hw Hk).
  - exact (proj1 (proj2 (proj2 (scale_within c white black 0.2 0.5) Ht Hc))).
Defined.

End Colours.
(** ** The camera *)

Section Camera.

Import Game Sim.

Lemma cameraLaw_mono st (t1 t2 : R) :
  0 <= gameAcceleration st -> 0 <= gameInitialVelocity st ->
  0 <= t1 <= t2 -> cameraLaw st t1 <= cameraLaw st t2.
Proof.
  intros Ha Hv Ht. unfold cameraLaw.
  assert (0 <= (t2 - t1) * (t2 + t1)) by nra.
  assert (0 <= gameAcceleration st * ((t2 - t1) * (t2 + t1))) by nra.
  nra.
Qed.

(** The camera from the moment of game over on, [x] seconds later. *)
Lemma getCameraPosition_after g (x : R) :
  gameOver g = true -> 0 < x ->
  let st := settings g in
  let D := rendererFallingAnimationDuration st in
  let v := gameAcceleration st * gameOverAt g + gameInitialVelocity st in
  0 < D ->
  getCameraPosition g (gameOverAt g + x)
  = cameraLaw st (gameOverAt g) + v * Rmin D x * (1 - Rmin D x / (2 * D)).
Proof.
  intros Hover Hx st D v HD. unfold getCameraPosition. rewrite Hover.
  rewrite bool_decide_false by lra. cbn [negb orb].
  fold st. fold D. rewrite bool_decide_true by lra. fold v.
  replace (gameOverAt g + x - gameOverAt g) with x by ring.
  field. lra.
Qed.

(** X12.  With an acceleration and an initial velocity that are not
    negative and a positive duration of the falling animation, the
    camera never moves backwards as the time asked for grows, before
    and after game over; from that duration after game over on, it
    stays where it is, having advanced by half of what its speed at
    game over would have covered in that duration. *)
Theorem camera_comes_to_rest g (t1 t2 : R) :
  let st := settings g in
  let D := rendererFallingAnimationDuration st in
  let v := gameAcceleration st * gameOverAt g + gameInitialVelocity st in
  0 <= gameAcceleration st -> 0 <= gameInitialVelocity st -> 0 < D ->
  0 <= gameOverAt g ->
  (0 <= t1 <= t2 -> getCameraPosition g t1 <= getCameraPosition g t2)
  /\ (gameOver g = true -> gameOverAt g + D <= t1 ->
      getCameraPosition g t1 = cameraLaw st (gameOverAt g) + v * D / 2).
Proof.
  intros st D v Ha Hv HD HT.
  assert (Hv0 : 0 <= v) by (unfold v; nra).
  assert (Hafter : forall x, gameOver g = true -> 0 < x ->
            getCameraPosition g (gameOverAt g + x)
            = cameraLaw st (gameOverAt g)
              + v * Rmin D x * (1 - Rmin D x / (2 * D))).
  { intros x Ho Hx. by apply getCameraPosition_after. }
  assert (Hbefore : forall t, negb (gameOver g) || bool_decide (t <= gameOverAt g) = true ->
            getCameraPosition g t = cameraLaw st t).
  { intros t Hb. unfold getCameraPosition. by rewrite Hb. }
  split.
  - intros Ht.
    destruct (gameOver g) eqn:Hover.
    2:{ rewrite !Hbefore by done. by apply cameraLaw_mono. }
    destruct (Rle_dec t2 (gameOverAt g)) as [H2|H2].
    { rewrite !Hbefore by (cbn; apply bool_decide_eq_true; lra).
      by apply cameraLaw_mono. }
    replace t2 with (gameOverAt g + (t2 - gameOverAt g)) by ring.
    rewrite Hafter by (done || lra).
    set (x2 := Rmin D (t2 - gameOverAt g)).
    assert (Hx2 : 0 < x2 <= D).
    { unfold x2. split; [apply Rmin_glb_lt; lra | apply Rmin_l]. }
    assert (Hq : forall x, 0 <= x <= D -> 0 <= v * x * (1 - x / (2 * D))).
    { intros x Hx. apply Rmult_le_pos; [nra|].
      assert (x / (2 * D) <= 1 / 2); [|lra].
      apply (Rmult_le_reg_r (2 * D)); [lra|]. field_simplify; lra. }
    destruct (Rle_dec t1 (gameOverAt g)) as [H1|H1].
    { rewrite Hbefore by (cbn; apply bool_decide_eq_true; lra).
      pose proof (cameraLaw_mono st t1 (gameOverAt g) Ha Hv ltac:(lra)).
      pose proof (Hq x2 ltac:(lra)). fold st in H. lra. }
    replace t1 with (gameOverAt g + (t1 - gameOverAt g)) by ring.
    rewrite Hafter by (done || lra).
    set (x1 := Rmin D (t1 - gameOverAt g)).
    assert (Hx1 : 0 < x1 <= x2).
    { unfold x1, x2. split; [apply Rmin_glb_lt; lra|].
      apply Rle_min_compat_l. lra. }
    cut (v * x1 * (1 - x1 / (2 * D)) <= v * x2 * (1 - x2 / (2 * D))); [lra|].
    replace (v * x2 * (1 - x2 / (2 * D)) - 0)
      with (v * x2 * (1 - x2 / (2 * D))) by ring.
    cut (0 <= v * (x2 - x1) * (1 - (x1 + x2) / (2 * D))).
    { intros Hc.
      replace (v * (x2 - x1) * (1 - (x1 + x2) / (2 * D)))
        with (v * x2 * (1 - x2 / (2 * D)) - v * x1 * (1 - x1 / (2 * D)))
        in Hc by (field; lra).
      lra. }
    apply Rmult_le_pos; [nra|].
    assert ((x1 + x2) / (2 * D) <= 1); [|lra].
    apply (Rmult_le_reg_r (2 * D)); [lra|]. field_simplify; lra.
  - intros Hover Ht.
    replace t1 with (gameOverAt g + (t1 - gameOverAt g)) by ring.
    rewrite Hafter by (done || lra).
    rewrite Rmin_left by lra. field. lra.
Qed.

Lemma camera_comes_to_rest_witness :
  let g := set_gameOver true 3 (Game.new defaultSettings 0) in
  getCameraPosition g 4
  = cameraLaw defaultSettings 3 + (0.1 * SQRT2 * 3 + 1.0 * SQRT2) * 0.5 / 2.
Proof.
  intros g.
  assert (Ha : 0 <= gameAcceleration (settings g))
    by (simpl; unfold SQRT2; lra).
  assert (Hv : 0 <= gameInitialVelocity (settings g))
    by (simpl; unfold SQRT2; lra).
  assert (HD : 0 < rendererFallingAnimationDuration (settings g))
    by (simpl; lra).
  assert (HT : 0 <= gameOverAt g) by (simpl; lra).
  assert (Hover : gameOver g = true) by reflexivity.
  assert (Ht : gameOverAt g + rendererFallingAnimationDuration (settings g) <= 4)
    by (simpl; lra).
  exact (proj2 (camera_comes_to_rest g 4 4 Ha Hv HD HT) Hover Ht).
Defined.

End Camera.
(** ** The world and its generator *)

Section GeneratedWorld.

Import Game Sim.

Lemma new_asGenerated st seed : asGenerated (Game.new st seed).
Proof.
  intros x y c. rewrite new_cellAt.
  case_bool_decide as H11; [intros [= <-]; left; tauto|].
  case_bool_decide; [|done]. intros [= <-]. right. apply cellKept_refl.
Qed.

Lemma generateWorld_asGenerated g start end_ :
  asGenerated g -> asGenerated (generateWorld start end_ g).
Proof.
  intros Hg x y c. rewrite generateWorld_cellAt.
  change (generator (generateWorld start end_ g)) with (generator g).
  destruct (bool_decide (evicted g start y)).
  - case_bool_decide; [|done]. intros [= <-]. right. apply cellKept_refl.
  - destruct (cellAt (tiles g) x y) as [c0|] eqn:Hc.
    + intros [= <-]. by apply Hg.
    + case_bool_decide; [|done]. intros [= <-]. right. apply cellKept_refl.
Qed.

Lemma worldKept_asGenerated g g' :
  worldKept g g' -> asGenerated g -> asGenerated g'.
Proof.
  intros (_ & Hgen & _ & _ & _ & Hcells) Hg x y c' Hc'.
  specialize (Hcells x y). rewrite Hgen.
  destruct (cellAt (tiles g) x y) as [c|] eqn:Hc; [|congruence].
  destruct Hcells as (c'' & Hc'' & Hkept).
  assert (c'' = c') as -> by congruence.
  destruct (Hg x y c Hc) as [(-> & -> & ->)|Hk].
  - left. destruct Hkept as [->|(? & ? & [=] & _)]. done.
  - right. by eapply cellKept_trans.
Qed.

Lemma run_asGenerated g g' : run g g' -> asGenerated g -> asGenerated g'.
Proof.
  induction 1 as [|g1 g2 g3 Hcall _ IH]; [done|].
  intros Hg. apply IH. destruct Hcall.
  - by apply generateWorld_asGenerated.
  - eapply worldKept_asGenerated; [apply step_worldKept | done].
Qed.

Lemma run_generator g g' : run g g' -> generator g' = generator g.
Proof.
  induction 1 as [|g1 g2 g3 Hcall _ IH]; [done|].
  rewrite IH. destruct Hcall; [done|].
  by destruct (step_worldKept inputs elapsedTime g) as (_ & ? & _).
Qed.

(** X13.  The world is a function of the seed: in every game met in a
    run, a cell is what the generator of the game says of its place,
    left as it was generated or consumed; the only other cell is the
    plain tile that the constructor puts at (1, 1). *)
Theorem world_as_generated st g :
  reachable st g ->
  exists seed, 0 <= seed < 1
    /\ generator g = WorldGenerator.mk st seed
    /\ forall x y c, cellAt (tiles g) x y = Some c ->
         (x = 1%Z /\ y = 1%Z /\ c = Tile)
         \/ cellKept (WorldGenerator.classify (WorldGenerator.mk st seed) x y) c.
Proof.
  intros (seed & Hseed & Hrun). exists seed. split; [done|].
  pose proof (run_generator _ _ Hrun) as Hgen. split; [done|].
  pose proof (run_asGenerated _ _ Hrun (new_asGenerated st seed)) as Hg.
  intros x y c Hc. specialize (Hg x y c Hc). by rewrite Hgen in Hg.
Qed.

Lemma world_as_generated_witness :
  let g := generateWorld 3 20 (Game.new defaultSettings 0) in
  reachable defaultSettings g
  /\ exists seed, generator g = WorldGenerator.mk defaultSettings seed.
Proof.
  intros g.
  assert (H : reachable defaultSettings g).
  { exists 0. split; [lra|]. apply rtc_once, call_generateWorld. }
  split; [exact H|].
  destruct (world_as_generated defaultSettings g H) as (seed & _ & Hgen & _).
  by exists seed.
Defined.

Lemma classify_walkable gen x y c :
  cellKept (WorldGenerator.classify gen x y) c -> instanceofTile c = true ->
  (instanceofPowerUpTile c = true -> x = y /\ (1 <= x)%Z)
  /\ (instanceofPowerUpTile c = false ->
      Rabs (IZR x - IZR y) < gameWidth (WorldGenerator.settings gen)).
Proof.
  unfold WorldGenerator.classify.
  destruct (WorldGenerator.isPowerUp gen x y) eqn:Hp.
  - intros Hk _.
    assert (Hc : instanceofPowerUpTile c = true).
    { destruct Hk as [->|(? & ? & _ & ->)]; done. }
    split; [|congruence]. intros _.
    unfold WorldGenerator.isPowerUp in Hp.
    apply andb_true_iff in Hp as [Hp _]. apply andb_true_iff in Hp as [H1 H2].
    apply bool_decide_eq_true in H1, H2. done.
  - destruct (WorldGenerator.isTile gen x y) eqn:Ht.
    + intros [->|(? & ? & [=] & _)] _. split; [done|]. intros _.
      unfold WorldGenerator.isTile in Ht.
      case_bool_decide as Hw; [done|]. lra.
    + intros [->|(? & ? & [=] & _)]. done.
Qed.

(** X14.  In every game met in a run (with a positive [gameWidth]), the
    cells one can walk on lie in the band around the diagonal where
    [|x - y| < gameWidth], and the power-ups lie on the diagonal itself,
    at [x = y >= 1]. *)
Theorem walkable_band st g x y c :
  reachable st g -> 0 < gameWidth st ->
  cellAt (tiles g) x y = Some c -> instanceofTile c = true ->
  Rabs (IZR x - IZR y) < gameWidth st
  /\ (instanceofPowerUpTile c = true -> x = y /\ (1 <= x)%Z).
Proof.
  intros (seed & Hseed & Hrun) Hw Hc Htile.
  pose proof (run_generator _ _ Hrun) as Hgen.
  pose proof (run_asGenerated _ _ Hrun (new_asGenerated st seed) x y c Hc) as Hg.
  rewrite Hgen in Hg. cbn [Game.new generateWorld generator set_viewport set_tiles] in Hg.
  destruct Hg as [(-> & -> & ->)|Hk].
  - split; [|done]. replace (IZR 1 - IZR 1) with 0 by ring.
    by rewrite Rabs_R0.
  - destruct (classify_walkable _ x y c Hk Htile) as [Hpu Hband].
    cbn [WorldGenerator.settings] in Hband.
    split; [|exact Hpu].
    destruct (instanceofPowerUpTile c) eqn:Hp; [|by apply Hband].
    destruct (Hpu eq_refl) as [-> _].
    replace (IZR y - IZR y) with 0 by ring. by rewrite Rabs_R0.
Qed.

Lemma walkable_band_witness :
  let g := Game.new defaultSettings 0 in
  reachable defaultSettings g /\ 0 < gameWidth defaultSettings
  /\ cellAt (tiles g) 1 1 = Some Tile /\ instanceofTile Tile = true
  /\ Rabs (IZR 1 - IZR 1) < gameWidth defaultSettings.
Proof.
  intros g.
  assert (H : reachable defaultSettings g).
  { exists 0. split; [lra|]. apply rtc_refl. }
  assert (Hw : 0 < gameWidth defaultSettings) by (simpl; lra).
  assert (Hc : cellAt (tiles g) 1 1 = Some Tile).
  { unfold g. rewrite new_cellAt. by rewrite bool_decide_true. }
  assert (Ht : instanceofTile Tile = true) by reflexivity.
  repeat (split; [assumption|]).
  exact (proj1 (walkable_band defaultSettings g 1 1 Tile H Hw Hc Ht)).
Defined.

Lemma new_windowFull st seed :
  (0 < rendererTilesOnScreen st)%Z -> windowFull (Game.new st seed).
Proof.
  intros HT x y Hx Hy. rewrite new_cellAt. simpl in Hx, Hy.
  case_bool_decide; [eauto|]. rewrite bool_decide_true by lia. eauto.
Qed.

Lemma generateWorld_windowFull g start end_ :
  windowFull g -> (viewportStart g <= Z.max 0 start)%Z ->
  windowFull (generateWorld start end_ g).
Proof.
  intros Hfull Hfwd x y Hx Hy. simpl in Hx, Hy.
  rewrite generateWorld_cellAt.
  rewrite bool_decide_false by (unfold evicted; lia).
  destruct (cellAt (tiles g) x y) as [c|] eqn:Hc; [eauto|].
  rewrite bool_decide_true; [eauto|].
  unfold generated, skipped.
  destruct (decide (x <= viewportEnd g /\ y <= viewportEnd g)%Z) as [Hin|Hout].
  - destruct (Hfull x y) as [c Hc']; [lia|lia|congruence].
  - lia.
Qed.

Lemma worldKept_windowFull g g' :
  worldKept g g' -> windowFull g -> windowFull g'.
Proof.
  intros (_ & _ & Hs & He & _ & Hcells) Hfull x y Hx Hy.
  rewrite Hs, He in Hx, Hy. specialize (Hcells x y).
  destruct (Hfull x y Hx Hy) as [c Hc]. rewrite Hc in Hcells.
  destruct Hcells as (c' & -> & _). eauto.
Qed.

(** X15.  As long as the trailing edge of the window does not move
    back, the window has no hole: a new game (with a positive
    [rendererTilesOnScreen]) holds a cell at every place of its window;
    a call of [generateWorld] whose [start] is not behind the old
    [viewportStart] keeps it so, and so does a call of [update].  A
    window that moves back is not filled again: after the windows
    (5, 15) and then (0, 20), the place (0, 0) is in the window and holds
    no cell. *)
Theorem window_has_no_hole :
  (forall st seed, (0 < rendererTilesOnScreen st)%Z ->
     windowFull (Game.new st seed))
  /\ (forall g start end_,
        windowFull g -> (viewportStart g <= Z.max 0 start)%Z ->
        windowFull (generateWorld start end_ g))
  /\ (forall g inputs elapsedTime,
        windowFull g -> windowFull (step inputs elapsedTime g).2)
  /\ ~ windowFull (generateWorld 0 20
                     (generateWorld 5 15 (Game.new defaultSettings 0))).
Proof.
  split; [apply new_windowFull|].
  split; [apply generateWorld_windowFull|].
  split.
  - intros g inputs e. apply worldKept_windowFull, step_worldKept.
  - intros Hfull. destruct (Hfull 0%Z 0%Z) as [c Hc]; [simpl; lia..|].
    revert Hc. rewrite generateWorld_cellAt.
    rewrite bool_decide_false by (unfold evicted; simpl; lia).
    rewrite generateWorld_cellAt.
    rewrite bool_decide_true by (unfold evicted; simpl; lia).
    rewrite bool_decide_false by (unfold generated; simpl; lia).
    rewrite bool_decide_false; [done|].
    unfold generated, skipped. simpl. lia.
Qed.

Lemma window_has_no_hole_witness :
  let g := Game.new defaultSettings 0 in
  windowFull g /\ (viewportStart g <= Z.max 0 3)%Z
  /\ windowFull (generateWorld 3 20 g).
Proof.
  intros g.
  assert (H : windowFull g).
  { apply (proj1 window_has_no_hole). simpl. lia. }
  assert (Hs : (viewportStart g <= Z.max 0 3)%Z) by (simpl; lia).
  split; [exact H|]. split; [exact Hs|].
  exact (proj1 (proj2 window_has_no_hole) g 3%Z 20%Z H Hs).
Defined.

End GeneratedWorld.
(** ** The tiles under the player *)

Section TilesUnderPlayer.

Import Game Sim.

Variable w : World.

Let walkable (these : list (Z * Z)) : Prop :=
  NoDup these /\ forall xy, xy ∈ these -> isTileAt w xy.1 xy.2 = true.

Lemma walkable_snoc these (x y : Z) :
  walkable these -> isTileAt w x y = true -> (x, y) ∉ these ->
  walkable (these ++ [(x, y)]).
Proof.
  intros [Hnd Hall] Ht Hnew. split.
  - apply NoDup_app. split; [done|]. split; [|apply NoDup_singleton].
    intros xy Hin ->%list_elem_of_singleton. done.
  - intros xy [Hin| ->%list_elem_of_singleton]%elem_of_app; [by apply Hall|done].
Qed.

Lemma scanVertex_walkable sc v :
  walkable (theseTiles sc) -> walkable (theseTiles (scanVertex w sc v)).
Proof.
  intros Hw. unfold scanVertex. cbn [theseTiles].
  destruct (isTileAt w _ _) eqn:Ht; [|done]. cbn [andb].
  case_bool_decide as Hnew; [|done]. by apply walkable_snoc.
Qed.

Lemma scanVertex_grows sc v xy :
  xy ∈ theseTiles sc -> xy ∈ theseTiles (scanVertex w sc v).
Proof.
  intros Hin. unfold scanVertex. cbn [theseTiles].
  destruct (_ && _); [|done]. apply elem_of_app. by left.
Qed.

Lemma scanVertex_finds sc v :
  isTileAt w (floor (vx v)) (floor (vy v)) = true ->
  (floor (vx v), floor (vy v)) ∈ theseTiles (scanVertex w sc v).
Proof.
  intros Ht. unfold scanVertex. cbn [theseTiles]. rewrite Ht. cbn [andb].
  case_bool_decide as Hnew.
  - apply elem_of_app. right. by apply list_elem_of_singleton.
  - done.
Qed.

Lemma scanVertices_spec vs : forall sc,
  walkable (theseTiles sc) ->
  let sc' := foldl (scanVertex w) sc vs in
  walkable (theseTiles sc')
  /\ (forall xy, xy ∈ theseTiles sc -> xy ∈ theseTiles sc')
  /\ (forall v, v ∈ vs -> isTileAt w (floor (vx v)) (floor (vy v)) = true ->
        (floor (vx v), floor (vy v)) ∈ theseTiles sc').
Proof.
  induction vs as [|v vs IH]; intros sc Hw; cbn [foldl].
  - split; [done|]. split; [done|]. by intros v ?%elem_of_nil.
  - destruct (IH (scanVertex w sc v) (scanVertex_walkable sc v Hw))
      as (Hw' & Hgrow & Hfind).
    split; [done|]. split.
    + intros xy Hin. by apply Hgrow, scanVertex_grows.
    + intros v' [->|Hin]%elem_of_cons Ht; [|by apply Hfind].
      by apply Hgrow, scanVertex_finds.
Qed.

End TilesUnderPlayer.

Section TilesUnderPlayer2.

Import Game Sim.

Lemma scanCells_Throw g path e cells :
  foldl (scanCell g path) (Throw e) cells = Throw e.
Proof. induction cells as [|xy cells IH]; [done|]. cbn [foldl]. exact IH. Qed.

Lemma scanCells_spec g path cells : forall these these',
  foldl (scanCell g path) (Done these) cells = Done these' ->
  (NoDup these /\ forall xy, xy ∈ these -> isTileAt (tiles g) xy.1 xy.2 = true) ->
  (NoDup these' /\ forall xy, xy ∈ these' -> isTileAt (tiles g) xy.1 xy.2 = true)
  /\ (forall xy, xy ∈ these -> xy ∈ these').
Proof.
  induction cells as [|[x y] cells IH]; intros these these'; cbn [foldl].
  - intros [= <-] Hw. done.
  - unfold scanCell at 2. cbn [obind].
    destruct (isTileAt (tiles g) x y) eqn:Ht; [|apply IH].
    case_bool_decide as Hnew; [|apply IH].
    destruct (Collisions.isPointInPath _ path) as [[]|e]; cbn [obind].
    + intros Hfold Hw.
      destruct (IH _ _ Hfold (walkable_snoc (tiles g) these x y Hw Ht Hnew))
        as [Hw' Hgrow].
      split; [done|]. intros xy Hin. apply Hgrow, elem_of_app. by left.
    + apply IH.
    + by rewrite scanCells_Throw.
Qed.

(** X16.  When [playerIsOnTheseTiles] returns, it returns cells of the
    world that one can walk on, each of them once, and among them every
    such cell that lies under a vertex of the footprint of the
    player. *)
Theorem playerIsOnTheseTiles_spec g these :
  playerIsOnTheseTiles g = Done these ->
  NoDup these
  /\ (forall x y, (x, y) ∈ these -> isTileAt (tiles g) x y = true)
  /\ (forall path v,
        Player.getCollisionPath (player g) = Done path ->
        v ∈ vertices path ->
        isTileAt (tiles g) (floor (vx v)) (floor (vy v)) = true ->
        (floor (vx v), floor (vy v)) ∈ these).
Proof.
  unfold playerIsOnTheseTiles.
  destruct (Player.getCollisionPath (player g)) as [path|] eqn:Hpath; [|done].
  cbn [obind]. intros Hfold.
  set (sc0 := mkScan _ _ _ _ []) in Hfold.
  destruct (scanVertices_spec (tiles g) (vertices path) sc0)
    as (Hw1 & _ & Hfind).
  { split; [apply NoDup_nil_2|]. by intros xy ?%elem_of_nil. }
  destruct (scanCells_spec g path _ _ _ Hfold Hw1) as [[Hnd Hall] Hgrow].
  split; [done|]. split.
  - intros x y Hin. by apply (Hall (x, y)).
  - intros path' v [= <-] Hv Ht. by apply Hgrow, Hfind.
Qed.

Lemma playerIsOnTheseTiles_spec_witness :
  let g := Game.new defaultSettings 0 in
  playerIsOnTheseTiles g = Done [(1, 1)%Z]
  /\ isTileAt (tiles g) 1 1 = true.
Proof.
  intros g.
  assert (H : playerIsOnTheseTiles g = Done [(1, 1)%Z])
    by apply new_playerIsOnTheseTiles.
  split; [exact H|].
  apply (proj1 (proj2 (playerIsOnTheseTiles_spec g _ H))).
  apply list_elem_of_singleton. reflexivity.
Defined.

End TilesUnderPlayer2.
(** ** What a call of [update] does to the player *)

(** A relation between the player before and after, kept by every
    method that [update] calls, is kept by [update]. *)
Section PlayerKept.

Import Game Sim.

Context (Q : Player.Player -> Player.Player -> Prop) `{!PreOrder Q}.

Hypothesis Q_endRotation : forall p, Q p (Player.endRotation p).
Hypothesis Q_updateRotation : forall now p, Q p (Player.updateRotation now p).
Hypothesis Q_resetAltitude : forall p, Q p (Player.resetAltitude p).
Hypothesis Q_updateAltitude : forall now p, Q p (Player.updateAltitude now p).
Hypothesis Q_setOrientation : forall theta p, Q p (Player.setOrientation theta p).
Hypothesis Q_land : forall p, Q p (Player.land p).
Hypothesis Q_eatPowerUp : forall now p, Q p (Player.eatPowerUp now p).
Hypothesis Q_setInAir : forall now p, Q p (Player.setInAir now p).
Hypothesis Q_jump : forall now p, Q p (Player.jump now p).
Hypothesis Q_beginRotation : forall now p, Q p (Player.beginRotation now p).
Hypothesis Q_flyTowards : forall d dt p, Q p (Player.flyTowards d dt p).

#[local] Instance onPlayers_preorder : PreOrder (onPlayers Q).
Proof.
  split.
  - intros g. unfold onPlayers. reflexivity.
  - intros g1 g2 g3 H12 H23. unfold onPlayers in *. by etransitivity.
Qed.

Lemma onPlayers_same g g' : player g' = player g -> onPlayers Q g g'.
Proof. intros H. unfold onPlayers. rewrite H. reflexivity. Qed.

Lemma onPlayers_consume now g xy : onPlayers Q g (consume now g xy).
Proof.
  unfold consume.
  destruct (cellAt (tiles g) xy.1 xy.2) as [[| |[] since]|];
    try reflexivity.
  unfold onPlayers. simpl. apply Q_eatPowerUp.
Qed.

Lemma onPlayers_consumeAll now these g :
  onPlayers Q g (foldl (consume now) g these).
Proof.
  revert g. induction these as [|xy these IH]; intros g; simpl.
  - reflexivity.
  - etransitivity; [apply onPlayers_consume | apply IH].
Qed.

Ltac kept :=
  repeat first
    [ apply preserves_bind; [apply _| |intros ?]
    | apply preserves_gets; apply _
    | apply preserves_read; apply _
    | apply preserves_ret; apply _
    | apply preserves_lift; apply _
    | apply preserves_when; [apply _|]
    | apply preserves_modify; intros ?;
      first [ apply onPlayers_consumeAll
            | apply onPlayers_same; reflexivity
            | unfold onPlayers; cbn [player set_player];
              first [ apply Q_endRotation | apply Q_updateRotation
                    | apply Q_resetAltitude | apply Q_updateAltitude
                    | apply Q_setOrientation | apply Q_land
                    | apply Q_setInAir | apply Q_jump
                    | apply Q_beginRotation | apply Q_flyTowards ] ]
    | match goal with
      | |- preserves _ (if ?b then _ else _) => destruct b
      | |- preserves _ (match ?x with _ => _ end) => destruct x
      end ].

Lemma resolveEvent_onPlayers ev : preserves (onPlayers Q) (resolveEvent ev).
Proof. unfold resolveEvent, onPlayer. kept. Qed.

Lemma checkCollisions_onPlayers : preserves (onPlayers Q) checkCollisions.
Proof. unfold checkCollisions, onPlayer. kept. Qed.

Lemma examineInputs_onPlayers inputs :
  preserves (onPlayers Q) (examineInputs inputs).
Proof. unfold examineInputs, onPlayer. kept. Qed.

Lemma changeOrientation_onPlayers d ev :
  preserves (onPlayers Q) (changeOrientation d ev).
Proof. unfold changeOrientation, onPlayer. kept. Qed.

Lemma settle_onPlayers : preserves (onPlayers Q) settle.
Proof.
  apply preserves_settle; try apply _; intros; by apply onPlayers_same.
Qed.

Lemma step_onPlayers inputs elapsedTime :
  preserves (onPlayers Q) (step inputs elapsedTime).
Proof.
  unfold step, untilInputs, fromInputs.
  repeat first
    [ apply resolveEvent_onPlayers
    | apply checkCollisions_onPlayers
    | apply examineInputs_onPlayers
    | apply changeOrientation_onPlayers
    | apply settle_onPlayers
    | apply preserves_bind; [apply _| |intros ?]
    | apply preserves_gets; apply _
    | apply preserves_ret; apply _
    | apply preserves_lift; apply _ ].
Qed.

Lemma run_onPlayers g g' : run g g' -> onPlayers Q g g'.
Proof.
  apply run_preserved; [apply _| |apply step_onPlayers].
  intros g0 start end_. by apply onPlayers_same.
Qed.

End PlayerKept.

(** *** The blocks of one call *)

Section StepBlocks.

Import Game Sim.

Lemma readDirection_Done inputs :
  exists d, readDirection inputs = Done d
    /\ (d = V.ZERO \/ V.length d = 1)
    /\ (V.lengthSquared d > 0 <-> V.lengthSquared (direction inputs) > 0).
Proof.
  unfold readDirection. case_bool_decide as Hm.
  - assert (Hne : direction inputs <> V.ZERO).
    { intros H0. apply lengthSquared_zero in H0. lra. }
    exists (V.multiply (direction inputs) (1 / V.length (direction inputs))).
    assert (Hn : V.normalize (direction inputs)
                 = Done (V.multiply (direction inputs)
                           (1 / V.length (direction inputs))))
      by (by apply normalize_Done).
    split; [done|]. pose proof (normalize_length _ _ Hn) as Hl.
    split; [by right|]. split; [done|]. intros _.
    rewrite <- length_sqr, Hl. lra.
  - exists (direction inputs). split; [done|].
    pose proof (lengthSquared_nonneg (direction inputs)).
    split; [|done]. left. apply lengthSquared_zero. lra.
Qed.

Lemma step_blocks inputs e g d :
  readDirection inputs = Done d ->
  let ev := nextEvent d e g in
  exists g1 o2 g2,
    resolveEvent ev g = (Done tt, g1) /\ checkCollisions g1 = (o2, g2)
    /\ match o2 with
       | Throw err => step inputs e g = (Throw err, g2)
       | Done _ =>
           exists g3 g4 g5,
             examineInputs inputs g2 = (Done tt, g3)
             /\ changeOrientation d ev g3 = (Done tt, g4)
             /\ settle g4 = (Done tt, g5)
             /\ step inputs e g = (Done (dt ev), g5)
       end.
Proof.
  intros Hd ev.
  destruct (resolveEvent_pace ev g) as (g1 & Hres & _).
  destruct (checkCollisions_pace g1) as (o2 & g2 & Hcc & _).
  exists g1, o2, g2. split; [done|]. split; [done|].
  pose proof (untilInputs_eval inputs e g d g1 o2 g2 Hd Hres Hcc) as Huntil.
  destruct o2 as [[]|err].
  - destruct (examineInputs_pace inputs g2) as (g3 & Hex & _).
    destruct (changeOrientation_pace d ev g3) as (g4 & Hch & _).
    destruct (settle_pace g4) as (g5 & Hse & _).
    exists g3, g4, g5. repeat (split; [done|]).
    unfold step, bind. rewrite Huntil.
    by apply (fromInputs_eval inputs (d, ev) g2 g3 g4 g5).
  - unfold step, bind. by rewrite Huntil.
Qed.

End StepBlocks.

(** *** Invariants of the player *)

Section PlayerInvariants.

Import Game Sim.

#[local] Instance sameBody_preorder : PreOrder sameBody.
Proof.
  split.
  - intros p. by repeat split.
  - intros p1 p2 p3 (A1 & A2 & A3 & A4 & A5) (B1 & B2 & B3 & B4 & B5).
    repeat split; congruence.
Qed.

#[local] Instance levelGrows_preorder : PreOrder levelGrows.
Proof.
  split.
  - intros p. unfold levelGrows. lia.
  - intros p1 p2 p3. unfold levelGrows. lia.
Qed.

#[local] Instance settled_preorder :
  PreOrder (fun p p' : Player.Player => settled p -> settled p').
Proof. split; [by intros p|]. intros p1 p2 p3 H12 H23 H1. auto. Qed.

Lemma step_sameBody inputs elapsedTime :
  preserves (onPlayers sameBody) (step inputs elapsedTime).
Proof. apply step_onPlayers; try apply _; intros; by repeat split. Qed.

Lemma resolveEvent_sameBody ev :
  preserves (onPlayers sameBody) (resolveEvent ev).
Proof. apply resolveEvent_onPlayers; try apply _; intros; by repeat split. Qed.

Lemma step_levelGrows inputs elapsedTime :
  preserves (onPlayers levelGrows) (step inputs elapsedTime).
Proof.
  apply step_onPlayers; try apply _; intros; unfold levelGrows; simpl; lia.
Qed.

Lemma step_settled inputs elapsedTime :
  preserves (onPlayers (fun p p' => settled p -> settled p'))
            (step inputs elapsedTime).
Proof.
  apply step_onPlayers; try apply _; cbv beta; intros;
    match goal with
    | H : settled _ |- _ => destruct H as (H1 & H2 & H3)
    end;
    unfold settled; simpl; repeat split; intros; try done; auto.
Qed.

Lemma run_settings g g' : run g g' -> settings g' = settings g.
Proof.
  induction 1 as [|g1 g2 g3 Hcall _ IH]; [done|].
  rewrite IH. destruct Hcall; [done|].
  by destruct (step_worldKept inputs elapsedTime g) as (? & _).
Qed.

Lemma new_body st seed : body st (player (Game.new st seed)).
Proof. by repeat split. Qed.

Lemma new_settled st seed : settled (player (Game.new st seed)).
Proof. unfold settled. simpl. auto. Qed.

Lemma reachable_body st g : reachable st g -> body st (player g).
Proof.
  intros (seed & _ & Hrun).
  assert (Hkept : onPlayers sameBody (Game.new st seed) g).
  { revert Hrun. apply run_onPlayers; try apply _; intros; by repeat split. }
  destruct Hkept as (A1 & A2 & A3 & A4 & A5).
  destruct (new_body st seed) as (B1 & B2 & B3 & B4 & B5).
  repeat split; congruence.
Qed.

Lemma reachable_settled st g : reachable st g -> settled (player g).
Proof.
  intros (seed & _ & Hrun).
  assert (Hkept : onPlayers (fun p p' => settled p -> settled p')
                            (Game.new st seed) g).
  { revert Hrun. apply run_onPlayers; try apply _; cbv beta; intros;
      match goal with
      | H : settled _ |- _ => destruct H as (H1 & H2 & H3)
      end;
      unfold settled; simpl; repeat split; intros; try done; auto. }
  apply Hkept, new_settled.
Qed.

(** X17.  In every game met in a run, the settings are the ones the
    game was made with; the size, the acceleration and the jump velocity
    of the player are the ones of the settings; a player that is not in
    a quarter turn has rotation 0; a player on the ground has velocity
    zero, and a player in the air the velocity of a fall (zero) or of a
    jump. *)
Theorem player_invariants st g :
  reachable st g ->
  settings g = st /\ body st (player g) /\ settled (player g).
Proof.
  intros Hreach. split; [|split].
  - destruct Hreach as (seed & _ & Hrun). by rewrite (run_settings _ _ Hrun).
  - by apply reachable_body.
  - by apply (reachable_settled st).
Qed.

Lemma player_invariants_witness :
  let g := (step (mkGameInputs (mkVect 1 1 0) true) 1
                 (Game.new defaultSettings 0)).2 in
  reachable defaultSettings g /\ settled (player g).
Proof.
  intros g.
  assert (H : reachable defaultSettings g).
  { exists 0. split; [lra|]. apply rtc_once, call_update. lra. }
  split; [exact H|].
  exact (proj2 (proj2 (player_invariants defaultSettings g H))).
Defined.

Lemma step_levels inputs e g :
  (Player.level (player (step inputs e g).2)
   + powerUpsLeft (tiles (step inputs e g).2)
   = Player.level (player g) + powerUpsLeft (tiles g))%nat.
Proof.
  destruct (readDirection inputs) as [d|err] eqn:Hd.
  2:{ unfold step, untilInputs, bind, lift. by rewrite Hd. }
  destruct (step_blocks inputs e g d Hd)
    as (g1 & o2 & g2 & Hres & Hcc & Hrest).
  destruct (resolveEvent_pace (nextEvent d e g) g)
    as (g1' & Hres' & _ & Htl1 & _ & _ & Hlv1 & _).
  rewrite Hres in Hres'. injection Hres' as <-.
  destruct (checkCollisions_pace g1) as (o2' & g2' & Hcc' & _ & _ & Hsum & _).
  rewrite Hcc in Hcc'. injection Hcc' as <- <-.
  destruct o2 as [[]|err].
  - destruct Hrest as (g3 & g4 & g5 & Hex & Hch & Hse & ->). cbn [snd].
    destruct (examineInputs_pace inputs g2) as (g3' & Hex' & Hp3).
    rewrite Hex in Hex'. injection Hex' as <-.
    destruct (changeOrientation_pace d (nextEvent d e g) g3)
      as (g4' & Hch' & _ & Htl4 & _ & _ & Hlv4 & _).
    rewrite Hch in Hch'. injection Hch' as <-.
    destruct (settle_pace g4) as (g5' & Hse' & Hp5).
    rewrite Hse in Hse'. injection Hse' as <-.
    destruct (pace_levels _ _ Hp3) as [Hlv3 Htl3].
    destruct (pace_levels _ _ Hp5) as [Hlv5 Htl5].
    rewrite Hlv5, Htl5, Hlv4, Htl4, Hlv3, Htl3, Hsum, Hlv1, Htl1. done.
  - rewrite Hrest. cbn [snd]. by rewrite Hsum, Hlv1, Htl1.
Qed.

(** X18.  A call of [update] raises the level by exactly the number of
    power-ups that it consumes: the level plus the number of power-ups
    of the world that are not consumed is the same before and after the
    call.  [generateWorld] leaves the level alone, and along a run the
    level never decreases. *)
Theorem level_counts_powerUps :
  (forall inputs elapsedTime g,
     let g' := (step inputs elapsedTime g).2 in
     (Player.level (player g') + powerUpsLeft (tiles g')
      = Player.level (player g) + powerUpsLeft (tiles g))%nat)
  /\ (forall g start end_,
        Player.level (player (generateWorld start end_ g))
        = Player.level (player g))
  /\ (forall g g', run g g' ->
        (Player.level (player g) <= Player.level (player g'))%nat).
Proof.
  split; [intros; apply step_levels|]. split; [done|].
  intros g g' Hrun.
  assert (Hkept : onPlayers levelGrows g g'); [|exact Hkept].
  revert Hrun. apply run_onPlayers; try apply _; intros;
    unfold levelGrows; simpl; lia.
Qed.

Lemma level_counts_powerUps_witness :
  let g := Game.new defaultSettings 0 in
  let g' := (step (mkGameInputs (mkVect 1 1 0) false) 1 g).2 in
  run g g' /\ (Player.level (player g) <= Player.level (player g'))%nat.
Proof.
  intros g g'.
  assert (H : run g g') by (apply rtc_once, call_update; lra).
  split; [exact H|].
  exact (proj2 (proj2 level_counts_powerUps) g g' H).
Defined.

End PlayerInvariants.

(** *** The footprint of the player *)

Section FootprintOfPlayer.

Import Game Sim.

Lemma footprint_Done base n0 theta o d :
  P.new base = Done (mkPath base n0) ->
  let path := mkPath (map (fun u => V.add (about V.rotateZ theta o u) d) base)
                     (V.rotateZ n0 theta) in
  obind (P.new base) (fun p0 =>
  obind (P.rotateZ p0 theta o) (fun p1 => P.translate p1 d)) = Done path
  /\ built path.
Proof.
  intros Hbase path. rewrite Hbase. cbn [obind].
  assert (Hb0 : built (mkPath base n0)) by exact Hbase.
  destruct (built_rotate _ theta o Hb0) as (_ & _ & Hrot).
  rewrite Hrot. cbn [obind].
  assert (Hb1 : built (movedPath (about V.rotateZ theta o)
                                 (fun n => V.rotateZ n theta) (mkPath base n0)))
    by (by apply (rotate_built V.rotateZ (mkPath base n0) theta o)).
  pose proof (built_translate _ d Hb1) as Htr.
  assert (Hpath : movedPath (fun u => V.add u d) (fun n => n)
                    (movedPath (about V.rotateZ theta o)
                               (fun n => V.rotateZ n theta) (mkPath base n0))
                  = path).
  { unfold movedPath, path. cbn [vertices normal]. by rewrite map_map. }
  rewrite Hpath in Htr. split; [exact Htr|].
  exact (translate_built _ d path Htr).
Qed.

Lemma square_new (s : Vect) :
  vx s <> 0 -> vy s <> 0 ->
  exists n0, P.new [V.ZERO; V.cloneY s; V.cloneXY s; V.cloneX s]
             = Done (mkPath [V.ZERO; V.cloneY s; V.cloneXY s; V.cloneX s] n0)
    /\ (0 < vx s -> 0 < vy s -> n0 = mkVect 0 0 (-1)).
Proof.
  intros Hx Hy. destruct s as [sx sy sz]. simpl in Hx, Hy.
  assert (Hxy : sx * sy <> 0) by (by apply Rmult_integral_contrapositive).
  eexists. split.
  - apply new_general.
    unfold V.cross, V.substract, V.add, V.multiply, V.cloneX, V.cloneY,
      V.cloneXY, V.ZERO; simpl.
    intros [= E1 E2 E3]. apply Hxy. nra.
  - simpl. intros Hx' Hy'.
    assert (Hc : V.cross (V.substract (V.cloneY (mkVect sx sy sz)) V.ZERO)
                   (V.substract (V.cloneXY (mkVect sx sy sz))
                                (V.cloneY (mkVect sx sy sz)))
                 = V.multiply (mkVect 0 0 (-1)) (sx * sy)).
    { unfold V.cross, V.substract, V.add, V.multiply, V.cloneX, V.cloneY,
        V.cloneXY, V.ZERO; simpl. apply vect_eq; ring. }
    rewrite Hc.
    assert (Hn : V.normalize (V.multiply (mkVect 0 0 (-1)) (sx * sy))
                 = Done (mkVect 0 0 (-1))).
    { apply normalize_multiply_unit; [|nra].
      unfold V.length, pow_half, V.lengthSquared, V.dot. simpl.
      replace (0 * 0 + 0 * 0 + -1 * -1) with 1 by ring. apply sqrt_1. }
    by apply normalize_Done in Hn as [_ <-].
Qed.

Lemma diamond_new (s : Vect) :
  let base := [ V.cloneX s;
                V.add (V.multiply (V.cloneX s) (SQRT2 / 2))
                      (V.multiply (V.cloneY s) (1 / 2));
                V.cloneXY s;
                V.add (V.multiply (V.cloneX s) SQRT2)
                      (V.multiply (V.cloneY s) (1 / 2)) ] in
  vx s <> 0 -> vy s <> 0 ->
  exists n0, P.new base = Done (mkPath base n0)
    /\ (0 < vx s -> 0 < vy s -> n0 = mkVect 0 0 (-1)).
Proof.
  intros base Hx Hy. destruct s as [sx sy sz]. simpl in Hx, Hy.
  assert (Hxy : sx * sy <> 0) by (by apply Rmult_integral_contrapositive).
  eexists. split.
  - apply new_general.
    unfold V.cross, V.substract, V.add, V.multiply, V.cloneX, V.cloneY,
      V.cloneXY, V.ZERO; simpl.
    intros [= E1 E2 E3]. apply Hxy. unfold SQRT2 in E3. nra.
  - simpl. intros Hx' Hy'.
    match goal with
    | |- V.multiply ?c _ = _ =>
        assert (Hc : c = V.multiply (mkVect 0 0 (-1))
                           (sx * sy * (1 - SQRT2 / 2)))
    end.
    { unfold V.cross, V.substract, V.add, V.multiply, V.cloneX, V.cloneY,
        V.cloneXY, V.ZERO; simpl. apply vect_eq; ring. }
    rewrite Hc.
    assert (Hn : V.normalize (V.multiply (mkVect 0 0 (-1))
                                (sx * sy * (1 - SQRT2 / 2)))
                 = Done (mkVect 0 0 (-1))).
    { apply normalize_multiply_unit; [|unfold SQRT2; nra].
      unfold V.length, pow_half, V.lengthSquared, V.dot. simpl.
      replace (0 * 0 + 0 * 0 + -1 * -1) with 1 by ring. apply sqrt_1. }
    by apply normalize_Done in Hn as [_ <-].
Qed.

Lemma getCollisionPath_Throw (p : Player.Player) :
  vx (Player.s p) = 0 \/ vy (Player.s p) = 0 ->
  Player.getCollisionPath p = Throw ZeroVector.
Proof.
  intros H0. unfold Player.getCollisionPath.
  destruct (Player.s p) as [sx sy sz]. simpl in H0.
  assert (Hxy : sx * sy = 0) by (destruct H0 as [->| ->]; ring).
  destruct (Player.inRotation p).
  - rewrite new_collinear; [done|].
    unfold V.cross, V.substract, V.add, V.multiply, V.cloneX, V.cloneY,
      V.cloneXY, V.ZERO; simpl. apply vect_eq; try ring.
    transitivity (sx * sy * (SQRT2 / 2 - 1)); [ring | rewrite Hxy; ring].
  - rewrite new_collinear; [done|].
    unfold V.cross, V.substract, V.add, V.multiply, V.cloneX, V.cloneY,
      V.cloneXY, V.ZERO; simpl. apply vect_eq; try ring.
    transitivity (- (sx * sy)); [ring | rewrite Hxy; ring].
Qed.

Lemma getCollisionPath_Done (p : Player.Player) :
  let s := Player.s p in
  let base :=
    if Player.inRotation p
    then [ V.cloneX s;
           V.add (V.multiply (V.cloneX s) (SQRT2 / 2))
                 (V.multiply (V.cloneY s) (1 / 2));
           V.cloneXY s;
           V.add (V.multiply (V.cloneX s) SQRT2)
                 (V.multiply (V.cloneY s) (1 / 2)) ]
    else [ V.ZERO; V.cloneY s; V.cloneXY s; V.cloneX s ] in
  let move u :=
    V.add (about V.rotateZ (Player.orientation p) (V.multiply s (1 / 2)) u)
          (V.substract (Player.position p)
                       (V.multiply (V.cloneXY s) (1 / 2))) in
  vx s <> 0 -> vy s <> 0 ->
  exists n, Player.getCollisionPath p = Done (mkPath (map move base) n)
    /\ built (mkPath (map move base) n)
    /\ (0 < vx s -> 0 < vy s -> n = mkVect 0 0 (-1)).
Proof.
  intros s base move Hx Hy. unfold Player.getCollisionPath. fold s.
  unfold base. destruct (Player.inRotation p).
  - destruct (diamond_new s Hx Hy) as (n0 & Hnew & Hn0).
    destruct (footprint_Done _ n0 (Player.orientation p)
                (V.multiply s (1 / 2))
                (V.substract (Player.position p)
                             (V.multiply (V.cloneXY s) (1 / 2))) Hnew)
      as [Heq Hbuilt].
    eexists. split; [exact Heq|]. split; [exact Hbuilt|].
    intros Hx' Hy'. rewrite (Hn0 Hx' Hy').
    unfold V.rotateZ. simpl. apply vect_eq; ring.
  - destruct (square_new s Hx Hy) as (n0 & Hnew & Hn0).
    destruct (footprint_Done _ n0 (Player.orientation p)
                (V.multiply s (1 / 2))
                (V.substract (Player.position p)
                             (V.multiply (V.cloneXY s) (1 / 2))) Hnew)
      as [Heq Hbuilt].
    eexists. split; [exact Heq|]. split; [exact Hbuilt|].
    intros Hx' Hy'. rewrite (Hn0 Hx' Hy').
    unfold V.rotateZ. simpl. apply vect_eq; ring.
Qed.

(** X19.  [getCollisionPath] throws, with the error of [normalize],
    exactly when the x or the y size of the player is 0.  Otherwise the
    footprint is a path that the constructor has built: the square (or,
    in a quarter turn, the kite) of the source, turned by the
    orientation about the centre of the player and moved to its
    position; its vertices are at the altitude of the player, its normal
    points down when the sizes are positive, and outside a quarter turn
    its four vertices are at half a diagonal from the position of the
    player, whatever the orientation. *)
Theorem getCollisionPath_spec (p : Player.Player) :
  let s := Player.s p in
  let base :=
    if Player.inRotation p
    then [ V.cloneX s;
           V.add (V.multiply (V.cloneX s) (SQRT2 / 2))
                 (V.multiply (V.cloneY s) (1 / 2));
           V.cloneXY s;
           V.add (V.multiply (V.cloneX s) SQRT2)
                 (V.multiply (V.cloneY s) (1 / 2)) ]
    else [ V.ZERO; V.cloneY s; V.cloneXY s; V.cloneX s ] in
  let move u :=
    V.add (about V.rotateZ (Player.orientation p) (V.multiply s (1 / 2)) u)
          (V.substract (Player.position p)
                       (V.multiply (V.cloneXY s) (1 / 2))) in
  (forall e, Player.getCollisionPath p = Throw e
             <-> e = ZeroVector /\ (vx s = 0 \/ vy s = 0))
  /\ (forall path, Player.getCollisionPath p = Done path ->
        built path
        /\ vertices path = map move base
        /\ (forall v, v ∈ vertices path -> vz v = vz (Player.position p))
        /\ (0 < vx s -> 0 < vy s -> normal path = mkVect 0 0 (-1))
        /\ (Player.inRotation p = false ->
            forall v, v ∈ vertices path ->
              (vx v - vx (Player.position p)) * (vx v - vx (Player.position p))
              + (vy v - vy (Player.position p)) * (vy v - vy (Player.position p))
              = (vx s * vx s + vy s * vy s) / 4)).
Proof.
  intros s base move.
  destruct (Req_dec (vx s) 0) as [Hx|Hx];
    [|destruct (Req_dec (vy s) 0) as [Hy|Hy]].
  1,2: rewrite getCollisionPath_Throw by (fold s; tauto);
       (split; [|done]); intros e; split; [intros [= <-]|intros [-> _]];
       tauto.
  destruct (getCollisionPath_Done p Hx Hy) as (n & Heq & Hbuilt & Hn).
  fold s in Heq, Hbuilt, Hn. fold base in Heq, Hbuilt. fold move in Heq, Hbuilt.
  rewrite Heq. split.
  { intros e. split; [done|]. intros [_ [?|?]]; done. }
  intros path [= <-]. cbn [vertices normal].
  split; [exact Hbuilt|]. split; [done|]. split; [|split; [exact Hn|]].
  - intros v (u & -> & Hu)%list_elem_of_fmap.
    assert (Hz : vz u = 0).
    { unfold base in Hu. destruct (Player.inRotation p);
        repeat (apply elem_of_cons in Hu as [->|Hu]);
        try (by apply elem_of_nil in Hu); simpl; ring. }
    unfold move, about, V.add, V.substract, V.multiply, V.rotateZ, V.cloneXY.
    simpl. rewrite Hz. ring.
  - intros Hrot v (u & -> & Hu)%list_elem_of_fmap.
    unfold base in Hu. rewrite Hrot in Hu.
    pose proof (cos2_sin2 (Player.orientation p)) as Hcs.
    set (c := cos (Player.orientation p)) in *.
    set (sn := sin (Player.orientation p)) in *.
    assert (Hgen : forall a b : R,
              (a * c - b * sn) * (a * c - b * sn)
              + (b * c + a * sn) * (b * c + a * sn) = a * a + b * b).
    { intros a b. transitivity ((a * a + b * b) * (c * c + sn * sn));
        [ring | rewrite Hcs; ring]. }
    repeat (apply elem_of_cons in Hu as [->|Hu]);
      try (by apply elem_of_nil in Hu);
      unfold move, about, V.add, V.substract, V.multiply, V.rotateZ,
        V.cloneXY, V.cloneX, V.cloneY, V.ZERO; simpl; fold c; fold sn.
    + specialize (Hgen (- (vx s / 2)) (- (vy s / 2))).
      match goal with |- ?L = ?R => transitivity
        ((- (vx s / 2) * c - - (vy s / 2) * sn) * (- (vx s / 2) * c - - (vy s / 2) * sn)
         + (- (vy s / 2) * c + - (vx s / 2) * sn) * (- (vy s / 2) * c + - (vx s / 2) * sn));
        [field | rewrite Hgen; field] end.
    + specialize (Hgen (- (vx s / 2)) (vy s / 2)).
      match goal with |- ?L = ?R => transitivity
        ((- (vx s / 2) * c - (vy s / 2) * sn) * (- (vx s / 2) * c - (vy s / 2) * sn)
         + ((vy s / 2) * c + - (vx s / 2) * sn) * ((vy s / 2) * c + - (vx s / 2) * sn));
        [field | rewrite Hgen; field] end.
    + specialize (Hgen (vx s / 2) (vy s / 2)).
      match goal with |- ?L = ?R => transitivity
        (((vx s / 2) * c - (vy s / 2) * sn) * ((vx s / 2) * c - (vy s / 2) * sn)
         + ((vy s / 2) * c + (vx s / 2) * sn) * ((vy s / 2) * c + (vx s / 2) * sn));
        [field | rewrite Hgen; field] end.
    + specialize (Hgen (vx s / 2) (- (vy s / 2))).
      match goal with |- ?L = ?R => transitivity
        (((vx s / 2) * c - - (vy s / 2) * sn) * ((vx s / 2) * c - - (vy s / 2) * sn)
         + (- (vy s / 2) * c + (vx s / 2) * sn) * (- (vy s / 2) * c + (vx s / 2) * sn));
        [field | rewrite Hgen; field] end.
Qed.

Lemma getCollisionPath_spec_witness :
  let p := Player.new defaultSettings in
  exists path, Player.getCollisionPath p = Done path /\ built path.
Proof.
  intros p.
  assert (H : exists path, Player.getCollisionPath p = Done path).
  { destruct (getCollisionPath_Done p) as (n & Heq & _);
      [simpl; lra..|]. eauto. }
  destruct H as [path H]. exists path. split; [exact H|].
  exact (proj1 (proj2 (getCollisionPath_spec p) path H)).
Defined.

End FootprintOfPlayer.

(** *** Exceptions *)

Section NoThrow.

Import Game Sim.

Lemma scanCells_Done g path cells : forall these,
  built path ->
  exists these', foldl (scanCell g path) (Done these) cells = Done these'.
Proof.
  induction cells as [|[x y] cells IH]; intros these Hb; cbn [foldl].
  - eauto.
  - unfold scanCell at 2. cbn [obind].
    destruct (isTileAt (tiles g) x y); [|by apply IH].
    case_bool_decide; [|by apply IH].
    rewrite (isPointInPath_built (vertices path) path _ Hb). cbn [obind].
    by apply IH.
Qed.

Lemma playerIsOnTheseTiles_Done g :
  vx (Player.s (player g)) <> 0 -> vy (Player.s (player g)) <> 0 ->
  exists these, playerIsOnTheseTiles g = Done these.
Proof.
  intros Hx Hy.
  destruct (getCollisionPath_Done (player g) Hx Hy) as (n & Heq & Hb & _).
  unfold playerIsOnTheseTiles. rewrite Heq. cbn [obind].
  by apply scanCells_Done.
Qed.

Lemma checkCollisions_Done g :
  (exists these, playerIsOnTheseTiles g = Done these) ->
  exists g2, checkCollisions g = (Done tt, g2).
Proof.
  intros [these Hthese].
  unfold checkCollisions, bind, gets, onPlayer, modify, when, ret.
  cbn [fst snd].
  destruct (bool_decide (vz (Player.position (player g)) = 0)); [|by eexists].
  rewrite Hthese. destruct these as [|xy these].
  - destruct (negb (Player.inAir (player g))); by eexists.
  - cbn [fst snd player set_player].
    destruct (negb (Player.inRotation (Player.land (player g)))); by eexists.
Qed.

Lemma step_Done inputs e g :
  vx (Player.s (player g)) <> 0 -> vy (Player.s (player g)) <> 0 ->
  exists dt g', step inputs e g = (Done dt, g')
    /\ Player.s (player g') = Player.s (player g).
Proof.
  intros Hx Hy.
  destruct (readDirection_Done inputs) as (d & Hd & _).
  destruct (step_blocks inputs e g d Hd) as (g1 & o2 & g2 & Hres & Hcc & Hrest).
  assert (Hs1 : Player.s (player g1) = Player.s (player g)).
  { pose proof (resolveEvent_sameBody (nextEvent d e g) g) as H.
    rewrite Hres in H. by destruct H as (_ & _ & ? & _). }
  destruct (checkCollisions_Done g1) as [g2' Hcc'].
  { apply playerIsOnTheseTiles_Done; by rewrite Hs1. }
  rewrite Hcc' in Hcc. injection Hcc as <- <-.
  destruct Hrest as (g3 & g4 & g5 & _ & _ & _ & Hstep).
  exists (dt (nextEvent d e g)), g5. split; [done|].
  pose proof (step_sameBody inputs e g) as H. rewrite Hstep in H.
  by destruct H as (_ & _ & ? & _).
Qed.

Lemma update_Done fuel : forall inputs e g o g',
  vx (Player.s (player g)) <> 0 -> vy (Player.s (player g)) <> 0 ->
  update fuel inputs e g = Some (o, g') -> o = Done tt.
Proof.
  induction fuel as [|fuel IH]; intros inputs e g o g' Hx Hy; [done|].
  cbn [update].
  destruct (step_Done inputs e g Hx Hy) as (dt' & g1 & -> & Hs).
  case_bool_decide.
  - apply IH; by rewrite Hs.
  - by intros [= <- _].
Qed.

(** X20.  With a size of the player that is not 0, a call of [update]
    on a game met in a run never throws: the direction is read without
    an exception (it becomes the zero vector or a vector of length 1),
    the footprint is always built, one call returns its [dt], and a
    chain of calls that ends, ends by returning.  With the default
    settings the chain does end, so that [update] always returns. *)
Theorem update_never_throws st g inputs (elapsedTime : R) :
  reachable st g -> playerSize st <> 0 ->
  (exists d, readDirection inputs = Done d
     /\ (d = V.ZERO \/ V.length d = 1))
  /\ (exists dt g', step inputs elapsedTime g = (Done dt, g'))
  /\ (forall fuel o g',
        update fuel inputs elapsedTime g = Some (o, g') -> o = Done tt)
  /\ (st = defaultSettings -> 0 <= elapsedTime ->
      exists fuel g', update fuel inputs elapsedTime g = Some (Done tt, g')).
Proof.
  intros Hreach Hsize.
  destruct (reachable_body st g Hreach) as (_ & _ & Hs & _).
  assert (Hx : vx (Player.s (player g)) <> 0)
    by (rewrite Hs; simpl; lra).
  assert (Hy : vy (Player.s (player g)) <> 0)
    by (rewrite Hs; simpl; lra).
  split.
  { destruct (readDirection_Done inputs) as (d & Hd & Hlen & _). eauto. }
  split.
  { destruct (step_Done inputs elapsedTime g Hx Hy) as (dt' & g' & H & _).
    eauto. }
  split.
  { intros fuel o g'. by apply update_Done. }
  intros -> He.
  destruct (readDirection_Done inputs) as (d & Hd & _).
  destruct (update_fuel (Z.to_nat (stepsLeft d elapsedTime g))
              inputs elapsedTime g d Hd
              (reachable_paceInvariant g Hreach) He ltac:(lia))
    as (o & g' & Hup & _).
  rewrite (update_Done _ _ _ _ _ _ Hx Hy Hup) in Hup. eauto.
Qed.

Lemma update_never_throws_witness :
  let g := Game.new defaultSettings 0 in
  let inputs := mkGameInputs (mkVect 1 1 0) true in
  reachable defaultSettings g /\ playerSize defaultSettings <> 0
  /\ exists dt g', step inputs 1 g = (Done dt, g').
Proof.
  intros g inputs.
  assert (H : reachable defaultSettings g).
  { exists 0. split; [lra|]. apply rtc_refl. }
  assert (Hs : playerSize defaultSettings <> 0) by (simpl; lra).
  split; [exact H|]. split; [exact Hs|].
  exact (proj1 (proj2 (update_never_throws defaultSettings g inputs 1 H Hs))).
Defined.

End NoThrow.
(** ** Speeds, quarter turns and jumps *)

Section Speeds2.

Import Game Sim.

#[local] Instance statsOfLevel_preorder :
  PreOrder (fun p p' : Player.Player =>
              sameBody p p' /\ (statsOfLevel p -> statsOfLevel p')).
Proof.
  split.
  - intros p. split; [by repeat split|done].
  - intros p1 p2 p3 [(A1 & A2 & A3 & A4 & A5) H12] [(B1 & B2 & B3 & B4 & B5) H23].
    split; [repeat split; congruence | auto].
Qed.

Lemma reachable_statsOfLevel st g : reachable st g -> statsOfLevel (player g).
Proof.
  intros (seed & _ & Hrun).
  assert (Hkept : onPlayers (fun p p' => sameBody p p'
                                         /\ (statsOfLevel p -> statsOfLevel p'))
                            (Game.new st seed) g).
  { revert Hrun. apply run_onPlayers; try apply _; cbv beta; intros;
      (split; [by repeat split|]); done. }
  apply Hkept. by repeat split.
Qed.

(** X21.  In every game met in a run, the three speeds of the player are
    the ones that the level gives: the velocity
    [gameTimeBetweenPowerUps * gameAcceleration * (level + 2)
     + gameInitialVelocity] in the air, and that velocity divided by the
    size of the player, times [PI / 2], for the quarter turns and for
    the changes of orientation. *)
Theorem speeds_follow_level st g :
  reachable st g ->
  let p := player g in
  let velocity :=
    gameTimeBetweenPowerUps st * gameAcceleration st
    * (INR (Player.level p) + 2) + gameInitialVelocity st in
  Player.inAirVelocity p = velocity
  /\ Player.rotationAngularVelocity p = velocity / playerSize st * PI / 2
  /\ Player.orientationAngularVelocity p = velocity / playerSize st * PI / 2.
Proof.
  intros Hreach p velocity.
  destruct (reachable_statsOfLevel st g Hreach) as (H1 & H2 & H3).
  destruct (reachable_body st g Hreach) as (Hst & Hside & _).
  fold p in H1, H2, H3, Hst, Hside.
  unfold Player.statsVelocity in H1, H2. rewrite Hst in H1, H2.
  rewrite Hside in H2. fold velocity in H1, H2.
  split; [done|]. split; [done|]. congruence.
Qed.

Lemma speeds_follow_level_witness :
  let g := Game.new defaultSettings 0 in
  reachable defaultSettings g
  /\ Player.inAirVelocity (player g)
     = 10 * (0.1 * SQRT2) * (INR 0 + 2) + 1.0 * SQRT2.
Proof.
  intros g.
  assert (H : reachable defaultSettings g).
  { exists 0. split; [lra|]. apply rtc_refl. }
  split; [exact H|].
  exact (proj1 (speeds_follow_level defaultSettings g H)).
Defined.

End Speeds2.

(** *** Beginning a quarter turn *)

Section BeginTurn.

Import Game Sim.

Lemma resolveEvent_idle ev g :
  dt ev <> dtRotation ev -> dt ev <> dtFalling ev ->
  dt ev <> dtOrientation ev ->
  Player.inRotation (player g) = false -> Player.inAir (player g) = false ->
  resolveEvent ev g = (Done tt, set_t (t g + dt ev) g).
Proof.
  intros HR HF HO Hrot Hair.
  unfold resolveEvent, bind, gets, modify, when, onPlayer, ret.
  cbn [fst snd player set_t t].
  rewrite !bool_decide_false by done. rewrite Hrot.
  change (player (set_t (t g + dt ev) g)) with (player g).
  by rewrite Hair.
Qed.

(** The next event of a player at rest that faces the way asked. *)
Lemma nextEvent_facing d e g :
  Player.inRotation (player g) = false -> Player.inAir (player g) = false ->
  V.lengthSquared d > 0 ->
  Player.orientation (player g) = atan2 (vy d) (vx d) ->
  nextEvent d e g
  = mkEvent 0 0 0 false (atan2 (vy d) (vx d)) e.
Proof.
  intros Hrot Hair Hm Ho. unfold nextEvent.
  rewrite Hrot, Hair. rewrite (bool_decide_true _ Hm).
  unfold checkOrientation. rewrite Hrot, Ho. cbn [negb andb].
  replace (atan2 (vy d) (vx d) - atan2 (vy d) (vx d)) with 0 by ring.
  rewrite fmod_0, Rabs_R0.
  rewrite bool_decide_false by (unfold EPSILON; lra).
  done.
Qed.

Lemma step_begins_turn inputs e g d xy these :
  readDirection inputs = Done d -> V.lengthSquared d > 0 ->
  0 < e ->
  Player.inRotation (player g) = false -> Player.inAir (player g) = false ->
  Player.orientation (player g) = atan2 (vy d) (vx d) ->
  vz (Player.position (player g)) = 0 ->
  playerIsOnTheseTiles g = Done (xy :: these) ->
  jump inputs = false -> jumpQueued g = false ->
  exists g', step inputs e g = (Done e, g')
    /\ Player.inRotation (player g') = true
    /\ Player.inRotationSince (player g') = t g + e
    /\ Player.rotation (player g') = 0
    /\ Player.orientation (player g') = Player.orientation (player g)
    /\ t g' = t g + e.
Proof.
  intros Hd Hm He Hrot Hair Ho Hz Hon Hj Hq.
  destruct (step_blocks inputs e g d Hd) as (g1 & o2 & g2 & Hres & Hcc & Hrest).
  rewrite (nextEvent_facing d e g Hrot Hair Hm Ho) in Hres, Hrest.
  rewrite resolveEvent_idle in Hres by (cbn; try done; lra).
  injection Hres as <-. cbn [dt] in Hcc.
  (* the collision check *)
  revert Hcc.
  unfold checkCollisions, bind, gets, when, onPlayer, modify, ret.
  cbn [fst snd player set_t].
  rewrite bool_decide_true by done.
  change (playerIsOnTheseTiles (set_t (t g + e) g))
    with (playerIsOnTheseTiles g).
  rewrite Hon. cbn [player set_player].
  change (player (set_t (t g + e) g)) with (player g).
  replace (Player.inRotation (Player.land (player g))) with false
    by (by rewrite <- Hrot).
  cbn [negb]. intros [= <- Hg2].
  set (g0 := set_player (Player.land (player g)) (set_t (t g + e) g)).
  assert (Hg2' : g2 = foldl (consume (t g + e)) g0 (xy :: these))
    by (rewrite <- Hg2; reflexivity).
  clear Hg2.
  destruct (consumeAll_motion (t g + e) (xy :: these) g0)
    as ((A1 & A2 & A3 & A4 & A5) & B & C).
  destruct (consumeAll_pace (t g + e) (xy :: these) g0) as (Hturn & _).
  rewrite <- Hg2' in A1, A3, B, C, Hturn.
  destruct (turn_fields _ _ Hturn) as (T1 & T2 & T3 & T4 & T5).
  cbn in A1, A3, B, C, T2, T4.
  destruct Hrest as (g3 & g4 & g5 & Hex & Hch & Hse & Hstep).
  (* the inputs *)
  assert (g3 = g2) as ->.
  { revert Hex. unfold examineInputs, bind, gets, when, ret.
    rewrite Hj, C, Hq. cbn [orb]. by intros [= <-]. }
  (* the orientation *)
  revert Hch. unfold changeOrientation, bind, gets, when, onPlayer, modify, ret.
  cbn [fst snd angle dt orientationClockwise].
  rewrite (bool_decide_true _ Hm), T4, Hrot. cbn [negb andb].
  rewrite T2, Ho.
  replace (atan2 (vy d) (vx d) - atan2 (vy d) (vx d)) with 0 by ring.
  rewrite fmod_0, Rabs_R0.
  rewrite bool_decide_true by (unfold EPSILON; lra).
  cbn [fst snd player set_player Player.setOrientation Player.set_orientation
       Player.inAir].
  rewrite A1. cbn [negb].
  cbn [fst snd player set_player t].
  match goal with
  | |- (if ?c then _ else _) _ = _ -> _ => destruct c
  end; intros [= <-].
  all: match type of Hse with
       | settle ?g4 = _ => destruct (settle_pace g4) as (g5' & Hse' & Hp5)
       end;
    rewrite Hse in Hse'; injection Hse' as <-;
    destruct (turn_fields _ _ (pace_turn _ _ Hp5)) as (S1 & S2 & S3 & S4 & S5);
    exists g5; (split; [exact Hstep|]);
    rewrite S1, S2, S3, S4, S5; cbn; rewrite ?B; by rewrite ?Ho.
Qed.

Lemma readDirection_x :
  readDirection (mkGameInputs (mkVect 1 0 0) false) = Done (mkVect 1 0 0).
Proof.
  unfold readDirection. cbn [direction].
  rewrite bool_decide_true
    by (unfold V.lengthSquared, V.dot; simpl; lra).
  assert (Hl : V.length (mkVect 1 0 0) = 1) by (apply axis_length; ring).
  assert (Hn : V.normalize (mkVect 1 0 0)
               = Done (V.multiply (mkVect 1 0 0) (1 / V.length (mkVect 1 0 0)))).
  { apply normalize_Done. split; [|done]. intros [= H]. lra. }
  rewrite Hn, Hl. f_equal. unfold V.multiply. simpl. apply vect_eq; lra.
Qed.

Lemma atan2_x : atan2 (vy (mkVect 1 0 0)) (vx (mkVect 1 0 0)) = 0.
Proof.
  unfold atan2. simpl. rewrite bool_decide_true by lra.
  replace (0 / 1) with 0 by lra. apply atan_0.
Qed.


(** X22.  A player at rest on a tile, that faces the heading asked by
    the inputs and is not asked to jump, begins a quarter turn in a call
    that is given some time: [update] takes the whole time given (more
    than 0) and leaves the player in a quarter turn that begins at the
    time reached, with rotation 0 and the same orientation. *)
Theorem walk_begins_turn inputs (elapsedTime : R) g d xy these :
  readDirection inputs = Done d -> V.lengthSquared d > 0 ->
  0 < elapsedTime ->
  Player.inRotation (player g) = false -> Player.inAir (player g) = false ->
  Player.orientation (player g) = atan2 (vy d) (vx d) ->
  vz (Player.position (player g)) = 0 ->
  playerIsOnTheseTiles g = Done (xy :: these) ->
  jump inputs = false -> jumpQueued g = false ->
  exists g', step inputs elapsedTime g = (Done elapsedTime, g')
    /\ Player.inRotation (player g') = true
    /\ Player.inRotationSince (player g') = t g + elapsedTime
    /\ Player.rotation (player g') = 0
    /\ Player.orientation (player g') = Player.orientation (player g)
    /\ t g' = t g + elapsedTime.
Proof. apply step_begins_turn. Qed.

Lemma walk_begins_turn_witness :
  let inputs := mkGameInputs (mkVect 1 0 0) false in
  let g := Game.new defaultSettings 0 in
  exists g', step inputs 1 g = (Done 1, g')
    /\ Player.inRotation (player g') = true.
Proof.
  intros inputs g.
  assert (Hd : readDirection inputs = Done (mkVect 1 0 0))
    by apply readDirection_x.
  assert (Hm : V.lengthSquared (mkVect 1 0 0) > 0)
    by (unfold V.lengthSquared, V.dot; simpl; lra).
  assert (He : 0 < 1) by lra.
  assert (Ho : Player.orientation (player g)
               = atan2 (vy (mkVect 1 0 0)) (vx (mkVect 1 0 0)))
    by (by rewrite atan2_x).
  assert (Hon : playerIsOnTheseTiles g = Done [(1, 1)%Z])
    by apply new_playerIsOnTheseTiles.
  destruct (walk_begins_turn inputs 1 g (mkVect 1 0 0) (1, 1)%Z [] Hd Hm He
              eq_refl eq_refl Ho eq_refl Hon eq_refl eq_refl)
    as (g' & Hstep & Hrot & _).
  exists g'. split; [exact Hstep | exact Hrot].
Defined.




End BeginTurn.
(** ** Edge cases of [update] *)

Section ZeroTime.

Import Game Sim.

#[local] Instance samePlace_preorder : PreOrder samePlace.
Proof.
  split.
  - by intros p.
  - intros p1 p2 p3 [A1 A2] [B1 B2]. split; congruence.
Qed.

Lemma checkCollisions_samePlace : preserves (onPlayers samePlace) checkCollisions.
Proof. apply checkCollisions_onPlayers; try apply _; intros; by split. Qed.

Lemma examineInputs_samePlace inputs :
  preserves (onPlayers samePlace) (examineInputs inputs).
Proof. apply examineInputs_onPlayers; try apply _; intros; by split. Qed.

Lemma readDirection_ZERO inputs :
  direction inputs = V.ZERO -> readDirection inputs = Done V.ZERO.
Proof.
  intros H. unfold readDirection. rewrite H.
  rewrite bool_decide_false; [done|].
  unfold V.lengthSquared, V.dot, V.ZERO. simpl. lra.
Qed.

Lemma nextEvent_idle g :
  Player.inRotation (player g) = false -> Player.inAir (player g) = false ->
  nextEvent V.ZERO 0 g = mkEvent 0 0 0 false 0 0.
Proof.
  intros Hrot Hair. unfold nextEvent. rewrite Hrot, Hair.
  rewrite bool_decide_false; [done|].
  unfold V.lengthSquared, V.dot, V.ZERO. simpl. lra.
Qed.

Lemma resolveEvent_zero g :
  resolveEvent (mkEvent 0 0 0 false 0 0) g
  = (Done tt,
     set_player
       (Player.setOrientation 0
          (Player.resetAltitude (Player.endRotation (player g))))
       (set_t (t g + 0) g)).
Proof.
  unfold resolveEvent, bind, gets, modify, when, onPlayer, ret.
  cbn [fst snd dt dtRotation dtFalling dtOrientation angle].
  rewrite !bool_decide_true by done. reflexivity.
Qed.

(** X24.  A call of [update] with time 0 is not a call that does
    nothing.  With no direction asked and a player that is neither in a
    quarter turn nor in the air, the call takes the time 0 and leaves
    the time of the game as it is, but it runs the end of a quarter turn
    and the end of a change of orientation all the same (their delays
    are 0 as well): the player is moved by one side along its
    orientation, put at altitude 0, and its orientation becomes 0. *)
Theorem update_zero_moves inputs g dt' g' :
  Player.inRotation (player g) = false -> Player.inAir (player g) = false ->
  direction inputs = V.ZERO ->
  step inputs 0 g = (Done dt', g') ->
  dt' = 0 /\ t g' = t g
  /\ Player.position (player g')
     = V.cloneXY
         (V.add (Player.position (player g))
                (V.rotateZ (mkVect (Player.side (player g)) 0 0)
                           (Player.orientation (player g))))
  /\ Player.orientation (player g') = 0.
Proof.
  intros Hrot Hair Hdir Hstep.
  pose proof (readDirection_ZERO inputs Hdir) as Hd.
  destruct (step_blocks inputs 0 g V.ZERO Hd)
    as (g1 & o2 & g2 & Hres & Hcc & Hrest).
  rewrite (nextEvent_idle g Hrot Hair) in Hres, Hrest.
  rewrite resolveEvent_zero in Hres. injection Hres as <-.
  destruct o2 as [[]|err]; [|congruence].
  destruct Hrest as (g3 & g4 & g5 & Hex & Hch & Hse & Hstep').
  rewrite Hstep in Hstep'. injection Hstep' as -> <-.
  cbn [dt]. split; [done|].
  (* the blocks after the events leave the place alone *)
  pose proof (checkCollisions_samePlace
                (set_player
                   (Player.setOrientation 0
                      (Player.resetAltitude (Player.endRotation (player g))))
                   (set_t (t g + 0) g))) as H2.
  rewrite Hcc in H2. cbn [snd] in H2. destruct H2 as [P2 O2].
  destruct (checkCollisions_pace
              (set_player
                 (Player.setOrientation 0
                    (Player.resetAltitude (Player.endRotation (player g))))
                 (set_t (t g + 0) g))) as (o2' & g2' & Hcc' & Hturn2 & _).
  rewrite Hcc in Hcc'. injection Hcc' as <- <-.
  destruct (turn_fields _ _ Hturn2) as (T2 & _).
  pose proof (examineInputs_samePlace inputs g2) as H3.
  rewrite Hex in H3. cbn [snd] in H3. destruct H3 as [P3 O3].
  destruct (examineInputs_pace inputs g2) as (g3' & Hex' & Hp3).
  rewrite Hex in Hex'. injection Hex' as <-.
  destruct (turn_fields _ _ (pace_turn _ _ Hp3)) as (T3 & _).
  assert (g4 = g3) as ->.
  { revert Hch. unfold changeOrientation, bind, gets, when, ret.
    rewrite bool_decide_false; [by intros [= <-]|].
    unfold V.lengthSquared, V.dot, V.ZERO. simpl. lra. }
  destruct (settle_pace g3) as (g5' & Hse' & Hp5).
  rewrite Hse in Hse'. injection Hse' as <-.
  destruct (turn_fields _ _ (pace_turn _ _ Hp5)) as (T5 & O5 & _).
  assert (P5 : Player.position (player g') = Player.position (player g3)).
  { revert Hse.
    unfold settle, bind, gets, modify, when, ret. cbn [fst snd].
    match goal with
    | |- (if ?c then _ else _) _ = _ -> _ => destruct c
    end; by intros [= <-]. }
  split; [|split].
  - rewrite T5, T3, T2. cbn. lra.
  - rewrite P5, P3, P2. reflexivity.
  - rewrite O5, O3, O2. reflexivity.
Qed.

Lemma update_zero_moves_witness :
  let inputs := mkGameInputs V.ZERO false in
  let g := Game.new defaultSettings 0 in
  exists dt' g', step inputs 0 g = (Done dt', g')
    /\ Player.position (player g')
       = V.cloneXY (V.add (mkVect 1.5 1.5 0) (V.rotateZ (mkVect 0.5 0 0) 0)).
Proof.
  intros inputs g.
  assert (H : exists dt' g', step inputs 0 g = (Done dt', g')).
  { destruct (step_Done inputs 0 g) as (dt' & g' & H & _); [simpl; lra..|].
    eauto. }
  destruct H as (dt' & g' & H). exists dt', g'. split; [exact H|].
  exact (proj1 (proj2 (proj2
           (update_zero_moves inputs g dt' g' eq_refl eq_refl eq_refl H)))).
Defined.

End ZeroTime.

(** ** Jumps *)

Section JumpTrajectory.

Import Game Sim.

Lemma nextEvent_dtFalling d e g :
  dtFalling (nextEvent d e g)
  = if Player.inAir (player g)
    then -2 * vz (Player.velocity (player g))
         / vz (Player.acceleration (player g))
         - (t g - Player.inAirSince (player g))
    else 0.
Proof.
  unfold nextEvent.
  destruct (if bool_decide (V.lengthSquared d > 0) then _ else _)
    as [[dO cw] pushed].
  reflexivity.
Qed.

(** X25.  A jump is a parabola.  For a player that jumps at [t0], with
    a negative vertical acceleration [a] and a jump velocity [v] that is
    not negative, [updateAltitude] puts the player at altitude 0 at
    [t0] and at [t0 + T] with [T = - 2 v / a]; in between the altitude
    is never negative and never above [v^2 / (- 2 a)], which it reaches
    at [t0 + T / 2].  And the delay [dtFalling] that [update] computes
    for a player in the air is the time left to the moment when
    [updateAltitude] gives altitude 0 again. *)
Theorem jump_trajectory (p : Player.Player) (t0 x : R) :
  let a := vz (Player.acceleration p) in
  let v := vz (Player.jumpVelocity p) in
  let T := - 2 * v / a in
  let z y := vz (Player.position
                   (Player.updateAltitude (t0 + y) (Player.jump t0 p))) in
  (a < 0 -> 0 <= v ->
   z 0 = 0 /\ z T = 0 /\ z (T / 2) = v * v / (- 2 * a)
   /\ (0 <= x <= T -> 0 <= z x <= v * v / (- 2 * a)))
  /\ (forall d e g,
        Player.inAir (player g) = true ->
        vz (Player.acceleration (player g)) <> 0 ->
        vz (Player.position
              (Player.updateAltitude (t g + dtFalling (nextEvent d e g))
                                     (player g))) = 0).
Proof.
  intros a v T z. split.
  - intros Ha Hv.
    assert (Hz : forall y, z y = y * y * a / 2 + y * v).
    { intros y. unfold z, Player.updateAltitude, Player.jump, Player.setInAir.
      cbn. fold a. fold v. replace (t0 + y - t0) with y by ring. done. }
    rewrite !Hz. unfold T.
    split; [field|]. split; [field; lra|]. split; [field; lra|].
    intros [Hx0 HxT].
    assert (HT : x * a >= - 2 * v).
    { apply Rle_ge. replace (- 2 * v) with (- 2 * v / a * a) by (field; lra).
      apply Rmult_le_compat_neg_l with (r := a) in HxT; [|lra].
      lra. }
    split.
    + replace (x * x * a / 2 + x * v) with (x * ((x * a + 2 * v) / 2))
        by field.
      apply Rmult_le_pos; lra.
    + cut (0 <= v * v / (- 2 * a) - (x * x * a / 2 + x * v)); [lra|].
      replace (v * v / (- 2 * a) - (x * x * a / 2 + x * v))
        with ((x * a + v) * (x * a + v) / (- 2 * a)) by (field; lra).
      apply Rmult_le_pos; [apply Rle_0_sqr|].
      apply Rlt_le, Rinv_0_lt_compat. lra.
  - intros d e g Hair Hacc.
    rewrite nextEvent_dtFalling, Hair.
    unfold Player.updateAltitude. cbn [Player.position Player.set_position vz].
    field. done.
Qed.

Lemma jump_trajectory_witness :
  let p := Player.new defaultSettings in
  vz (Player.acceleration p) < 0 /\ 0 <= vz (Player.jumpVelocity p)
  /\ vz (Player.position
           (Player.updateAltitude
              (0 + - 2 * vz (Player.jumpVelocity p) / vz (Player.acceleration p))
              (Player.jump 0 p))) = 0.
Proof.
  intros p.
  assert (Ha : vz (Player.acceleration p) < 0) by (simpl; lra).
  assert (Hv : 0 <= vz (Player.jumpVelocity p)) by (simpl; lra).
  split; [exact Ha|]. split; [exact Hv|].
  exact (proj1 (proj2 (proj1 (jump_trajectory p 0 0) Ha Hv))).
Defined.

End JumpTrajectory.

(** ** What a call of [update] leaves in the game *)

Section Postcondition.

Import Game Sim.

#[local] Instance ledgerKept_preorder : PreOrder ledgerKept.
Proof.
  split.
  - by intros g.
  - intros g1 g2 g3 (A1 & A2 & A3 & A4) (B1 & B2 & B3 & B4).
    repeat split; congruence.
Qed.

Lemma consume_ledgerKept now g xy : ledgerKept g (consume now g xy).
Proof.
  unfold consume.
  destruct (cellAt (tiles g) xy.1 xy.2) as [[| |[] since]|]; by repeat split.
Qed.

Lemma untilInputs_ledgerKept inputs e :
  preserves ledgerKept (untilInputs inputs e).
Proof.
  apply preserves_untilInputs; try apply _; intros;
    first [apply consume_ledgerKept | by repeat split].
Qed.

Lemma examineInputs_ledgerKept inputs :
  preserves ledgerKept (examineInputs inputs).
Proof. apply preserves_examineInputs; try apply _; intros; by repeat split. Qed.

Lemma changeOrientation_ledgerKept d ev :
  preserves ledgerKept (changeOrientation d ev).
Proof.
  apply preserves_changeOrientation; try apply _; intros; by repeat split.
Qed.

(** X26.  When a call of [update] returns, it leaves the settings as
    they were and the fields it derives as the source computes them
    from the place the player has reached: the camera position is the
    one of [getCameraPosition] at the time of the game; the score is the
    greater of the old score and the floor of the distance travelled
    along the diagonal; the game is over exactly when it was over
    before, or the player is behind the camera by more than the death
    zone, or the player is below the ground by more than [EPSILON]. *)
Theorem update_postcondition inputs (elapsedTime : R) g dt' g' :
  step inputs elapsedTime g = (Done dt', g') ->
  let p := player g' in
  let distance := V.dot axis (Player.position p) in
  settings g' = settings g
  /\ cameraPosition g' = getCameraPosition g' (t g')
  /\ score g'
     = Z.max (score g)
         (floor (distance - V.dot axis (playerInitialPosition (settings g))))
  /\ (gameOver g' = true
      <-> gameOver g = true
          \/ distance < cameraPosition g' - gameDeathZone (settings g)
          \/ vz (Player.position p) < - EPSILON).
Proof.
  intros Hstep p distance.
  destruct (readDirection_Done inputs) as (d & Hd & _).
  destruct (step_blocks inputs elapsedTime g d Hd)
    as (g1 & o2 & g2 & Hres & Hcc & Hrest).
  destruct o2 as [[]|err]; [|congruence].
  destruct Hrest as (g3 & g4 & g5 & Hex & Hch & Hse & Hstep').
  rewrite Hstep in Hstep'. injection Hstep' as -> <-.
  assert (Hkept : ledgerKept g g4).
  { pose proof (untilInputs_ledgerKept inputs elapsedTime g) as H2.
    rewrite (untilInputs_eval inputs elapsedTime g d g1 (Done tt) g2 Hd Hres Hcc)
      in H2. cbn [snd] in H2.
    pose proof (examineInputs_ledgerKept inputs g2) as H3.
    rewrite Hex in H3. cbn [snd] in H3.
    pose proof (changeOrientation_ledgerKept d (nextEvent d elapsedTime g) g3)
      as H4.
    rewrite Hch in H4. cbn [snd] in H4.
    etransitivity; [exact H2|]. etransitivity; [exact H3 | exact H4]. }
  destruct Hkept as (Hsc & Hgo & Hat & Hst).
  revert Hse. unfold settle, bind, gets, modify, when, ret. cbn [fst snd].
  cbn [gameOver cameraPosition set_score set_cameraPosition player settings
       score].
  rewrite Hgo, Hst, Hsc.
  set (dist4 := V.dot axis (Player.position (player g4))).
  set (cam := getCameraPosition g4 (t g4)).
  destruct (gameOver g) eqn:Hover; cbn [negb andb].
  - intros [= <-]. unfold distance, p.
    cbn [settings cameraPosition score gameOver player set_score
         set_cameraPosition t].
    split; [done|]. split.
    + unfold cam, getCameraPosition.
      cbn [settings gameOver gameOverAt t set_score set_cameraPosition].
      done.
    + split; [done|]. rewrite Hgo. tauto.
  - destruct (bool_decide (dist4 < cam - gameDeathZone (settings g))
              || bool_decide (vz (Player.position (player g4)) < - EPSILON))
      eqn:Hdead.
    + intros [= <-]. unfold distance, p.
      cbn [settings cameraPosition score gameOver player set_score
           set_cameraPosition set_gameOver t].
      split; [done|]. split.
      * unfold cam, getCameraPosition.
        cbn [settings gameOver gameOverAt t set_score set_cameraPosition
             set_gameOver].
        rewrite Hgo. cbn [negb orb].
        rewrite bool_decide_true by lra. done.
      * split; [done|]. split; [|done]. intros _. right.
        apply orb_true_iff in Hdead as [H|H];
          apply bool_decide_eq_true in H; tauto.
    + intros [= <-]. unfold distance, p.
      cbn [settings cameraPosition score gameOver player set_score
           set_cameraPosition t].
      split; [done|]. split.
      * unfold cam, getCameraPosition.
        cbn [settings gameOver gameOverAt t set_score set_cameraPosition].
        done.
      * split; [done|]. rewrite Hgo.
        apply orb_false_iff in Hdead as [H1 H2].
        apply bool_decide_eq_false in H1, H2.
        split; [done|]. intros [?|[?|?]]; done.
Qed.

Lemma update_postcondition_witness :
  let inputs := mkGameInputs V.ZERO false in
  let g := Game.new defaultSettings 0 in
  exists dt' g', step inputs 1 g = (Done dt', g')
    /\ cameraPosition g' = getCameraPosition g' (t g').
Proof.
  intros inputs g.
  assert (H : exists dt' g', step inputs 1 g = (Done dt', g')).
  { destruct (step_Done inputs 1 g) as (dt' & g' & H & _); [simpl; lra..|].
    eauto. }
  destruct H as (dt' & g' & H). exists dt', g'. split; [exact H|].
  exact (proj1 (proj2 (update_postcondition inputs 1 g dt' g' H))).
Defined.

End Postcondition.
(** ** The renderer *)

Section Projection.

Import Game.

Lemma default_scale (h : R) :
  h / (- (vy (Matrix.u (rendererProjectionMatrix defaultRendererSettings))
          + vy (Matrix.v (rendererProjectionMatrix defaultRendererSettings)))
       * IZR (rendererTilesOnScreen defaultSettings))
  = h / 15.
Proof. simpl. f_equal. lra. Qed.

Lemma default_scale_inv (h : R) :
  - (vy (Matrix.u (rendererProjectionMatrix defaultRendererSettings))
     + vy (Matrix.v (rendererProjectionMatrix defaultRendererSettings)))
    * IZR (rendererTilesOnScreen defaultSettings) / h
  = 15 / h.
Proof. simpl. f_equal. lra. Qed.

Lemma projection_default (h : R) (p : Vect) :
  Matrix.product
    (GameRenderer.projectionMatrix defaultSettings defaultRendererSettings h)
    p
  = mkVect (SQRT3 / 2 * (vx p - vy p) * (h / 15))
           (- (vx p / 2 + vy p / 2 + vz p) * (h / 15)) 0.
Proof.
  unfold GameRenderer.projectionMatrix. rewrite default_scale.
  unfold Matrix.product, Matrix.multiply, V.multiply. simpl.
  apply vect_eq; lra.
Qed.

Lemma inverted_default (h : R) (p : Vect) :
  Matrix.product
    (GameRenderer.invertedProjectionMatrix defaultSettings
       defaultRendererSettings h)
    p
  = mkVect ((SQRT3 / 3 * vx p - vy p) * (15 / h))
           ((- SQRT3 / 3 * vx p - vy p) * (15 / h)) 0.
Proof.
  unfold GameRenderer.invertedProjectionMatrix. rewrite default_scale_inv.
  unfold Matrix.product, Matrix.multiply, V.multiply. simpl.
  apply vect_eq; lra.
Qed.

Lemma viewWindow_default (W H c : R) :
  H <> 0 ->
  GameRenderer.viewWindow defaultSettings defaultRendererSettings W H c
  = (floor (c * SQRT2 / 2 - 5 / 2 * SQRT3 * W / H),
     Zceil (c * SQRT2 / 2 + 15 + 5 / 2 * SQRT3 * W / H)).
Proof.
  intros HH. unfold GameRenderer.viewWindow.
  rewrite projection_default, !inverted_default.
  unfold V.substract, V.add, V.multiply. cbn [vx vy vz fst snd].
  f_equal; f_equal; field; done.
Qed.

Lemma Zceil_le (x y : R) : x <= y -> (Zceil x <= Zceil y)%Z.
Proof.
  intros Hxy. unfold Zceil.
  assert (Zfloor (- y) <= Zfloor (- x))%Z by (apply Zfloor_le; lra). lia.
Qed.

Lemma Zceil_above (x : R) : x <= IZR (Zceil x).
Proof.
  unfold Zceil. rewrite opp_IZR.
  pose proof (Zfloor_bound (- x)) as [H _]. lra.
Qed.

(** X28.  With the default settings, for a canvas of positive height
    that is at least one pixel wide, the window that [directDraw] asks
    of [generateWorld] holds the camera and the fifteen tiles ahead of
    it along the diagonal: [start] is at most [c * SQRT2 / 2], the place
    of the camera counted in tiles, and [end] is at least that plus 15.
    When the camera advances, neither edge of the window moves back.
    (The width keeps the two edges away from the bounds by
    [5 / 2 * SQRT3 * W / H] tiles, which is more than the rounding of
    the source takes; with width 0 the bounds are met exactly, and the
    rounding can cross them.) *)
Theorem directDraw_window (W H c c' : R) :
  0 < H -> 1 <= W ->
  let w := GameRenderer.viewWindow defaultSettings defaultRendererSettings
             W H c in
  let w' := GameRenderer.viewWindow defaultSettings defaultRendererSettings
              W H c' in
  IZR w.1 <= c * SQRT2 / 2
  /\ c * SQRT2 / 2 + 15 <= IZR w.2
  /\ (w.1 + 15 <= w.2)%Z
  /\ (c <= c' -> (w.1 <= w'.1)%Z /\ (w.2 <= w'.2)%Z)
  /\ (forall g, settings g = defaultSettings -> cameraPosition g = c ->
        viewportStart (GameRenderer.directDraw defaultRendererSettings W H g)
        = Z.max 0 w.1
        /\ viewportEnd (GameRenderer.directDraw defaultRendererSettings W H g)
           = w.2).
Proof.
  intros HH HW w w'. unfold w, w'.
  rewrite !viewWindow_default by lra. cbn [fst snd].
  assert (Hpos : 0 < 5 / 2 * SQRT3 * W / H).
  { apply Rmult_lt_0_compat; [unfold SQRT3; nra|].
    apply Rinv_0_lt_compat. lra. }
  set (k := 5 / 2 * SQRT3 * W / H) in *.
  pose proof (Zfloor_bound (c * SQRT2 / 2 - k)) as [Hf _].
  pose proof (Zceil_above (c * SQRT2 / 2 + 15 + k)) as Hc.
  unfold floor.
  assert (H1 : IZR (Zfloor (c * SQRT2 / 2 - k)) <= c * SQRT2 / 2) by lra.
  assert (H2 : c * SQRT2 / 2 + 15 <= IZR (Zceil (c * SQRT2 / 2 + 15 + k)))
    by lra.
  split; [done|]. split; [done|]. split.
  { apply le_IZR. rewrite plus_IZR. lra. }
  split.
  { intros Hcc. split.
    - apply Zfloor_le. unfold SQRT2. lra.
    - apply Zceil_le. unfold SQRT2. lra. }
  intros g Hst Hcam. unfold GameRenderer.directDraw.
  rewrite Hst, Hcam, viewWindow_default by lra. done.
Qed.

Lemma directDraw_window_witness :
  let w := GameRenderer.viewWindow defaultSettings defaultRendererSettings
             800 600 0 in
  0 < 600 /\ 1 <= 800 /\ (w.1 + 15 <= w.2)%Z.
Proof.
  intros w.
  assert (HH : 0 < 600) by lra.
  assert (HW : 1 <= 800) by lra.
  split; [exact HH|]. split; [exact HW|].
  exact (proj1 (proj2 (proj2 (directDraw_window 800 600 0 0 HH HW)))).
Defined.

End Projection.

Section FaceColours.





End FaceColours.
(** ** The order in which a scene is drawn *)

Section SceneOrder.

Import GameSceneDrawer.

Lemma sceneOrder_elem start end_ x y :
  (x, y) ∈ sceneOrder start end_
  <-> (start <= x <= end_)%Z /\ (start <= y <= end_)%Z.
Proof.
  unfold sceneOrder. cbn zeta. rewrite list_elem_of_bind. split.
  - intros (i & (j & Hxy & Hj)%list_elem_of_bind & Hi).
    apply list_elem_of_singleton in Hxy as [= -> ->].
    apply elem_of_seqZ in Hi, Hj. lia.
  - intros [Hx Hy].
    exists ((end_ - x) + (end_ - y))%Z. split.
    + apply list_elem_of_bind. exists (end_ - x)%Z. split.
      * apply list_elem_of_singleton. f_equal; lia.
      * apply elem_of_seqZ. lia.
    + apply elem_of_seqZ. lia.
Qed.

Lemma sceneOrder_NoDup start end_ : NoDup (sceneOrder start end_).
Proof.
  unfold sceneOrder. cbn zeta. apply NoDup_bind.
  - intros i1 i2 [x y] _ _
      (j1 & [= -> ->]%list_elem_of_singleton & _)%list_elem_of_bind
      (j2 & [= H1 H2]%list_elem_of_singleton & _)%list_elem_of_bind.
    lia.
  - intros i _. apply NoDup_bind.
    + intros j1 j2 [x y] _ _ [= -> ->]%list_elem_of_singleton
        [= H1 H2]%list_elem_of_singleton. lia.
    + intros j _. apply NoDup_singleton.
    + apply NoDup_seqZ.
  - apply NoDup_seqZ.
Qed.

Lemma seqZ_sorted (m n : Z) : StronglySorted Z.lt (seqZ m n).
Proof.
  destruct (decide (n <= 0)%Z) as [Hn|Hn].
  { rewrite seqZ_nil by done. constructor. }
  rewrite <- (Z2Nat.id n) by lia. generalize (Z.to_nat n). clear Hn n.
  intros n. induction n as [|n IH].
  - rewrite seqZ_nil by lia. constructor.
  - rewrite seqZ_S. apply StronglySorted_app_2.
    + intros a b Ha ->%list_elem_of_singleton. apply elem_of_seqZ in Ha. lia.
    + exact IH.
    + repeat constructor.
Qed.

Lemma bind_sorted {A B} (R' : relation A) (R : relation B)
    (f : A -> list B) (l : list A) :
  StronglySorted R' l ->
  (forall x, x ∈ l -> StronglySorted R (f x)) ->
  (forall x x' a b, R' x x' -> a ∈ f x -> b ∈ f x' -> R a b) ->
  StronglySorted R (l ≫= f).
Proof.
  intros Hl Hf HR. induction Hl as [|x l Hl IH Hx].
  - constructor.
  - rewrite bind_cons. apply StronglySorted_app_2.
    + intros a b Ha (x' & Hb & Hx')%list_elem_of_bind.
      apply (HR x x'); try done.
      by apply (proj1 (Forall_forall _ _) Hx).
    + apply Hf. by left.
    + apply IH. intros x' Hx'. apply Hf. by right.
Qed.

Lemma same_sum_sorted (s : Z) (l : list (Z * Z)) :
  Forall (fun a => (a.1 + a.2 = s)%Z) l -> StronglySorted behind l.
Proof.
  induction 1 as [|a l Ha Hl IH]; constructor; [done|].
  eapply Forall_impl; [exact Hl|]. intros b Hb. unfold behind. cbv beta in Ha, Hb. lia.
Qed.

(** X30.  The two loops of [drawScene] visit every place of the square
    window of the scene, each place once, from the back to the front: a
    place is visited before the places whose sum of coordinates is
    smaller, so that what is drawn later is nearer to the viewer. *)
Theorem sceneOrder_spec (start end_ : Z) :
  (forall x y, (x, y) ∈ sceneOrder start end_
     <-> (start <= x <= end_)%Z /\ (start <= y <= end_)%Z)
  /\ NoDup (sceneOrder start end_)
  /\ StronglySorted behind (sceneOrder start end_).
Proof.
  split; [apply sceneOrder_elem|]. split; [apply sceneOrder_NoDup|].
  unfold sceneOrder. cbn zeta.
  apply (bind_sorted Z.lt).
  - apply seqZ_sorted.
  - intros i _.
    apply (same_sum_sorted (2 * (end_ - start + 1) - 2 - i + 2 * start)).
    apply Forall_forall.
    intros [x y] (j & [= -> ->]%list_elem_of_singleton & _)%list_elem_of_bind.
    simpl. lia.
  - intros i i' [x y] [x' y'] Hlt
      (j & [= -> ->]%list_elem_of_singleton & _)%list_elem_of_bind
      (j' & [= -> ->]%list_elem_of_singleton & _)%list_elem_of_bind.
    unfold behind. simpl. lia.
Qed.

End SceneOrder.
(** ** Jump requests in a call of [update] *)

Section JumpRequests.

Import Game Sim.

(** *** A player in the air, block by block *)







(** *** The invariant of a player in the air *)



(** *** The first half of a call *)



(** *** The second half of a call *)



(** *** A jump from the start tile, and the landing that follows *)







End JumpRequests.
